(** * ref-archive-ops: a shallow embedding of the archive worker, its
      scheduler, the listing parser, the path validator and the error
      classifier, with the properties of the specification stated over it.

    Conventions of the embedding.
    - A JavaScript string is a [string]; every [ascii] stands for one UTF-16
      code unit below 256.
    - A JavaScript integer-valued number is a [Z]; a number read by
      [parseInt] is a [JsNumber], the double nearest to the digits read,
      with [NaN], the infinities and negative zero kept apart.
    - A function that throws, or a promise that rejects, returns a value of a
      sum type carrying the error object.
    - Calls into the platform (the file system, the clock, the child process)
      are answered by an explicit environment record. *)

From Stdlib Require Import ZArith List Bool Ascii String Lia Arith.
From Stdlib Require Import DecimalString Sorted.
Import ListNotations.
Local Open Scope string_scope.
Local Open Scope Z_scope.

(* ================================================================== *)
(** ** JavaScript string primitives *)
(* ================================================================== *)

Module Js.

(** [String.prototype.startsWith]. *)
Definition startsWith (s needle : string) : bool := String.prefix needle s.

(** [String.prototype.includes]. *)
Fixpoint includes (s needle : string) : bool :=
  String.prefix needle s ||
  match s with
  | EmptyString => false
  | String _ t => includes t needle
  end.

(** [String.prototype.indexOf]; [None] stands for [-1]. *)
Fixpoint indexOf (s needle : string) : option nat :=
  if String.prefix needle s then Some 0%nat
  else match s with
       | EmptyString => None
       | String _ t => option_map S (indexOf t needle)
       end.

(** [s.substring(from)] for [0 <= from]. *)
Fixpoint substringFrom (from : nat) (s : string) : string :=
  match from, s with
  | O, _ => s
  | S n, String _ t => substringFrom n t
  | S _, EmptyString => EmptyString
  end.

(** [s.substring(0, to)] for [0 <= to]. *)
Fixpoint substringTo (to : nat) (s : string) : string :=
  match to, s with
  | O, _ => EmptyString
  | S n, String c t => String c (substringTo n t)
  | S _, EmptyString => EmptyString
  end.

(** White space and line terminators removed by [String.prototype.trim],
    among the code units below 256: TAB, LF, VT, FF, CR, SP and NBSP. *)
Definition isWhiteSpace (c : ascii) : bool :=
  let n := nat_of_ascii c in
  ((n =? 9) || (n =? 10) || (n =? 11) || (n =? 12) || (n =? 13)
   || (n =? 32) || (n =? 160))%nat.

Fixpoint trimStart (s : string) : string :=
  match s with
  | EmptyString => EmptyString
  | String c t => if isWhiteSpace c then trimStart t else s
  end.

Fixpoint trimEnd (s : string) : string :=
  match s with
  | EmptyString => EmptyString
  | String c t =>
      let t' := trimEnd t in
      if isWhiteSpace c && (t' =? EmptyString)%string then EmptyString
      else String c t'
  end.

(** [String.prototype.trim]. *)
Definition trim (s : string) : string := trimEnd (trimStart s).

(** Truthiness of a string: the empty string is falsy. *)
Definition truthy (s : string) : bool := negb (s =? EmptyString)%string.

(** Canonicalisation of one code unit for a case-insensitive regular
    expression without the unicode flag: the upper-case form, except that a
    code unit of 128 or more never folds to one below 128.  Below 128 this is
    the ASCII upper case; above, the result stays above 127, so leaving the
    code unit itself decides every comparison with an ASCII pattern the same
    way. *)
Definition canonicalize (c : ascii) : ascii :=
  let n := nat_of_ascii c in
  if ((97 <=? n) && (n <=? 122))%nat then ascii_of_nat (n - 32) else c.

Fixpoint canonicalizeAll (s : string) : string :=
  match s with
  | EmptyString => EmptyString
  | String c t => String (canonicalize c) (canonicalizeAll t)
  end.

(** [/literal/i.test(s)] for a pattern made of literal characters only. *)
Definition testIgnoreCase (literal s : string) : bool :=
  includes (canonicalizeAll s) (canonicalizeAll literal).

(** Decimal rendering of a natural number, as a template literal prints a
    small non-negative integer. *)
Definition natToString (n : nat) : string :=
  NilEmpty.string_of_uint (Nat.to_uint n).

End Js.

(* ================================================================== *)
(** ** types/errors.types.ts *)
(* ================================================================== *)

Module Errors.

Inductive ArchiveErrorCode : Type :=
| INVALID_PATH | PATH_TRAVERSAL | FILE_NOT_FOUND | DIRECTORY_NOT_FOUND
| ENCRYPTED_ARCHIVE | CORRUPT_ARCHIVE | UNSUPPORTED_FORMAT | EMPTY_ARCHIVE
| EXECUTABLE_NOT_FOUND | SPAWN_FAILED | PROCESS_TIMEOUT
| OPERATION_IN_PROGRESS | OPERATION_CANCELLED
| PERMISSION_DENIED | DISK_FULL | FILE_IN_USE
| WARNING | FATAL_ERROR | COMMAND_LINE_ERROR | OUT_OF_MEMORY | USER_ABORTED.

(** Values stored in the [details] bag of an error. *)
Inductive DetailValue : Type :=
| DStr (s : string)
| DNum (n : Z)
| DStrs (l : list string)
| DUndefined.

Record ArchiveError : Type := mkArchiveError {
  err_name : string;
  err_message : string;
  err_code : ArchiveErrorCode;
  err_details : list (string * DetailValue)
}.

(** [new ArchiveError(message, code, details)]. *)
Definition newArchiveError (message : string) (code : ArchiveErrorCode)
    (details : list (string * DetailValue)) : ArchiveError :=
  mkArchiveError "ArchiveError" message code details.

Definition EncryptedArchiveError (archivePath : string) : ArchiveError :=
  mkArchiveError "EncryptedArchiveError"
    ("Archive is encrypted and cannot be processed: " ++ archivePath)
    ENCRYPTED_ARCHIVE
    [("archivePath", DStr archivePath)].

Definition PathTraversalError (maliciousPath archivePath : string) : ArchiveError :=
  mkArchiveError "PathTraversalError"
    ("Path traversal detected in archive entry: " ++ maliciousPath)
    PATH_TRAVERSAL
    [("maliciousPath", DStr maliciousPath); ("archivePath", DStr archivePath)].

Definition ExecutableNotFoundError (executablePath : string) : ArchiveError :=
  mkArchiveError "ExecutableNotFoundError"
    ("7za executable not found at: " ++ executablePath)
    EXECUTABLE_NOT_FOUND
    [("executablePath", DStr executablePath)].

Definition UnsupportedFormatError (archivePath extension : string) : ArchiveError :=
  mkArchiveError "UnsupportedFormatError"
    ("Unsupported archive format: " ++ extension ++ ". Only .zip is supported.")
    UNSUPPORTED_FORMAT
    [("archivePath", DStr archivePath); ("extension", DStr extension)].

Definition OperationInProgressError (currentOperation : string) : ArchiveError :=
  mkArchiveError "OperationInProgressError"
    ("Cannot start new operation. A " ++ currentOperation
       ++ " operation is already running.")
    OPERATION_IN_PROGRESS
    [("currentOperation", DStr currentOperation)].

(** One row of the stderr table: a literal, case-insensitive pattern. *)
Record StderrPattern : Type := mkPattern {
  pattern : string;
  code : ArchiveErrorCode;
  message : string
}.

Definition STDERR_PATTERNS : list StderrPattern :=
  [ mkPattern "CRC Failed" CORRUPT_ARCHIVE "CRC check failed - archive is corrupted";
    mkPattern "Data Error" CORRUPT_ARCHIVE "Data error - archive is corrupted";
    mkPattern "Headers Error" CORRUPT_ARCHIVE "Invalid archive headers - archive is corrupted";
    mkPattern "Unexpected end of archive" CORRUPT_ARCHIVE "Unexpected end of archive - file may be truncated";
    mkPattern "Can not open the file as archive" CORRUPT_ARCHIVE "Cannot open file as archive - invalid or corrupted";
    mkPattern "Is not archive" CORRUPT_ARCHIVE "File is not a valid archive";
    mkPattern "Access is denied" PERMISSION_DENIED "Access denied - permission error";
    mkPattern "cannot access the file because it is being used" FILE_IN_USE "File is in use by another process";
    mkPattern "Sharing violation" FILE_IN_USE "Sharing violation - file is locked";
    mkPattern "There is not enough space on the disk" DISK_FULL "Not enough disk space";
    mkPattern "No space left on device" DISK_FULL "No space left on device";
    mkPattern "Cannot find the file" FILE_NOT_FOUND "File not found";
    mkPattern "The system cannot find the file" FILE_NOT_FOUND "System cannot find the file";
    mkPattern "The system cannot find the path" DIRECTORY_NOT_FOUND "System cannot find the path";
    mkPattern "Wrong password" ENCRYPTED_ARCHIVE "Wrong password for encrypted archive";
    mkPattern "Enter password" ENCRYPTED_ARCHIVE "Archive requires a password" ].

(** [pattern.test(stderr)]. *)
Definition patternTest (p : StderrPattern) (stderr : string) : bool :=
  Js.testIgnoreCase (pattern p) stderr.

(** [exitCodeToErrorCode]; [None] is the [null] returned for exit code 0. *)
Definition exitCodeToErrorCode (exitCode : Z) : option ArchiveErrorCode :=
  if exitCode =? 0 then None
  else if exitCode =? 1 then Some WARNING
  else if exitCode =? 2 then Some FATAL_ERROR
  else if exitCode =? 7 then Some COMMAND_LINE_ERROR
  else if exitCode =? 8 then Some OUT_OF_MEMORY
  else if exitCode =? 255 then Some USER_ABORTED
  else Some FATAL_ERROR.

Definition DEFAULT_MESSAGES (c : ArchiveErrorCode) : string :=
  match c with
  | WARNING => "Operation completed with warnings"
  | FATAL_ERROR => "Fatal error occurred during operation"
  | COMMAND_LINE_ERROR => "Invalid command line arguments"
  | OUT_OF_MEMORY => "Out of memory"
  | USER_ABORTED => "Operation was aborted"
  | INVALID_PATH => "Invalid path"
  | PATH_TRAVERSAL => "Path traversal detected"
  | FILE_NOT_FOUND => "File not found"
  | DIRECTORY_NOT_FOUND => "Directory not found"
  | ENCRYPTED_ARCHIVE => "Archive is encrypted"
  | CORRUPT_ARCHIVE => "Archive is corrupted"
  | UNSUPPORTED_FORMAT => "Unsupported format"
  | EMPTY_ARCHIVE => "Archive is empty"
  | EXECUTABLE_NOT_FOUND => "Executable not found"
  | SPAWN_FAILED => "Failed to spawn process"
  | PROCESS_TIMEOUT => "Process timed out"
  | OPERATION_IN_PROGRESS => "Operation in progress"
  | OPERATION_CANCELLED => "Operation cancelled"
  | PERMISSION_DENIED => "Permission denied"
  | DISK_FULL => "Disk is full"
  | FILE_IN_USE => "File is in use"
  end.

(** The loop of [parseStderrForError], over any table. *)
Fixpoint firstMatch (table : list StderrPattern) (stderr : string)
  : option (ArchiveErrorCode * string) :=
  match table with
  | [] => None
  | p :: rest =>
      if patternTest p stderr then Some (code p, message p)
      else firstMatch rest stderr
  end.

Definition parseStderrForError (stderr : string) : option (ArchiveErrorCode * string) :=
  firstMatch STDERR_PATTERNS stderr.

(** [stderrTrimmed || undefined]. *)
Definition orUndefined (s : string) : DetailValue :=
  if Js.truthy s then DStr s else DUndefined.

Definition createErrorFromExitCode (exitCode : Z) (archivePath stderr : string)
  : ArchiveError :=
  match parseStderrForError stderr with
  | Some (c, m) =>
      newArchiveError m c
        [("archivePath", DStr archivePath); ("exitCode", DNum exitCode);
         ("stderr", DStr (Js.trim stderr))]
  | None =>
      let errorCode :=
        match exitCodeToErrorCode exitCode with
        | Some c => c
        | None => FATAL_ERROR
        end in
      let message := DEFAULT_MESSAGES errorCode in
      let stderrTrimmed := Js.trim stderr in
      let message :=
        if Js.truthy stderrTrimmed && (Z.of_nat (String.length stderrTrimmed) <? 200)
        then message ++ ": " ++ stderrTrimmed
        else message in
      newArchiveError message errorCode
        [("archivePath", DStr archivePath); ("exitCode", DNum exitCode);
         ("stderr", orUndefined stderrTrimmed)]
  end.

End Errors.

(* ================================================================== *)
(** ** types/archive.types.ts *)
(* ================================================================== *)

Module Types.

Inductive CompressionLevel : Type := STORE | FAST | NORMAL.

(** The numeric value of a compression level, as the [-mx] switch prints it. *)
Definition CompressionLevel_value (l : CompressionLevel) : nat :=
  match l with
  | STORE => 0
  | FAST => 1
  | NORMAL => 5
  end.

Inductive ArchiveOpType : Type :=
| UNDEFINED | COMPRESS | DECOMPRESS | LIST | EXTRACT_SINGLE | UPDATE.

Definition ArchiveOpType_eqb (a b : ArchiveOpType) : bool :=
  match a, b with
  | UNDEFINED, UNDEFINED | COMPRESS, COMPRESS | DECOMPRESS, DECOMPRESS
  | LIST, LIST | EXTRACT_SINGLE, EXTRACT_SINGLE | UPDATE, UPDATE => true
  | _, _ => false
  end.

(** The reverse mapping [ArchiveOpType[op]] of the numeric enum. *)
Definition ArchiveOpType_name (op : ArchiveOpType) : string :=
  match op with
  | UNDEFINED => "UNDEFINED"
  | COMPRESS => "COMPRESS"
  | DECOMPRESS => "DECOMPRESS"
  | LIST => "LIST"
  | EXTRACT_SINGLE => "EXTRACT_SINGLE"
  | UPDATE => "UPDATE"
  end.

Module ProcessStatus.

Inductive t : Type := UNDEFINED | ERROR | SUCCESS | PENDING | QUEUED | RUNNING.

Definition value (s : t) : Z :=
  match s with
  | UNDEFINED => -1
  | ERROR => 0
  | SUCCESS => 1
  | PENDING => 2
  | QUEUED => 10
  | RUNNING => 11
  end.

Definition eqb (a b : t) : bool := value a =? value b.

End ProcessStatus.

(** The JavaScript numbers that a size can hold: [NaN], a double whose
    value is the integer [n] ([JNum n], so [n] is an integer that a double
    represents exactly), negative zero, and the two infinities. *)
Inductive JsNumber : Type :=
| JNaN
| JNum (n : Z)
| JNegZero
| JInfinity (negative : bool).

(** [x >= 0] on JavaScript numbers: false for [NaN], true for [-0]. *)
Definition JsNumber_nonneg (x : JsNumber) : bool :=
  match x with
  | JNaN => false
  | JNum n => 0 <=? n
  | JNegZero => true
  | JInfinity negative => negb negative
  end.

(** [-x]. *)
Definition JsNumber_negate (x : JsNumber) : JsNumber :=
  match x with
  | JNaN => JNaN
  | JNum n => if n =? 0 then JNegZero else JNum (- n)
  | JNegZero => JNum 0
  | JInfinity negative => JInfinity (negb negative)
  end.

(** A non-negative integer rounded to the 53 significant bits of a double,
    to the nearest value, a tie going to the even significand.  Integers
    below 2^53 are kept as they are. *)
Definition roundToDouble (n : Z) : Z :=
  if n <? 2 ^ 53 then n
  else
    let e := Z.log2 n - 52 in
    let q := Z.shiftr n e in
    let r := n - Z.shiftl q e in
    let half := Z.shiftl 1 (e - 1) in
    let q := if (half <? r) || ((r =? half) && Z.odd q) then q + 1 else q in
    Z.shiftl q e.

(** The Number value for a non-negative integer: the nearest double, and
    [Infinity] from 2^1024 - 2^970 on, where the nearest value would be
    2^1024. *)
Definition numberOf (n : Z) : JsNumber :=
  if 2 ^ 1024 - 2 ^ 970 <=? n then JInfinity false else JNum (roundToDouble n).

(** A [Date] is its epoch time in milliseconds. *)
Definition JsDate : Type := Z.

Record FileInfo : Type := mkFileInfo {
  date : JsDate;
  size : JsNumber;
  compressedSize : option JsNumber;
  filename : string;
  encrypted : option bool;
  crc : option string
}.

(** [runtime] is the elapsed time [(Date.now() - startTime) / 1000]; the
    field holds the dividend, in milliseconds. *)
Record ArchiveOpResult : Type := mkArchiveOpResult {
  success : bool;
  runtime : Z;
  type : ArchiveOpType;
  message : string;
  files : list FileInfo;
  basePath : option string;
  exitCode : option Z
}.

Record ArchiveOpsConfig : Type := mkArchiveOpsConfig {
  ops_executablePath : string
}.

Record ArchiveServiceConfig : Type := mkArchiveServiceConfig {
  executablePath : string;
  maxConcurrent : Z
}.

End Types.

(** The outcome of a call that may throw, or of a promise that settles:
    a value, or the error object thrown. *)
Inductive Completion (E A : Type) : Type :=
| Return (a : A)
| Throw (e : E).
Arguments Return {E A} a.
Arguments Throw {E A} e.

(* ================================================================== *)
(** ** The [path] module of the platform *)
(* ================================================================== *)

(** What the validator uses of Node's [path]: [normalize], [isAbsolute] and
    [sep].  The validator is written against this interface; [Posix] below
    instantiates it. *)
Record PathModule : Type := mkPathModule {
  normalize : string -> string;
  isAbsolute : string -> bool;
  sep : string
}.

Definition slash : ascii := ascii_of_nat 47.
Definition backslash : ascii := ascii_of_nat 92.
Definition NUL : ascii := ascii_of_nat 0.
Definition str1 (c : ascii) : string := String c EmptyString.

Module Posix.

(** [s.split(c)] for a one-character separator. *)
Fixpoint split (c : ascii) (s : string) : list string :=
  match s with
  | EmptyString => [EmptyString]
  | String d t =>
      if Ascii.eqb d c then EmptyString :: split c t
      else match split c t with
           | h :: r => String d h :: r
           | [] => [String d EmptyString]
           end
  end.

(** [l.join(sep)]. *)
Fixpoint join (sep : string) (l : list string) : string :=
  match l with
  | [] => EmptyString
  | [x] => x
  | x :: r => x ++ sep ++ join sep r
  end.

(** One segment of [normalizeString]: the segments kept so far are held
    innermost first.  An empty segment and [.] are dropped; [..] removes the
    last kept segment unless there is none or it is itself [..], in which
    case [..] is kept when the path is relative ([allowAboveRoot]). *)
Definition normalizeStep (allowAboveRoot : bool) (res : list string) (seg : string)
  : list string :=
  if (seg =? EmptyString)%string then res
  else if (seg =? ".")%string then res
  else if (seg =? "..")%string then
    match res with
    | last :: rest =>
        if (last =? "..")%string
        then (if allowAboveRoot then ".." :: res else res)
        else rest
    | [] => if allowAboveRoot then [".."] else []
    end
  else seg :: res.

Definition normalizeString (path : string) (allowAboveRoot : bool) : string :=
  join "/" (rev (fold_left (normalizeStep allowAboveRoot) (split slash path) [])).

Fixpoint endsWithChar (c : ascii) (s : string) : bool :=
  match s with
  | EmptyString => false
  | String d EmptyString => Ascii.eqb d c
  | String _ t => endsWithChar c t
  end.

(** [path.posix.isAbsolute]. *)
Definition isAbsolute (path : string) : bool :=
  match path with
  | String d _ => Ascii.eqb d slash
  | EmptyString => false
  end.

(** [path.posix.normalize]: resolves [.] and [..] segments and repeated
    separators, keeps a trailing separator, and returns [.] for a path that
    normalises to nothing. *)
Definition normalize (path : string) : string :=
  if (path =? EmptyString)%string then "."
  else
    let isAbs := isAbsolute path in
    let trailingSeparator := endsWithChar slash path in
    let res := normalizeString path (negb isAbs) in
    if (res =? EmptyString)%string then
      (if isAbs then "/" else if trailingSeparator then "./" else ".")
    else
      let res := if trailingSeparator then res ++ "/" else res in
      if isAbs then "/" ++ res else res.

Definition path : PathModule := mkPathModule normalize isAbsolute "/".

(** [path.posix.basename] without a suffix: the last segment that is not
    empty, trailing separators being passed over; the empty string when
    there is none. *)
Definition basename (path : string) : string :=
  last (filter (fun seg => negb (seg =? EmptyString)%string) (split slash path))
       EmptyString.

(** Whether the segments of a relative path climb above the directory the
    path starts from: a [..] met while no named segment is left to cancel. *)
Fixpoint climbs (depth : nat) (segs : list string) : bool :=
  match segs with
  | [] => false
  | s :: rest =>
      if (s =? "..")%string then
        match depth with
        | O => true
        | S d => climbs d rest
        end
      else if ((s =? EmptyString) || (s =? "."))%string then climbs depth rest
      else climbs (S depth) rest
  end.

Definition climbsAboveRoot (p : string) : bool := climbs 0 (split slash p).

End Posix.

(* ================================================================== *)
(** ** utils/pathValidation.ts *)
(* ================================================================== *)

Module PathValidation.
Import Errors Types.

Section WithPath.
Variable path : PathModule.

(** [validateEntryPath]: returns normally or throws [PathTraversalError]. *)
Definition validateEntryPath (entryPath archivePath : string)
  : Completion ArchiveError unit :=
  let normalized := normalize path entryPath in
  if isAbsolute path normalized then
    Throw (PathTraversalError entryPath archivePath)
  else if Js.startsWith normalized ".."
          || Js.includes normalized (".." ++ sep path)
          || Js.includes normalized "../"
          || Js.includes normalized (".." ++ str1 backslash) then
    Throw (PathTraversalError entryPath archivePath)
  else if Js.includes entryPath (str1 NUL) then
    Throw (PathTraversalError entryPath archivePath)
  else Return tt.

(** [validateAllEntries]: stops at the first entry that throws. *)
Fixpoint validateAllEntries (entries : list FileInfo) (archivePath : string)
  : Completion ArchiveError unit :=
  match entries with
  | [] => Return tt
  | entry :: rest =>
      match validateEntryPath (filename entry) archivePath with
      | Throw e => Throw e
      | Return _ => validateAllEntries rest archivePath
      end
  end.

(** [inputPath.replace(/\\/g, '/')]. *)
Fixpoint backslashesToSlashes (s : string) : string :=
  match s with
  | EmptyString => EmptyString
  | String c t =>
      String (if Ascii.eqb c backslash then slash else c) (backslashesToSlashes t)
  end.

Definition normalizePath (inputPath : string) : string :=
  backslashesToSlashes (normalize path inputPath).

Definition isSafePath (entryPath : string) : bool :=
  match validateEntryPath entryPath EmptyString with
  | Return _ => true
  | Throw _ => false
  end.

End WithPath.
End PathValidation.

(* ================================================================== *)
(** ** utils/sltParser.ts *)
(* ================================================================== *)

Module SltParser.
Import Types.

(** Raw data of one block of the listing; an absent key is [None]. *)
Record SltFileEntry : Type := mkEntry {
  path : option string;
  size : option JsNumber;
  packedSize : option JsNumber;
  modified : option string;
  encrypted : option string;
  crc : option string;
  attributes : option string
}.

Definition emptyEntry : SltFileEntry :=
  mkEntry None None None None None None None.

Definition isDigit (c : ascii) : bool :=
  let n := nat_of_ascii c in ((48 <=? n) && (n <=? 57))%nat.

Definition digitValue (c : ascii) : Z := Z.of_nat (nat_of_ascii c) - 48.

(** The longest prefix of decimal digits of [s], read as a number with [acc]
    the value of the digits already read; [None] when nothing was read. *)
Fixpoint leadingDigits (s : string) (acc : option Z) : option Z :=
  match s with
  | EmptyString => acc
  | String c t =>
      if isDigit c then
        leadingDigits t
          (Some (10 * match acc with Some a => a | None => 0 end + digitValue c))
      else acc
  end.

(** [parseInt(s, 10)]: leading white space is skipped, one sign is read, then
    the longest run of digits; no digit gives [NaN].  The result is the
    Number value for the integer the digits denote, with the sign read: a
    double, so the integer is rounded from 2^53 on and is an infinity when
    it is out of range, and [-0] is read as negative zero. *)
Definition parseInt (s : string) : JsNumber :=
  let s := Js.trimStart s in
  let '(negative, s) :=
    match s with
    | String c t =>
        if Ascii.eqb c (ascii_of_nat 45) then (true, t)
        else if Ascii.eqb c (ascii_of_nat 43) then (false, t)
        else (false, s)
    | EmptyString => (false, s)
    end in
  match leadingDigits s None with
  | None => JNaN
  | Some n => if negative then JsNumber_negate (numberOf n) else numberOf n
  end.

Definition LF : ascii := ascii_of_nat 10.
Definition CR : ascii := ascii_of_nat 13.

Definition consChar (c : ascii) (l : list string) : list string :=
  match l with
  | h :: r => String c h :: r
  | [] => [String c EmptyString]
  end.

(** [output.split(/\r?\n/)]. *)
Fixpoint splitLines (s : string) : list string :=
  match s with
  | EmptyString => [EmptyString]
  | String c t =>
      if Ascii.eqb c LF then EmptyString :: splitLines t
      else
        match t with
        | String c2 t2 =>
            if Ascii.eqb c CR && Ascii.eqb c2 LF
            then EmptyString :: splitLines t2
            else consChar c (splitLines t)
        | EmptyString => consChar c (splitLines t)
        end
  end.

(** [s.replace(' ', 'T')]: the first space only. *)
Fixpoint replaceFirstSpace (s : string) : string :=
  match s with
  | EmptyString => EmptyString
  | String c t =>
      if Ascii.eqb c (ascii_of_nat 32) then String (ascii_of_nat 84) t
      else String c (replaceFirstSpace t)
  end.

Section WithClock.
(** [now] is the time read by [new Date()]; [dateParse s] is the epoch time
    of [new Date(s)], [None] when that time is [NaN]. *)
Variable now : JsDate.
Variable dateParse : string -> option JsDate.

(** [convertToFileInfo]; [None] is the [null] of a skipped entry. *)
Definition convertToFileInfo (entry : SltFileEntry) : option FileInfo :=
  match path entry with
  | None => None
  | Some p =>
      if negb (Js.truthy p) then None
      else if match attributes entry with
              | Some a => Js.includes a "D"
              | None => false
              end then None
      else
        let date :=
          match modified entry with
          | Some m =>
              if Js.truthy m then
                match dateParse (replaceFirstSpace m) with
                | Some parsed => parsed
                | None => now
                end
              else now
          | None => now
          end in
        Some (mkFileInfo
                date
                (match size entry with Some n => n | None => JNum 0 end)
                (packedSize entry)
                p
                (Some (match encrypted entry with
                       | Some e => (e =? "+")%string
                       | None => false
                       end))
                (crc entry))
  end.

(** The [switch (key)] of the parsing loop. *)
Definition setKey (entry : SltFileEntry) (key value : string) : SltFileEntry :=
  if (key =? "Path")%string then
    mkEntry (Some value) (size entry) (packedSize entry) (modified entry)
            (encrypted entry) (crc entry) (attributes entry)
  else if (key =? "Size")%string then
    mkEntry (path entry) (Some (parseInt value)) (packedSize entry) (modified entry)
            (encrypted entry) (crc entry) (attributes entry)
  else if (key =? "Packed Size")%string then
    mkEntry (path entry) (size entry) (Some (parseInt value)) (modified entry)
            (encrypted entry) (crc entry) (attributes entry)
  else if (key =? "Modified")%string then
    mkEntry (path entry) (size entry) (packedSize entry) (Some value)
            (encrypted entry) (crc entry) (attributes entry)
  else if (key =? "Encrypted")%string then
    mkEntry (path entry) (size entry) (packedSize entry) (modified entry)
            (Some value) (crc entry) (attributes entry)
  else if (key =? "CRC")%string then
    mkEntry (path entry) (size entry) (packedSize entry) (modified entry)
            (encrypted entry) (Some value) (attributes entry)
  else if (key =? "Attributes")%string then
    mkEntry (path entry) (size entry) (packedSize entry) (modified entry)
            (encrypted entry) (crc entry) (Some value)
  else entry.

(** [files.push(fileInfo)] when the entry converts. *)
Definition flush (files : list FileInfo) (entry : SltFileEntry) : list FileInfo :=
  match convertToFileInfo entry with
  | Some fileInfo => files ++ [fileInfo]
  | None => files
  end.

(** One iteration of the loop over the lines, on the pair of the files
    collected so far and the entry under construction. *)
Definition parseLine (st : list FileInfo * SltFileEntry) (line : string)
  : list FileInfo * SltFileEntry :=
  let '(files, currentEntry) := st in
  let trimmed := Js.trim line in
  if (trimmed =? EmptyString)%string then (flush files currentEntry, emptyEntry)
  else
    match Js.indexOf trimmed " = " with
    | None => st
    | Some separatorIndex =>
        let key := Js.substringTo separatorIndex trimmed in
        let value := Js.substringFrom (separatorIndex + 3) trimmed in
        (files, setKey currentEntry key value)
    end.

Definition parseSltString (output : string) : list FileInfo :=
  let '(files, currentEntry) :=
    fold_left parseLine (splitLines output) ([], emptyEntry) in
  flush files currentEntry.

End WithClock.

(** [hasEncryptedFiles]. *)
Definition hasEncryptedFiles (files : list FileInfo) : bool :=
  existsb (fun file => match Types.encrypted file with
                       | Some true => true
                       | _ => false
                       end) files.

(** [findEncryptedFile]. *)
Definition findEncryptedFile (files : list FileInfo) : option FileInfo :=
  find (fun file => match Types.encrypted file with
                    | Some true => true
                    | _ => false
                    end) files.

(** The value of a line whose key is [Size], as the loop reads it. *)
Definition sizeValueOf (line : string) : option string :=
  let trimmed := Js.trim line in
  match Js.indexOf trimmed " = " with
  | None => None
  | Some separatorIndex =>
      if (Js.substringTo separatorIndex trimmed =? "Size")%string
      then Some (Js.substringFrom (separatorIndex + 3) trimmed)
      else None
  end.

Definition startsWithDigit (s : string) : bool :=
  match s with
  | String c _ => isDigit c
  | EmptyString => false
  end.

(** Every [Size] line of the text carries a value that begins with a
    decimal digit, as the tool prints sizes. *)
Definition sizesAreDecimal (output : string) : bool :=
  forallb (fun line => match sizeValueOf line with
                       | Some v => startsWithDigit v
                       | None => true
                       end) (splitLines output).

(** Every [Size] line of the text carries a value of at most 308
    characters: the digits it begins with then denote a number below 10^308,
    within the range of a double. *)
Definition sizesAreShort (output : string) : bool :=
  forallb (fun line => match sizeValueOf line with
                       | Some v => (String.length v <=? 308)%nat
                       | None => true
                       end) (splitLines output).

End SltParser.

(* ================================================================== *)
(** ** core/archiveOps.ts *)
(* ================================================================== *)

(** One operation of a worker is followed from its call to the settling of
    its promise, with no [cancel] arriving in between: the stdout handlers
    then see the status RUNNING and keep every chunk, so that the text a
    process wrote is known when it closes.  The progress callbacks, which
    only report and have no part in the outcome, are left out. *)
Module ArchiveOps.
Import Errors Types.

(** The child process handle, as far as the worker looks at it. *)
Record ChildProcess : Type := mkChild {
  spawnargs : list string;
  killed : bool
}.

(** The fields of one [ArchiveOps] instance. *)
Record t : Type := mkOps {
  config : ArchiveOpsConfig;
  status : ProcessStatus.t;
  lastMessage : string;
  process : option ChildProcess;
  activeOp : ArchiveOpType;
  startTime : Z;
  currentArchivePath : string
}.

(** [new ArchiveOps(config)]. *)
Definition create (config : ArchiveOpsConfig) : t :=
  mkOps config ProcessStatus.UNDEFINED EmptyString None UNDEFINED 0 EmptyString.

(** What a spawned process does: it fails to start (the [error] event, with
    the message of the error), or it closes with an exit code ([None] for
    [null]), the text written to stdout and to stderr, and the time it ran. *)
Inductive ProcessRun : Type :=
| RunError (errorMessage : string)
| RunClose (code : option Z) (stdout stderr : string) (elapsedMs : Z).

(** External effects of a worker, in the order they happen: a call of
    [spawn], a call of [kill] on a process handle (whether or not the process
    is still alive), and a directory created by [mkdir]. *)
Inductive Effect : Type :=
| Spawned (executable : string) (args : list string)
| Killed (args : list string) (signal : string)
| MadeDirectory (directoryPath : string).

(** The platform as one operation sees it. *)
Record Env : Type := mkEnv {
  pathModule : PathModule;
  path_resolve : string -> string;
  path_basename : string -> string;
  path_dirname : string -> string;
  path_extname : string -> string;
  fs_access : string -> bool;
  (** [fs.mkdir] with [recursive]: [None] on success, else the error text. *)
  fs_mkdir : string -> option string;
  (** [statSync]: modification time and size. *)
  fs_stat : string -> JsDate * Z;
  (** The run of the tool for an argument vector. *)
  child : list string -> ProcessRun;
  dateParse : string -> option JsDate
}.

(** The state threaded through an operation: the worker's fields, the
    effects so far and the clock read by [Date.now()]. *)
Record St : Type := mkSt {
  self : t;
  effects : list Effect;
  clock : Z
}.

(** How an operation can fail: the promise rejects with an [ArchiveError],
    or an event handler throws and the promise never settles. *)
Inductive Failure : Type :=
| Reject (e : ArchiveError)
| Uncaught (what : string).

Definition M (A : Type) : Type := St -> St * Completion Failure A.

Definition ret {A} (a : A) : M A := fun st => (st, Return a).
Definition throw {A} (e : ArchiveError) : M A := fun st => (st, Throw (Reject e)).
Definition uncaught {A} (what : string) : M A := fun st => (st, Throw (Uncaught what)).
Definition bind {A B} (c : M A) (k : A -> M B) : M B :=
  fun st =>
    match c st with
    | (st', Return a) => k a st'
    | (st', Throw e) => (st', Throw e)
    end.

Notation "x <- c ;; k" := (bind c (fun x => k))
  (at level 61, c at next level, right associativity).
Notation "c ;; k" := (bind c (fun _ => k))
  (at level 61, right associativity).

Definition getSelf : M t := fun st => (st, Return (self st)).
Definition getClock : M Z := fun st => (st, Return (clock st)).
Definition modify (f : t -> t) : M unit :=
  fun st => (mkSt (f (self st)) (effects st) (clock st), Return tt).
Definition emit (e : Effect) : M unit :=
  fun st => (mkSt (self st) (effects st ++ [e]) (clock st), Return tt).
Definition elapse (ms : Z) : M unit :=
  fun st => (mkSt (self st) (effects st) (clock st + ms), Return tt).
Definition lift (c : Completion ArchiveError unit) : M unit :=
  match c with
  | Return _ => ret tt
  | Throw e => throw e
  end.

Definition setStatus (s : ProcessStatus.t) (w : t) : t :=
  mkOps (config w) s (lastMessage w) (process w) (activeOp w) (startTime w)
        (currentArchivePath w).
Definition setLastMessage (m : string) (w : t) : t :=
  mkOps (config w) (status w) m (process w) (activeOp w) (startTime w)
        (currentArchivePath w).
Definition setProcess (p : option ChildProcess) (w : t) : t :=
  mkOps (config w) (status w) (lastMessage w) p (activeOp w) (startTime w)
        (currentArchivePath w).
Definition setActiveOp (op : ArchiveOpType) (w : t) : t :=
  mkOps (config w) (status w) (lastMessage w) (process w) op (startTime w)
        (currentArchivePath w).
Definition setStartTime (n : Z) (w : t) : t :=
  mkOps (config w) (status w) (lastMessage w) (process w) (activeOp w) n
        (currentArchivePath w).
Definition setCurrentArchivePath (p : string) (w : t) : t :=
  mkOps (config w) (status w) (lastMessage w) (process w) (activeOp w)
        (startTime w) p.

(** [s.toLowerCase()] on code units below 256. *)
Definition lowerChar (c : ascii) : ascii :=
  let n := nat_of_ascii c in
  if (((65 <=? n) && (n <=? 90))
      || ((192 <=? n) && (n <=? 222) && negb (n =? 215)))%nat
  then ascii_of_nat (n + 32) else c.

Fixpoint toLowerCase (s : string) : string :=
  match s with
  | EmptyString => EmptyString
  | String c t => String (lowerChar c) (toLowerCase t)
  end.

(** [code ?? 0]. *)
Definition exitCodeOf (code : option Z) : Z :=
  match code with
  | Some c => c
  | None => 0
  end.

Section WithEnv.
Variable env : Env.

(** [cleanup]. *)
Definition cleanup : M unit :=
  modify (setActiveOp UNDEFINED) ;;
  w <- getSelf ;;
  match process w with
  | Some p =>
      if negb (killed p) then
        emit (Killed (spawnargs p) "SIGTERM") ;;
        modify (setProcess None)
      else ret tt
  | None => ret tt
  end.

(** [cancel]. *)
Definition cancel : M unit :=
  w <- getSelf ;;
  match process w with
  | Some p =>
      if negb (killed p) then
        emit (Killed (spawnargs p) "SIGTERM") ;;
        modify (setProcess (Some (mkChild (spawnargs p) true))) ;;
        modify (setStatus ProcessStatus.ERROR) ;;
        modify (setLastMessage "Operation cancelled") ;;
        cleanup
      else cleanup
  | None => cleanup
  end.

(** [spawnProcess]. *)
Definition spawnProcess (args : list string) : M ChildProcess :=
  w <- getSelf ;;
  emit (Spawned (ops_executablePath (config w)) args) ;;
  ret (mkChild args false).

(** [verifyArchive]. *)
Definition verifyArchive (archivePath : string) : M unit :=
  if negb (fs_access env archivePath) then
    throw (newArchiveError ("Archive not found: " ++ archivePath) FILE_NOT_FOUND
             [("archivePath", DStr archivePath)])
  else
    let ext := toLowerCase (path_extname env archivePath) in
    if negb (ext =? ".zip")%string then
      throw (UnsupportedFormatError archivePath
               (if Js.truthy ext then ext else "(none)"))
    else ret tt.

(** [ensureDirectoryExists]. *)
Definition ensureDirectoryExists (directoryPath : string) : M unit :=
  if fs_access env directoryPath then ret tt
  else
    match fs_mkdir env directoryPath with
    | None => emit (MadeDirectory directoryPath)
    | Some mkdirError =>
        throw (newArchiveError ("Failed to create directory: " ++ directoryPath)
                 DIRECTORY_NOT_FOUND
                 [("directoryPath", DStr directoryPath); ("error", DStr mkdirError)])
    end.

(** [createSpawnError]. *)
Definition createSpawnError (errorMessage : string) : M ArchiveError :=
  w <- getSelf ;;
  if Js.includes errorMessage "ENOENT" then
    ret (ExecutableNotFoundError (ops_executablePath (config w)))
  else
    ret (newArchiveError ("Failed to spawn 7za: " ++ errorMessage) SPAWN_FAILED
           [("originalError", DStr errorMessage)]).

(** [createSuccessResult]: the elapsed time is read first, then the state is
    updated and [cleanup] runs, then the result object is built from the
    fields as they are at that point. *)
Definition createSuccessResult (message : string) (files : list FileInfo)
    (basePath : string) (exitCode : Z) : M ArchiveOpResult :=
  now <- getClock ;;
  w0 <- getSelf ;;
  let elapsed := now - startTime w0 in
  modify (setStatus ProcessStatus.SUCCESS) ;;
  modify (setLastMessage message) ;;
  cleanup ;;
  w <- getSelf ;;
  ret (mkArchiveOpResult true elapsed (activeOp w) message files
         (Some (PathValidation.normalizePath (pathModule env) basePath))
         (Some exitCode)).

(** The check made at the head of every public operation. *)
Definition requireIdle : M unit :=
  w <- getSelf ;;
  if negb (ArchiveOpType_eqb (activeOp w) UNDEFINED) then
    throw (OperationInProgressError (ArchiveOpType_name (activeOp w)))
  else ret tt.

(** The state update that precedes the spawn of an operation. *)
Definition begin (op : ArchiveOpType) (message : string) : M unit :=
  modify (setActiveOp op) ;;
  modify (setStatus ProcessStatus.RUNNING) ;;
  modify (setLastMessage message) ;;
  now <- getClock ;;
  modify (setStartTime now).

(** [parseSltString] on the output of a listing, dated by the clock. *)
Definition parseListing (stdout : string) : M (list FileInfo) :=
  now <- getClock ;;
  ret (SltParser.parseSltString now (dateParse env) stdout).

(** [listEntries]. *)
Definition listEntries (archivePath : string) : M ArchiveOpResult :=
  modify (setLastMessage EmptyString) ;;
  modify (setCurrentArchivePath archivePath) ;;
  requireIdle ;;
  let fullArchivePath := path_resolve env archivePath in
  verifyArchive fullArchivePath ;;
  begin LIST "Listing archive contents..." ;;
  let args := ["l"; "-slt"; fullArchivePath] in
  p <- spawnProcess args ;;
  modify (setProcess (Some p)) ;;
  match child env args with
  | RunError errorMessage =>
      e <- createSpawnError errorMessage ;; throw e
  | RunClose code stdoutBuffer stderrBuffer elapsedMs =>
      elapse elapsedMs ;;
      let exitCode := exitCodeOf code in
      if exitCode =? 0 then
        files <- parseListing stdoutBuffer ;;
        if SltParser.hasEncryptedFiles files then
          cleanup ;; throw (EncryptedArchiveError fullArchivePath)
        else
          createSuccessResult
            ("Listed " ++ Js.natToString (List.length files) ++ " entries in '"
               ++ path_basename env archivePath ++ "'.")
            files fullArchivePath exitCode
      else
        cleanup ;;
        throw (createErrorFromExitCode exitCode fullArchivePath stderrBuffer)
  end.

(** [listEntriesInternal]: the listing pass of [decompress]; its process is
    not stored in the worker. *)
Definition listEntriesInternal (fullArchivePath : string) : M ArchiveOpResult :=
  let args := ["l"; "-slt"; fullArchivePath] in
  _ <- spawnProcess args ;;
  match child env args with
  | RunError errorMessage =>
      e <- createSpawnError errorMessage ;; throw e
  | RunClose code stdoutBuffer stderrBuffer elapsedMs =>
      elapse elapsedMs ;;
      let exitCode := exitCodeOf code in
      if exitCode =? 0 then
        files <- parseListing stdoutBuffer ;;
        if SltParser.hasEncryptedFiles files then
          throw (EncryptedArchiveError fullArchivePath)
        else
          ret (mkArchiveOpResult true 0 LIST
                 ("Listed " ++ Js.natToString (List.length files) ++ " entries.")
                 files (Some (path_dirname env fullArchivePath)) (Some exitCode))
      else
        throw (createErrorFromExitCode exitCode fullArchivePath stderrBuffer)
  end.

(** The argument vector of the extraction process. *)
Definition extractArgs (fullArchivePath fullTargetPath : string)
    (fileList : option (list string)) : list string :=
  ["x"; "-aoa"; "-bsp1"; "-bso0"; fullArchivePath; ("-o" ++ fullTargetPath)%string]
  ++ match fileList with
     | Some l => l
     | None => []
     end.

(** [decompress]. *)
Definition decompress (archivePath targetPath : string)
    (fileList : option (list string)) : M ArchiveOpResult :=
  modify (setLastMessage EmptyString) ;;
  modify (setCurrentArchivePath archivePath) ;;
  requireIdle ;;
  let fullArchivePath := path_resolve env archivePath in
  let fullTargetPath := path_resolve env targetPath in
  let srcFilename := path_basename env fullArchivePath in
  verifyArchive fullArchivePath ;;
  ensureDirectoryExists fullTargetPath ;;
  listResult <- listEntriesInternal fullArchivePath ;;
  if (List.length (files listResult) =? 0)%nat then
    throw (newArchiveError ("Cannot decompress empty archive: " ++ srcFilename)
             EMPTY_ARCHIVE [("archivePath", DStr fullArchivePath)])
  else
    lift (PathValidation.validateAllEntries (pathModule env)
            (files listResult) fullArchivePath) ;;
    begin DECOMPRESS ("Extracting '" ++ srcFilename ++ "' to '" ++ targetPath ++ "'") ;;
    let args := extractArgs fullArchivePath fullTargetPath fileList in
    p <- spawnProcess args ;;
    modify (setProcess (Some p)) ;;
    match child env args with
    | RunError errorMessage =>
        e <- createSpawnError errorMessage ;; throw e
    | RunClose code _ stderrBuffer elapsedMs =>
        elapse elapsedMs ;;
        let exitCode := exitCodeOf code in
        if exitCode =? 0 then
          createSuccessResult
            ("Extracted '" ++ srcFilename ++ "' to '" ++ targetPath ++ "'.")
            (files listResult) fullTargetPath exitCode
        else
          cleanup ;;
          throw (createErrorFromExitCode exitCode fullArchivePath stderrBuffer)
    end.

(** [extractSingle]. *)
Definition extractSingle (archivePath entryPath destPath : string)
  : M ArchiveOpResult :=
  decompress archivePath destPath (Some [entryPath]).

(** The base names of the source files that cannot be accessed. *)
Definition missingFilesOf (resolvedSourceFiles : list string) : list string :=
  map (path_basename env)
      (filter (fun file => negb (fs_access env file)) resolvedSourceFiles).

(** The common check of [compress] and [update] on their source files. *)
Definition requireSources (resolvedSourceFiles : list string) : M unit :=
  let missingFiles := missingFilesOf resolvedSourceFiles in
  if (0 <? List.length missingFiles)%nat then
    throw (newArchiveError
             ("Source files not found: " ++ Posix.join ", " missingFiles)
             FILE_NOT_FOUND [("missingFiles", DStrs missingFiles)])
  else ret tt.

(** [sourceDesc]; with no source file at all, [path.basename(undefined)]
    throws inside the close handler. *)
Definition sourceDesc (sourceFiles : list string) : M string :=
  if (1 <? List.length sourceFiles)%nat then
    ret (Js.natToString (List.length sourceFiles) ++ " files")
  else
    match sourceFiles with
    | first :: _ => ret ("'" ++ path_basename env first ++ "'")
    | [] => uncaught "TypeError: path.basename(undefined)"
    end.

(** [compress]. *)
Definition compress (sourceFiles : list string) (archivePath : string)
    (level : CompressionLevel) : M ArchiveOpResult :=
  modify (setLastMessage EmptyString) ;;
  requireIdle ;;
  let fullArchivePath := path_resolve env archivePath in
  let resolvedSourceFiles := map (path_resolve env) sourceFiles in
  let archiveFilename := path_basename env fullArchivePath in
  let ext := toLowerCase (path_extname env fullArchivePath) in
  if negb (ext =? ".zip")%string then
    throw (UnsupportedFormatError fullArchivePath
             (if Js.truthy ext then ext else "(none)"))
  else
    requireSources resolvedSourceFiles ;;
    ensureDirectoryExists (path_dirname env fullArchivePath) ;;
    begin COMPRESS ("Compressing to '" ++ archiveFilename ++ "'") ;;
    let args : list string :=
      (["a"; "-tzip"; ("-mx" ++ Js.natToString (CompressionLevel_value level))%string;
        "-bsp1"; "-bso0"; fullArchivePath] ++ resolvedSourceFiles)%list in
    p <- spawnProcess args ;;
    modify (setProcess (Some p)) ;;
    match child env args with
    | RunError errorMessage =>
        e <- createSpawnError errorMessage ;; throw e
    | RunClose code _ stderrBuffer elapsedMs =>
        elapse elapsedMs ;;
        let exitCode := exitCodeOf code in
        if exitCode =? 0 then
          let '(mtime, archiveSize) := fs_stat env fullArchivePath in
          let archiveInfo :=
            mkFileInfo mtime (JNum archiveSize) None archiveFilename None None in
          desc <- sourceDesc sourceFiles ;;
          createSuccessResult
            ("Compressed " ++ desc ++ " to '" ++ archiveFilename ++ "'.")
            [archiveInfo] (path_dirname env fullArchivePath) exitCode
        else
          cleanup ;;
          throw (createErrorFromExitCode exitCode fullArchivePath stderrBuffer)
    end.

(** [update]. *)
Definition update (archivePath : string) (sourceFiles : list string)
  : M ArchiveOpResult :=
  modify (setLastMessage EmptyString) ;;
  requireIdle ;;
  let fullArchivePath := path_resolve env archivePath in
  let resolvedSourceFiles := map (path_resolve env) sourceFiles in
  let archiveFilename := path_basename env fullArchivePath in
  verifyArchive fullArchivePath ;;
  requireSources resolvedSourceFiles ;;
  begin UPDATE ("Updating '" ++ archiveFilename ++ "'") ;;
  let args : list string :=
    (["u"; "-tzip"; "-bsp1"; "-bso0"; fullArchivePath] ++ resolvedSourceFiles)%list in
  p <- spawnProcess args ;;
  modify (setProcess (Some p)) ;;
  match child env args with
  | RunError errorMessage =>
      e <- createSpawnError errorMessage ;; throw e
  | RunClose code _ stderrBuffer elapsedMs =>
      elapse elapsedMs ;;
      let exitCode := exitCodeOf code in
      if exitCode =? 0 then
        desc <- sourceDesc sourceFiles ;;
        createSuccessResult
          ("Updated '" ++ archiveFilename ++ "' with " ++ desc ++ ".")
          [] (path_dirname env fullArchivePath) exitCode
      else
        cleanup ;;
        throw (createErrorFromExitCode exitCode fullArchivePath stderrBuffer)
  end.

End WithEnv.

(** The public operations, as a caller names them. *)
Inductive Call : Type :=
| CallList (archivePath : string)
| CallDecompress (archivePath targetPath : string) (fileList : option (list string))
| CallCompress (sourceFiles : list string) (archivePath : string)
               (level : CompressionLevel)
| CallExtractSingle (archivePath entryPath destPath : string)
| CallUpdate (archivePath : string) (sourceFiles : list string).

Definition perform (env : Env) (c : Call) : M ArchiveOpResult :=
  match c with
  | CallList a => listEntries env a
  | CallDecompress a t l => decompress env a t l
  | CallCompress s a l => compress env s a l
  | CallExtractSingle a e d => extractSingle env a e d
  | CallUpdate a s => update env a s
  end.

(** The kind of operation a call executes. *)
Definition kindOf (c : Call) : ArchiveOpType :=
  match c with
  | CallList _ => LIST
  | CallDecompress _ _ _ => DECOMPRESS
  | CallCompress _ _ _ => COMPRESS
  | CallExtractSingle _ _ _ => EXTRACT_SINGLE
  | CallUpdate _ _ => UPDATE
  end.

(** Whether an extraction process was spawned: an argument vector that
    begins with the extract command [x]. *)
Definition isExtraction (e : Effect) : bool :=
  match e with
  | Spawned _ (cmd :: _) => (cmd =? "x")%string
  | _ => false
  end.

End ArchiveOps.

(* ================================================================== *)
(** ** core/archiveService.ts *)
(* ================================================================== *)

Module ArchiveService.
Import Types.

(** The [Error] objects a job's future rejects with. *)
Inductive JsError : Type :=
| PlainError (message : string)
| ArchiveErr (e : Errors.ArchiveError).

(** The state of the promise behind a job handle; [resolve] and [reject]
    act on it, and only the first of them has an effect. *)
Inductive PromiseState : Type :=
| Pending
| Fulfilled (result : ArchiveOpResult)
| Rejected (error : JsError).

(** [QueuedJob].  The job id is the number of the submission, standing for
    the fresh identifier drawn by [randomUUID]; [resolve] and [reject] are
    the entry of the job's id in the promise store; [worker] refers to an
    [ArchiveOps] instance by the id of the job it serves. *)
Record QueuedJob : Type := mkJob {
  id : nat;
  status : ProcessStatus.t;
  operation : ArchiveOps.Call;
  worker : option nat
}.

(** The service instance ([config], [queue], [activeJobs]) together with
    what lives outside of it: the promises handed to callers, the operations
    that were invoked and have not settled yet ([inflight]), the log of
    [job.operation()] invocations (oldest first) and of [worker.cancel()]
    calls (newest first), and the next fresh job id.  The [queue] is the [Map] in its
    iteration order, which is the order of insertion. *)
Record t : Type := mkService {
  config : ArchiveServiceConfig;
  queue : list (nat * QueuedJob);
  activeJobs : Z;
  promises : list (nat * PromiseState);
  inflight : list nat;
  invoked : list nat;
  workerCancels : list nat;
  nextId : nat
}.

(** [new ArchiveService(config)]. *)
Definition create (config : ArchiveServiceConfig) : t :=
  mkService config [] 0 [] [] [] [] 0.

(** [Map.prototype.get]. *)
Fixpoint Map_get (q : list (nat * QueuedJob)) (jobId : nat) : option QueuedJob :=
  match q with
  | [] => None
  | (k, job) :: rest => if (k =? jobId)%nat then Some job else Map_get rest jobId
  end.

(** [Map.prototype.set]: a present key keeps its place, a new one goes last. *)
Fixpoint Map_set (q : list (nat * QueuedJob)) (jobId : nat) (job : QueuedJob)
  : list (nat * QueuedJob) :=
  match q with
  | [] => [(jobId, job)]
  | (k, j) :: rest =>
      if (k =? jobId)%nat then (k, job) :: rest
      else (k, j) :: Map_set rest jobId job
  end.

(** [Map.prototype.delete]. *)
Definition Map_delete (q : list (nat * QueuedJob)) (jobId : nat)
  : list (nat * QueuedJob) :=
  filter (fun kj => negb (fst kj =? jobId)%nat) q.

Definition setStatus (s : ProcessStatus.t) (job : QueuedJob) : QueuedJob :=
  mkJob (id job) s (operation job) (worker job).

(** [job.status = s] for the tracked job with this id. *)
Definition setStatusOf (jobId : nat) (s : ProcessStatus.t)
    (q : list (nat * QueuedJob)) : list (nat * QueuedJob) :=
  map (fun kj => if (fst kj =? jobId)%nat then (fst kj, setStatus s (snd kj)) else kj) q.

(** [resolve] or [reject] of the promise of a job: no effect once settled. *)
Definition settle (jobId : nat) (v : PromiseState)
    (ps : list (nat * PromiseState)) : list (nat * PromiseState) :=
  map (fun kp =>
         if (fst kp =? jobId)%nat then
           match snd kp with
           | Pending => (fst kp, v)
           | _ => kp
           end
         else kp) ps.

Fixpoint promiseOf (ps : list (nat * PromiseState)) (jobId : nat)
  : option PromiseState :=
  match ps with
  | [] => None
  | (k, p) :: rest => if (k =? jobId)%nat then Some p else promiseOf rest jobId
  end.

(** The loop of [processQueue] over the jobs in iteration order: a job that
    is not QUEUED is passed over; a QUEUED one is started ([activeJobs] is
    incremented, its status becomes RUNNING, its operation is invoked) and
    the loop returns as soon as the ceiling is reached.  The result is the
    counter, the jobs and the ids whose operation was invoked, in order. *)
Fixpoint processLoop (maxConcurrent activeJobs : Z) (q : list (nat * QueuedJob))
  : Z * list (nat * QueuedJob) * list nat :=
  match q with
  | [] => (activeJobs, [], [])
  | (jobId, job) :: rest =>
      if negb (ProcessStatus.eqb (status job) ProcessStatus.QUEUED) then
        let '(a, rest', started) := processLoop maxConcurrent activeJobs rest in
        (a, (jobId, job) :: rest', started)
      else
        let activeJobs := activeJobs + 1 in
        let job := setStatus ProcessStatus.RUNNING job in
        if activeJobs >=? maxConcurrent then
          (activeJobs, (jobId, job) :: rest, [jobId])
        else
          let '(a, rest', started) := processLoop maxConcurrent activeJobs rest in
          (a, (jobId, job) :: rest', jobId :: started)
  end.

(** [processQueue]. *)
Definition processQueue (s : t) : t :=
  if activeJobs s >=? maxConcurrent (config s) then s
  else
    let '(a, q, started) :=
      processLoop (maxConcurrent (config s)) (activeJobs s) (queue s) in
    mkService (config s) q a (promises s)
              (inflight s ++ started) (invoked s ++ started)
              (workerCancels s) (nextId s).

(** [cleanupJob]. *)
Definition cleanupJob (s : t) (jobId : nat) : t :=
  processQueue
    (mkService (config s) (Map_delete (queue s) jobId) (activeJobs s - 1)
               (promises s) (inflight s) (invoked s) (workerCancels s) (nextId s)).

(** What a submit method hands back, without the closures: the job id and
    the status read when the handle is built. *)
Record JobHandle : Type := mkHandle {
  jobId : nat;
  handleStatus : ProcessStatus.t
}.

(** [submitJob]. *)
Definition submitJob (s : t) (operation : ArchiveOps.Call) : t * JobHandle :=
  let jobId := nextId s in
  let job := mkJob jobId ProcessStatus.QUEUED operation None in
  let s1 :=
    mkService (config s) (Map_set (queue s) jobId job) (activeJobs s)
              (promises s ++ [(jobId, Pending)]) (inflight s) (invoked s)
              (workerCancels s) (S (nextId s)) in
  let s2 := processQueue s1 in
  (s2, mkHandle jobId
         (match Map_get (queue s2) jobId with
          | Some j => status j
          | None => ProcessStatus.QUEUED
          end)).

Definition submitDecompress (s : t) (archivePath destPath : string)
    (fileList : option (list string)) : t * JobHandle :=
  submitJob s (ArchiveOps.CallDecompress archivePath destPath fileList).

Definition submitCompress (s : t) (sourceFiles : list string)
    (archivePath : string) (level : option CompressionLevel) : t * JobHandle :=
  submitJob s (ArchiveOps.CallCompress sourceFiles archivePath
                 (match level with Some l => l | None => FAST end)).

Definition submitList (s : t) (archivePath : string) : t * JobHandle :=
  submitJob s (ArchiveOps.CallList archivePath).

Definition submitExtractSingle (s : t) (archivePath entryPath destPath : string)
  : t * JobHandle :=
  submitJob s (ArchiveOps.CallExtractSingle archivePath entryPath destPath).

Definition submitUpdate (s : t) (archivePath : string) (sourceFiles : list string)
  : t * JobHandle :=
  submitJob s (ArchiveOps.CallUpdate archivePath sourceFiles).

(** The branch [job.worker && job.status === RUNNING]. *)
Definition hasRunningWorker (job : QueuedJob) : option nat :=
  match worker job with
  | Some w =>
      if ProcessStatus.eqb (status job) ProcessStatus.RUNNING then Some w else None
  | None => None
  end.

(** [cancelJob]. *)
Definition cancelJob (s : t) (jobId : nat) : t * bool :=
  match Map_get (queue s) jobId with
  | None => (s, false)
  | Some job =>
      let '(cancels, active) :=
        match hasRunningWorker job with
        | Some w => (w :: workerCancels s, activeJobs s - 1)
        | None => (workerCancels s, activeJobs s)
        end in
      let q := setStatusOf jobId ProcessStatus.ERROR (queue s) in
      let ps := settle jobId (Rejected (PlainError "Job cancelled")) (promises s) in
      let q := Map_delete q jobId in
      (processQueue
         (mkService (config s) q active ps (inflight s) (invoked s) cancels
                    (nextId s)),
       true)
  end.

(** The loop of [cancelAll] over the tracked jobs. *)
Fixpoint cancelEach (q : list (nat * QueuedJob))
    (ps : list (nat * PromiseState)) (cancels : list nat)
  : list (nat * PromiseState) * list nat :=
  match q with
  | [] => (ps, cancels)
  | (jobId, job) :: rest =>
      let cancels :=
        match hasRunningWorker job with
        | Some w => w :: cancels
        | None => cancels
        end in
      cancelEach rest
        (settle jobId (Rejected (PlainError "All jobs cancelled")) ps) cancels
  end.

(** [cancelAll]. *)
Definition cancelAll (s : t) : t :=
  let '(ps, cancels) := cancelEach (queue s) (promises s) (workerCancels s) in
  mkService (config s) [] 0 ps (inflight s) (invoked s) cancels (nextId s).

(** [getStatus]. *)
Definition isQueued (kj : nat * QueuedJob) : bool :=
  ProcessStatus.eqb (status (snd kj)) ProcessStatus.QUEUED.

Definition isRunning (kj : nat * QueuedJob) : bool :=
  ProcessStatus.eqb (status (snd kj)) ProcessStatus.RUNNING.

Definition getStatus (s : t) : Z * nat * nat :=
  (activeJobs s, List.length (filter isQueued (queue s)), List.length (queue s)).

(** The number of tracked jobs in Running status. *)
Definition runningCount (s : t) : nat := List.length (filter isRunning (queue s)).

(** The handlers attached to the promise of [job.operation()]: on
    fulfilment the job becomes SUCCESS and its future resolves, on rejection
    it becomes ERROR and its future rejects; both end in [cleanupJob]. *)
Definition onSettled (s : t) (jobId : nat)
    (outcome : Completion JsError ArchiveOpResult) : t :=
  let '(st, v) :=
    match outcome with
    | Return result => (ProcessStatus.SUCCESS, Fulfilled result)
    | Throw error => (ProcessStatus.ERROR, Rejected error)
    end in
  cleanupJob
    (mkService (config s) (setStatusOf jobId st (queue s)) (activeJobs s)
               (settle jobId v (promises s))
               (filter (fun k => negb (k =? jobId)%nat) (inflight s))
               (invoked s) (workerCancels s) (nextId s))
    jobId.

(** What can happen to a service: the calls of its public API, and the
    settling of the promise of an operation it invoked. *)
Inductive Event : Type :=
| Submit (operation : ArchiveOps.Call)
| CancelJob (jobId : nat)
| CancelAll
| Settle (jobId : nat) (outcome : Completion JsError ArchiveOpResult).

(** One event; [None] when the event cannot happen: only an operation that
    was invoked and has not settled can settle. *)
Definition step (s : t) (e : Event) : option t :=
  match e with
  | Submit operation => Some (fst (submitJob s operation))
  | CancelJob jobId => Some (fst (cancelJob s jobId))
  | CancelAll => Some (cancelAll s)
  | Settle jobId outcome =>
      if existsb (Nat.eqb jobId) (inflight s)
      then Some (onSettled s jobId outcome)
      else None
  end.

Fixpoint run (s : t) (events : list Event) : option t :=
  match events with
  | [] => Some s
  | e :: rest =>
      match step s e with
      | Some s' => run s' rest
      | None => None
      end
  end.

(** The states a service created with [config] can be in. *)
Inductive reachable (config : ArchiveServiceConfig) : t -> Prop :=
| reachable_create : reachable config (create config)
| reachable_step (s s' : t) (e : Event) :
    reachable config s -> step s e = Some s' -> reachable config s'.

End ArchiveService.

(* ================================================================== *)
(** ** [path.resolve] on a POSIX platform *)
(* ================================================================== *)

Module PosixResolve.

(** The loop of [path.posix.resolve] over its arguments from the last to the
    first and then the working directory: an empty argument is skipped, a
    non-empty one is put in front of the path built so far with a separator,
    and the loop stops at the first absolute one.  The result is the path
    built and whether it is absolute. *)
Fixpoint resolveLoop (reversedArgs : list string) (cwd resolvedPath : string)
  : string * bool :=
  match reversedArgs with
  | [] =>
      if (cwd =? EmptyString)%string then (resolvedPath, false)
      else (cwd ++ "/" ++ resolvedPath, Posix.isAbsolute cwd)
  | p :: rest =>
      if (p =? EmptyString)%string then resolveLoop rest cwd resolvedPath
      else if Posix.isAbsolute p then (p ++ "/" ++ resolvedPath, true)
      else resolveLoop rest cwd (p ++ "/" ++ resolvedPath)
  end.

(** [path.posix.resolve(...args)] in the working directory [cwd]. *)
Definition resolve (cwd : string) (args : list string) : string :=
  let '(resolvedPath, resolvedAbsolute) := resolveLoop (rev args) cwd EmptyString in
  let normalized := Posix.normalizeString resolvedPath (negb resolvedAbsolute) in
  if resolvedAbsolute then "/" ++ normalized
  else if (normalized =? EmptyString)%string then "." else normalized.

End PosixResolve.

(* ================================================================== *)
(** ** utils/pathValidation.ts: [resolveExtractPath] *)
(* ================================================================== *)

Module PathValidationExtract.
Import Errors Types PathValidation.

Section WithResolve.
Variable path : PathModule.
(** [path.resolve], applied to the list of its arguments. *)
Variable resolve : list string -> string.

(** [resolveExtractPath]: the full output path, or [PathTraversalError]. *)
Definition resolveExtractPath (basePath relativePath archivePath : string)
  : Completion ArchiveError string :=
  match validateEntryPath path relativePath archivePath with
  | Throw e => Throw e
  | Return _ =>
      let fullPath := resolve [basePath; relativePath] in
      let normalizedBase := resolve [basePath] in
      if negb (Js.startsWith fullPath normalizedBase) then
        Throw (PathTraversalError relativePath archivePath)
      else Return fullPath
  end.

End WithResolve.
End PathValidationExtract.

(* ================================================================== *)
(** ** utils/sltParser.ts: the streaming parser *)
(* ================================================================== *)

Module SltStream.
Import Types SltParser.

(** The key and the value of a line, as the parsing loop of both parsers
    splits it at the first [" = "]; [None] when the line has no separator. *)
Definition keyValueOf (line : string) : option (string * string) :=
  let trimmed := Js.trim line in
  match Js.indexOf trimmed " = " with
  | None => None
  | Some separatorIndex =>
      Some (Js.substringTo separatorIndex trimmed,
            Js.substringFrom (separatorIndex + 3) trimmed)
  end.

(** [parseSltOutput], on the lines that the [readline] interface yields for
    the stream: the same loop as [parseSltString], and the same flush of the
    last entry. *)
Definition parseSltOutput (now : JsDate) (dateParse : string -> option JsDate)
    (lines : list string) : list FileInfo :=
  let '(files, currentEntry) :=
    fold_left (parseLine now dateParse) lines ([], emptyEntry) in
  flush now dateParse files currentEntry.

(** A line that the loop takes as the end of a block. *)
Definition isBlank (line : string) : bool := (Js.trim line =? EmptyString)%string.

(** The lines are none, or begin with a blank line. *)
Definition startsBlank (lines : list string) : bool :=
  match lines with
  | [] => true
  | line :: _ => isBlank line
  end.

(** The lines are none, or end with a blank line. *)
Definition endsBlank (lines : list string) : bool := startsBlank (rev lines).

(** No line carries this key. *)
Definition lacksKey (key : string) (lines : list string) : bool :=
  forallb (fun line => match keyValueOf line with
                       | Some (k, _) => negb (k =? key)%string
                       | None => true
                       end) lines.

End SltStream.

(* ================================================================== *)
(** ** Inputs used in examples *)
(* ================================================================== *)

Module Fixtures.
Import Types.

Fixpoint spaces (n : nat) : string :=
  match n with
  | O => EmptyString
  | S k => String (ascii_of_nat 32) (spaces k)
  end.

(** One visible character followed by two hundred spaces. *)
Definition paddedStderr : string := "x" ++ spaces 200.

Definition newline : string := str1 SltParser.LF.

(** A listing whose only block carries a signed size. *)
Definition negativeSizeListing : string :=
  "Path = a.txt" ++ newline ++ "Size = -5".

(** A listing whose second block carries no size. *)
Definition sizelessListing : string :=
  "Path = a.txt" ++ newline ++ "Size = 12" ++ newline ++ newline
  ++ "Path = b.txt" ++ newline.

(** A run of [n] digits 9. *)
Fixpoint nines (n : nat) : string :=
  match n with
  | O => EmptyString
  | S k => String (ascii_of_nat 57) (nines k)
  end.

(** A listing whose size has 310 digits. *)
Definition hugeSizeListing : string :=
  "Path = a.txt" ++ newline ++ "Size = " ++ nines 310.

(** A listing with a block that carries no path. *)
Definition pathlessListing : string :=
  "Path = a.txt" ++ newline ++ newline ++ "Size = 3".

(** A listing of two plain files. *)
Definition plainListing : string :=
  "Path = a.txt" ++ newline ++ "Size = 12" ++ newline ++ newline
  ++ "Path = sub/b.txt" ++ newline ++ "Size = 7" ++ newline.

(** A listing with one encrypted file. *)
Definition encryptedListing : string :=
  "Path = secret.txt" ++ newline ++ "Size = 3" ++ newline
  ++ "Encrypted = +" ++ newline.

(** A listing with an entry that climbs out of the target directory. *)
Definition traversalListing : string :=
  "Path = ok.txt" ++ newline ++ "Size = 1" ++ newline ++ newline
  ++ "Path = ../../etc/passwd" ++ newline ++ "Size = 2" ++ newline.

(** The extension of a path whose last four characters are [.zip]. *)
Fixpoint extnameZip (p : string) : string :=
  match p with
  | EmptyString => EmptyString
  | String _ t => if (p =? ".zip")%string then p else extnameZip t
  end.

(** An environment on a POSIX platform in which every path is already
    absolute, every file exists, and the tool lists [listing] and extracts,
    compresses and updates without error. *)
Definition envListing (listing : string) : ArchiveOps.Env :=
  ArchiveOps.mkEnv Posix.path
    (fun p => p) (fun p => p) (fun _ => "/data") extnameZip
    (fun _ => true) (fun _ => None) (fun _ => (0, 100))
    (fun args =>
       match args with
       | cmd :: _ =>
           if (cmd =? "l")%string then ArchiveOps.RunClose (Some 0) listing EmptyString 5
           else ArchiveOps.RunClose (Some 0) EmptyString EmptyString 20
       | [] => ArchiveOps.RunError "spawn ENOENT"
       end)
    (fun _ => None).

(** The same environment, in which also the tool run without arguments
    closes, with exit code 2. *)
Definition envClosing (listing : string) : ArchiveOps.Env :=
  let e := envListing listing in
  ArchiveOps.mkEnv (ArchiveOps.pathModule e)
    (ArchiveOps.path_resolve e) (ArchiveOps.path_basename e)
    (ArchiveOps.path_dirname e) (ArchiveOps.path_extname e)
    (ArchiveOps.fs_access e) (ArchiveOps.fs_mkdir e) (ArchiveOps.fs_stat e)
    (fun args =>
       match ArchiveOps.child e args with
       | ArchiveOps.RunError _ => ArchiveOps.RunClose (Some 2) EmptyString EmptyString 0
       | run => run
       end)
    (ArchiveOps.dateParse e).

(** An environment on a POSIX platform with working directory [/work], in
    which the files [gone] cannot be accessed and every other file can. *)
Definition envWithout (gone : list string) (listing : string) : ArchiveOps.Env :=
  let e := envListing listing in
  ArchiveOps.mkEnv Posix.path
    (fun p => PosixResolve.resolve "/work" [p]) Posix.basename
    (ArchiveOps.path_dirname e) (ArchiveOps.path_extname e)
    (fun p => negb (existsb (String.eqb p) gone))
    (ArchiveOps.fs_mkdir e) (ArchiveOps.fs_stat e)
    (ArchiveOps.child e) (ArchiveOps.dateParse e).

(** A fresh worker, with no effect yet, at time 1000. *)
Definition freshWorker : ArchiveOps.St :=
  ArchiveOps.mkSt (ArchiveOps.create (mkArchiveOpsConfig "/usr/bin/7za")) [] 1000.

Definition oneSlot : ArchiveServiceConfig := mkArchiveServiceConfig "/usr/bin/7za" 1.

Definition listA : ArchiveOps.Call := ArchiveOps.CallList "/data/a.zip".

Definition someResult : ArchiveOpResult :=
  mkArchiveOpResult true 0 UNDEFINED "Listed 0 entries in '/data/a.zip'." []
                    (Some "/data/a.zip") (Some 0).

End Fixtures.

(* ================================================================== *)
(** ** The words of the specification *)
(* ================================================================== *)

Module Stated.
Import Errors Types.

(** The exit-code table as the specification words it: 1 is a warning, 2 is
    fatal, 7 a command-line error, 8 out of memory, 255 a user abort and
    anything else a generic fatal error. *)
Definition exitCodeTable (exitCode : Z) : ArchiveErrorCode :=
  if exitCode =? 1 then WARNING
  else if exitCode =? 2 then FATAL_ERROR
  else if exitCode =? 7 then COMMAND_LINE_ERROR
  else if exitCode =? 8 then OUT_OF_MEMORY
  else if exitCode =? 255 then USER_ABORTED
  else FATAL_ERROR.

End Stated.

(* ================================================================== *)
(** ** Invariants used in the proofs *)
(* ================================================================== *)

Module Invariants.
Import Types.

(** No segment of the list is a parent-directory segment. *)
Definition dotdotFree (l : list string) : Prop := Forall (fun s => s <> "..") l.

(** [path.normalize] keeps an absolute path absolute, as Node's does on
    POSIX and on Windows. *)
Definition keepsAbsolute (path : PathModule) : Prop :=
  forall p, isAbsolute path p = true -> isAbsolute path (normalize path p) = true.

(** A normalised path still shows a parent-directory segment: it begins
    with [..], or holds [..] before a separator of either style. *)
Definition parentSegmentLeft (path : PathModule) (normalized : string) : bool :=
  Js.startsWith normalized ".."
  || Js.includes normalized (".." ++ sep path)
  || Js.includes normalized "../"
  || Js.includes normalized (".." ++ str1 backslash).

(** The entry paths that are refused, on any platform: a path that holds a
    NUL; a path whose normalised form is absolute, so every absolute path
    where normalisation keeps it absolute; a path whose normalised form
    still shows a parent-directory segment, so, on POSIX, every path whose
    segments climb above the directory it starts from. *)
Definition refusedPath (path : PathModule) (entryPath : string) : Prop :=
  Js.includes entryPath (str1 NUL) = true
  \/ isAbsolute path (normalize path entryPath) = true
  \/ (isAbsolute path entryPath = true /\ keepsAbsolute path)
  \/ parentSegmentLeft path (normalize path entryPath) = true
  \/ (path = Posix.path /\ Posix.climbsAboveRoot entryPath = true).

(** The size read so far for the entry under construction satisfies [P]. *)
Definition entryOk (P : JsNumber -> Prop) (e : SltParser.SltFileEntry) : Prop :=
  match SltParser.size e with
  | Some n => P n
  | None => True
  end.

(** If the line is a [Size] line, its parsed value satisfies [P]. *)
Definition lineOk (P : JsNumber -> Prop) (line : string) : Prop :=
  forall v, SltParser.sizeValueOf line = Some v -> P (SltParser.parseInt v).

(** Every result returned by this computation has kind UNDEFINED. *)
Definition returnsUndefined (c : ArchiveOps.M ArchiveOpResult) : Prop :=
  forall st st' r, c st = (st', Return r) -> type r = UNDEFINED.

(** Every result returned by this computation satisfies [P], together with
    the state of the worker at that point. *)
Definition returnsWith (P : ArchiveOps.St -> ArchiveOpResult -> Prop)
    (c : ArchiveOps.M ArchiveOpResult) : Prop :=
  forall st st' r, c st = (st', Return r) -> P st' r.

(** A result that reports a success, returned by a worker that is idle
    again and shows the message of the result. *)
Definition settledSuccess (st' : ArchiveOps.St) (r : ArchiveOpResult) : Prop :=
  success r = true /\ exitCode r = Some 0
  /\ ArchiveOps.activeOp (ArchiveOps.self st') = UNDEFINED
  /\ ArchiveOps.status (ArchiveOps.self st') = ProcessStatus.SUCCESS
  /\ ArchiveOps.lastMessage (ArchiveOps.self st') = message r.

(** A result whose files are a listing that passed the checks made before an
    extraction: not empty, no encrypted entry, every entry path safe. *)
Definition checkedListing (path : PathModule) (r : ArchiveOpResult) : Prop :=
  files r <> []
  /\ SltParser.hasEncryptedFiles (files r) = false
  /\ Forall (fun f => PathValidation.isSafePath path (filename f) = true) (files r).

(** Started from a state that satisfies [P], the computation ends with the
    worker idle, unless an event handler threw and the promise never
    settles. *)
Definition settlesIdle {A : Type} (P : ArchiveOps.St -> Prop) (c : ArchiveOps.M A)
  : Prop :=
  forall st, P st ->
    match snd (c st) with
    | Throw (ArchiveOps.Uncaught _) => True
    | _ => ArchiveOps.activeOp (ArchiveOps.self (fst (c st))) = UNDEFINED
    end.

(** The computation does not change the operation the worker holds. *)
Definition keepsActiveOp {A : Type} (c : ArchiveOps.M A) : Prop :=
  forall st,
    ArchiveOps.activeOp (ArchiveOps.self (fst (c st)))
    = ArchiveOps.activeOp (ArchiveOps.self st).

(** The computation returns from every state. *)
Definition alwaysReturns {A : Type} (c : ArchiveOps.M A) : Prop :=
  forall st, exists a, snd (c st) = Return a.

(** The worker holds no operation. *)
Definition idle (st : ArchiveOps.St) : Prop :=
  ArchiveOps.activeOp (ArchiveOps.self st) = UNDEFINED.

(** The archive a call names. *)
Definition archivePathOf (call : ArchiveOps.Call) : string :=
  match call with
  | ArchiveOps.CallList archivePath => archivePath
  | ArchiveOps.CallDecompress archivePath _ _ => archivePath
  | ArchiveOps.CallCompress _ archivePath _ => archivePath
  | ArchiveOps.CallExtractSingle archivePath _ _ => archivePath
  | ArchiveOps.CallUpdate archivePath _ => archivePath
  end.

(** Every process that the platform runs reaches its close. *)
Definition everyProcessCloses (env : ArchiveOps.Env) : Prop :=
  forall args, exists code stdout stderr elapsedMs,
    ArchiveOps.child env args = ArchiveOps.RunClose code stdout stderr elapsedMs.

(** The queue is in submission order with ids below the next fresh one; the
    log of started jobs is in increasing order, below the next fresh id; and
    every job still QUEUED comes after every job that was started. *)
Definition fifoInv (q : list (nat * ArchiveService.QueuedJob)) (log : list nat)
    (next : nat) : Prop :=
  StronglySorted lt (map fst q)
  /\ Forall (fun k => (k < next)%nat) (map fst q)
  /\ StronglySorted lt log
  /\ Forall (fun i => (i < next)%nat) log
  /\ (forall k job, In (k, job) q -> ArchiveService.isQueued (k, job) = true ->
                    forall i, In i log -> (i < k)%nat).

(** No tracked job refers to a worker. *)
Definition noWorker (q : list (nat * ArchiveService.QueuedJob)) : Prop :=
  Forall (fun kj => ArchiveService.worker (snd kj) = None) q.

(** The running count is the number of operations in flight; these are
    distinct, were all logged as started, and include every tracked job in
    Running status; and the count is within the ceiling. *)
Definition countInv (s : ArchiveService.t) : Prop :=
  ArchiveService.activeJobs s = Z.of_nat (List.length (ArchiveService.inflight s))
  /\ NoDup (ArchiveService.inflight s)
  /\ (forall i, In i (ArchiveService.inflight s) -> In i (ArchiveService.invoked s))
  /\ (forall k job, In (k, job) (ArchiveService.queue s) ->
                    ArchiveService.isRunning (k, job) = true ->
                    In k (ArchiveService.inflight s))
  /\ ArchiveService.activeJobs s
     <= Z.max 0 (maxConcurrent (ArchiveService.config s)).

(** Every tracked job is QUEUED or RUNNING and its future is pending; every
    pending future belongs to a tracked job; and every future belongs to an
    id that was drawn. *)
Definition trackInv (s : ArchiveService.t) : Prop :=
  (forall k job, In (k, job) (ArchiveService.queue s) ->
     (ArchiveService.status job = ProcessStatus.QUEUED
      \/ ArchiveService.status job = ProcessStatus.RUNNING)
     /\ ArchiveService.promiseOf (ArchiveService.promises s) k
        = Some ArchiveService.Pending)
  /\ (forall k, ArchiveService.promiseOf (ArchiveService.promises s) k
                = Some ArchiveService.Pending ->
                In k (map fst (ArchiveService.queue s)))
  /\ (forall k, In k (map fst (ArchiveService.promises s)) ->
                (k < ArchiveService.nextId s)%nat).

(** The job with this id is not tracked, was never started, and its id was
    drawn. *)
Definition retired (jobId : nat) (s : ArchiveService.t) : Prop :=
  ~ In jobId (map fst (ArchiveService.queue s))
  /\ ~ In jobId (ArchiveService.invoked s)
  /\ (jobId < ArchiveService.nextId s)%nat.

(** The future a settled operation is forwarded to. *)
Definition forwarded (outcome : Completion ArchiveService.JsError ArchiveOpResult)
  : ArchiveService.PromiseState :=
  match outcome with
  | Return result => ArchiveService.Fulfilled result
  | Throw error => ArchiveService.Rejected error
  end.

(** The counter of active jobs has reached the ceiling, or no tracked job
    is QUEUED. *)
Definition saturated (s : ArchiveService.t) : Prop :=
  (maxConcurrent (ArchiveService.config s) <= ArchiveService.activeJobs s)%Z
  \/ forall kj, In kj (ArchiveService.queue s) -> ArchiveService.isQueued kj = false.

(** The sequence of events has no [cancelAll]. *)
Definition withoutCancelAll (events : list ArchiveService.Event) : bool :=
  forallb (fun e => match e with
                    | ArchiveService.CancelAll => false
                    | _ => true
                    end) events.

End Invariants.

(* ================================================================== *)
(** ** Properties of the error classifier *)
(* ================================================================== *)

Module ErrorsSpec.
Import Errors Stated.

Lemma firstMatch_find (table : list StderrPattern) (stderr : string) :
  firstMatch table stderr =
  option_map (fun p => (code p, message p))
             (find (fun p => patternTest p stderr) table).
Proof.
  induction table as [|p rest IH]; simpl.
  - reflexivity.
  - destruct (patternTest p stderr); [reflexivity | exact IH].
Qed.

Lemma firstMatch_none (table : list StderrPattern) (stderr : string) :
  existsb (fun p => patternTest p stderr) table = false ->
  firstMatch table stderr = None.
Proof.
  induction table as [|p rest IH]; simpl; intros H.
  - reflexivity.
  - apply orb_false_iff in H as [Hp Hrest].
    rewrite Hp. now apply IH.
Qed.

Lemma exitCode_fallback (exitCode : Z) :
  match exitCodeToErrorCode exitCode with
  | Some c => c
  | None => FATAL_ERROR
  end = exitCodeTable exitCode.
Proof.
  unfold exitCodeToErrorCode, exitCodeTable.
  destruct (exitCode =? 0) eqn:E0.
  - apply Z.eqb_eq in E0; subst; reflexivity.
  - repeat match goal with
           | |- context [?a =? ?b] => destruct (a =? b)
           end; reflexivity.
Qed.

(** C8 (as amended).  The classifier tests stderr against the pattern table
    first: when some pattern matches, the error carries the code and message
    of the first matching pattern, whatever the exit code.  Otherwise the
    code is that of the exit-code table (1 warning, 2 fatal, 7 command line,
    8 out of memory, 255 user abort, anything else fatal), and the default
    message of that code is extended by the trimmed stderr exactly when the
    trimmed stderr is non-empty and shorter than 200 characters. *)
Theorem createErrorFromExitCode_precedence
    (exitCode : Z) (archivePath stderr : string) :
  let e := createErrorFromExitCode exitCode archivePath stderr in
  match find (fun p => patternTest p stderr) STDERR_PATTERNS with
  | Some p => err_code e = code p /\ err_message e = message p
  | None =>
      err_code e = exitCodeTable exitCode /\
      err_message e =
        (if negb (Js.trim stderr =? EmptyString)%string
            && (String.length (Js.trim stderr) <? 200)%nat
         then DEFAULT_MESSAGES (exitCodeTable exitCode) ++ ": " ++ Js.trim stderr
         else DEFAULT_MESSAGES (exitCodeTable exitCode))
  end.
Proof.
  intros e. subst e. unfold createErrorFromExitCode, parseStderrForError.
  rewrite firstMatch_find.
  destruct (find (fun p => patternTest p stderr) STDERR_PATTERNS) as [p|]; simpl.
  - split; reflexivity.
  - rewrite exitCode_fallback. split; [reflexivity|].
    unfold Js.truthy.
    replace (Z.of_nat (String.length (Js.trim stderr)) <? 200)
      with (String.length (Js.trim stderr) <? 200)%nat; [reflexivity|].
    destruct (Nat.ltb_spec (String.length (Js.trim stderr)) 200);
      symmetry; [apply Z.ltb_lt | apply Z.ltb_ge]; lia.
Qed.

(** C8 as stated fails: with no pattern matching, the message is extended by
    a stderr excerpt although stderr itself is not shorter than the bound,
    because the bound is applied to the trimmed text. *)
Lemma excerpt_bound_ignores_padding :
  ~ (forall (exitCode : Z) (archivePath stderr : string),
       existsb (fun p => patternTest p stderr) STDERR_PATTERNS = false ->
       err_message (createErrorFromExitCode exitCode archivePath stderr)
         <> DEFAULT_MESSAGES (exitCodeTable exitCode) ->
       stderr <> EmptyString /\ (String.length stderr < 200)%nat).
Proof.
  intros H.
  specialize (H 2 "/data/a.zip" Fixtures.paddedStderr).
  assert (Hlen : String.length Fixtures.paddedStderr = 201%nat) by reflexivity.
  rewrite Hlen in H.
  destruct H as [_ H].
  - reflexivity.
  - vm_compute. discriminate.
  - lia.
Qed.

(** C10.  For exit code 0 and a stderr that matches no pattern of the table,
    [createErrorFromExitCode] returns an error whose code is FATAL_ERROR,
    although [exitCodeToErrorCode 0] is [null]. *)
Theorem createErrorFromExitCode_zero_is_fatal (archivePath stderr : string) :
  existsb (fun p => patternTest p stderr) STDERR_PATTERNS = false ->
  err_code (createErrorFromExitCode 0 archivePath stderr) = FATAL_ERROR
  /\ exitCodeToErrorCode 0 = None.
Proof.
  intros H. split; [|reflexivity].
  unfold createErrorFromExitCode, parseStderrForError.
  rewrite (firstMatch_none _ _ H). reflexivity.
Qed.

Lemma createErrorFromExitCode_zero_is_fatal_witness :
  existsb (fun p => patternTest p "some warning") STDERR_PATTERNS = false
  /\ err_code (createErrorFromExitCode 0 "/data/a.zip" "some warning") = FATAL_ERROR
  /\ exitCodeToErrorCode 0 = None.
Proof.
  split; [reflexivity|].
  apply (createErrorFromExitCode_zero_is_fatal "/data/a.zip" "some warning").
  reflexivity.
Defined.

End ErrorsSpec.

(* ================================================================== *)
(** ** Properties of the listing parser *)
(* ================================================================== *)

Module SltParserSpec.
Import Types SltParser SltStream Invariants.
Local Open Scope list_scope.

Lemma isDigit_bounds (c : ascii) :
  isDigit c = true -> (48 <= nat_of_ascii c <= 57)%nat.
Proof.
  unfold isDigit. intros H.
  apply andb_true_iff in H as [H1 H2].
  apply Nat.leb_le in H1. apply Nat.leb_le in H2. lia.
Qed.

Lemma digit_not_space (c : ascii) : isDigit c = true -> Js.isWhiteSpace c = false.
Proof.
  intros H. apply isDigit_bounds in H. unfold Js.isWhiteSpace.
  repeat (apply orb_false_iff; split); apply Nat.eqb_neq; lia.
Qed.

Lemma digit_not_sign (c : ascii) (n : nat) :
  isDigit c = true -> (n < 48)%nat -> Ascii.eqb c (ascii_of_nat n) = false.
Proof.
  intros H Hn. apply isDigit_bounds in H.
  apply Ascii.eqb_neq. intros ->.
  rewrite nat_ascii_embedding in H; lia.
Qed.

Lemma digitValue_bounds (c : ascii) : isDigit c = true -> 0 <= digitValue c <= 9.
Proof.
  intros H. apply isDigit_bounds in H. unfold digitValue. lia.
Qed.

(** The digits read denote a number below the power of ten of their count. *)
Lemma leadingDigits_bound (s : string) :
  forall a, 0 <= a ->
    exists n, leadingDigits s (Some a) = Some n
              /\ 0 <= n < (a + 1) * 10 ^ Z.of_nat (String.length s).
Proof.
  induction s as [|c t IH]; intros a Ha; cbn [leadingDigits String.length].
  - exists a. split; [reflexivity|]. cbn. lia.
  - assert (Hpow : 0 < 10 ^ Z.of_nat (String.length t)) by (apply Z.pow_pos_nonneg; lia).
    rewrite Nat2Z.inj_succ, Z.pow_succ_r by lia.
    destruct (isDigit c) eqn:Hc.
    + pose proof (digitValue_bounds c Hc) as Hd.
      destruct (IH (10 * a + digitValue c)) as [n [Hn Hb]]; [lia|].
      exists n. split; [exact Hn|]. nia.
    + exists a. split; [reflexivity|]. nia.
Qed.

Lemma roundToDouble_nonneg (n : Z) : 0 <= n -> 0 <= roundToDouble n.
Proof.
  intros Hn. unfold roundToDouble.
  destruct (n <? 2 ^ 53); [exact Hn|]. cbv zeta.
  apply Z.shiftl_nonneg.
  assert (Hq : 0 <= Z.shiftr n (Z.log2 n - 52)) by (apply Z.shiftr_nonneg; exact Hn).
  destruct (_ || _); lia.
Qed.

(** The Number value for a non-negative integer is a non-negative integer,
    or [Infinity]. *)
Lemma numberOf_nonneg (n : Z) :
  0 <= n ->
  JsNumber_nonneg (numberOf n) = true
  /\ (numberOf n = JInfinity false \/ exists m, numberOf n = JNum m /\ 0 <= m).
Proof.
  intros Hn. unfold numberOf.
  destruct (2 ^ 1024 - 2 ^ 970 <=? n).
  - split; [reflexivity | left; reflexivity].
  - pose proof (roundToDouble_nonneg n Hn) as Hr.
    split; [cbn; now apply Z.leb_le|]. right. eexists. split; [reflexivity | exact Hr].
Qed.

Lemma numberOf_finite (n : Z) :
  0 <= n < 10 ^ 308 -> exists m, numberOf n = JNum m /\ 0 <= m.
Proof.
  intros [Hn Hlt]. unfold numberOf.
  assert (Hrange : 10 ^ 308 < 2 ^ 1024 - 2 ^ 970) by (vm_compute; reflexivity).
  destruct (2 ^ 1024 - 2 ^ 970 <=? n) eqn:Hle.
  - apply Z.leb_le in Hle. lia.
  - eexists. split; [reflexivity | now apply roundToDouble_nonneg].
Qed.

(** A value that begins with a decimal digit parses to the Number value for
    the integer its digits denote. *)
Lemma parseInt_of_decimal (v : string) :
  startsWithDigit v = true ->
  exists n, parseInt v = numberOf n /\ 0 <= n < 10 ^ Z.of_nat (String.length v).
Proof.
  destruct v as [|c t]; cbn [startsWithDigit]; [discriminate|]. intros Hc.
  unfold parseInt. cbn [Js.trimStart].
  rewrite (digit_not_space c Hc).
  rewrite (digit_not_sign c 45 Hc) by lia.
  rewrite (digit_not_sign c 43 Hc) by lia.
  cbn [leadingDigits String.length]. rewrite Hc.
  pose proof (digitValue_bounds c Hc) as Hd.
  destruct (leadingDigits_bound t (10 * 0 + digitValue c)) as [n [Hn Hb]]; [lia|].
  rewrite Hn. exists n. split; [reflexivity|].
  assert (Hpow : 0 < 10 ^ Z.of_nat (String.length t)) by (apply Z.pow_pos_nonneg; lia).
  rewrite Nat2Z.inj_succ, Z.pow_succ_r by lia. nia.
Qed.

Lemma parseInt_decimal_nonneg (v : string) :
  startsWithDigit v = true ->
  JsNumber_nonneg (parseInt v) = true
  /\ (parseInt v = JInfinity false \/ exists m, parseInt v = JNum m /\ 0 <= m).
Proof.
  intros Hv. destruct (parseInt_of_decimal v Hv) as [n [-> [Hn _]]].
  now apply numberOf_nonneg.
Qed.

Lemma parseInt_decimal_short (v : string) :
  startsWithDigit v = true -> (String.length v <= 308)%nat ->
  exists m, parseInt v = JNum m /\ 0 <= m.
Proof.
  intros Hv Hlen. destruct (parseInt_of_decimal v Hv) as [n [-> [Hn Hb]]].
  apply numberOf_finite. split; [exact Hn|].
  eapply Z.lt_le_trans; [exact Hb|].
  apply Z.pow_le_mono_r; lia.
Qed.

Section SizeInvariant.
Variable now : JsDate.
Variable dateParse : string -> option JsDate.
(** A property of sizes that holds of the default and of every parsed
    [Size] value of the lines at hand. *)
Variable P : JsNumber -> Prop.
Hypothesis P_default : P (JNum 0).

Lemma convert_ok (e : SltFileEntry) (f : FileInfo) :
  entryOk P e -> convertToFileInfo now dateParse e = Some f -> P (Types.size f).
Proof.
  unfold entryOk, convertToFileInfo. intros He H.
  destruct (SltParser.path e) as [p|]; [|discriminate].
  destruct (negb (Js.truthy p)); [discriminate|].
  destruct (match attributes e with Some a => Js.includes a "D" | None => false end);
    [discriminate|].
  injection H as <-. simpl.
  destruct (SltParser.size e); [exact He | exact P_default].
Qed.

Lemma flush_ok (fs : list FileInfo) (e : SltFileEntry) :
  Forall (fun f => P (Types.size f)) fs -> entryOk P e ->
  Forall (fun f => P (Types.size f)) (flush now dateParse fs e).
Proof.
  intros Hfs He. unfold flush.
  destruct (convertToFileInfo now dateParse e) as [f|] eqn:Hf; [|exact Hfs].
  apply Forall_app. split; [exact Hfs|].
  constructor; [|constructor]. exact (convert_ok e f He Hf).
Qed.

Lemma setKey_ok (e : SltFileEntry) (key value : string) :
  entryOk P e -> (key = "Size"%string -> P (parseInt value)) ->
  entryOk P (setKey e key value).
Proof.
  intros He Hv. unfold setKey.
  destruct (key =? "Path")%string; [exact He|].
  destruct (key =? "Size")%string eqn:Hk.
  - apply String.eqb_eq in Hk. exact (Hv Hk).
  - repeat match goal with
           | |- context [(key =? ?k)%string] => destruct (key =? k)%string
           end; exact He.
Qed.

Lemma parseLine_ok (fs : list FileInfo) (e : SltFileEntry) (line : string) :
  Forall (fun f => P (Types.size f)) fs -> entryOk P e -> lineOk P line ->
  Forall (fun f => P (Types.size f)) (fst (parseLine now dateParse (fs, e) line))
  /\ entryOk P (snd (parseLine now dateParse (fs, e) line)).
Proof.
  intros Hfs He Hline. unfold parseLine.
  destruct (Js.trim line =? EmptyString)%string.
  - simpl. split; [now apply flush_ok | exact I].
  - unfold lineOk, sizeValueOf in Hline.
    destruct (Js.indexOf (Js.trim line) " = ") as [i|]; simpl.
    + split; [exact Hfs|]. apply setKey_ok; [exact He|].
      intros Hk. apply Hline. rewrite Hk. reflexivity.
    + split; assumption.
Qed.

Lemma fold_parseLine_ok (lines : list string) :
  forall fs e,
    Forall (lineOk P) lines ->
    Forall (fun f => P (Types.size f)) fs -> entryOk P e ->
    Forall (fun f => P (Types.size f))
           (fst (fold_left (parseLine now dateParse) lines (fs, e)))
    /\ entryOk P (snd (fold_left (parseLine now dateParse) lines (fs, e))).
Proof.
  induction lines as [|line rest IH]; intros fs e Hlines Hfs He; cbn [fold_left].
  - split; assumption.
  - inversion Hlines as [|? ? Hline Hrest]; subst.
    destruct (parseLine_ok fs e line Hfs He Hline) as [Hfs' He'].
    destruct (parseLine now dateParse (fs, e) line) as [fs' e'].
    simpl in Hfs', He'. apply IH; assumption.
Qed.

Lemma parseSltOutput_ok (lines : list string) :
  Forall (lineOk P) lines ->
  Forall (fun f => P (Types.size f)) (parseSltOutput now dateParse lines).
Proof.
  intros Hlines. unfold parseSltOutput.
  destruct (fold_parseLine_ok lines [] emptyEntry Hlines)
    as [Hfs He]; [constructor | exact I |].
  destruct (fold_left (parseLine now dateParse) lines ([], emptyEntry)) as [fs e].
  now apply flush_ok.
Qed.

Lemma parseSltString_ok (output : string) :
  Forall (lineOk P) (splitLines output) ->
  Forall (fun f => P (Types.size f)) (parseSltString now dateParse output).
Proof. exact (parseSltOutput_ok (splitLines output)). Qed.

End SizeInvariant.

(** *** Blocks *)

(** The loop body, by the key and value of the line. *)
Lemma parseLine_keyValue (now : JsDate) (dateParse : string -> option JsDate)
    (fs : list FileInfo) (e : SltFileEntry) (line : string) :
  parseLine now dateParse (fs, e) line =
  if (Js.trim line =? EmptyString)%string
  then (flush now dateParse fs e, emptyEntry)
  else match keyValueOf line with
       | Some (key, value) => (fs, setKey e key value)
       | None => (fs, e)
       end.
Proof.
  unfold parseLine, keyValueOf.
  destruct (Js.trim line =? EmptyString)%string; [reflexivity|].
  destruct (Js.indexOf (Js.trim line) " = "); reflexivity.
Qed.

Lemma flush_app (now : JsDate) (dateParse : string -> option JsDate)
    (F G : list FileInfo) (e : SltFileEntry) :
  flush now dateParse (F ++ G) e = F ++ flush now dateParse G e.
Proof.
  unfold flush. destruct (convertToFileInfo now dateParse e); [|reflexivity].
  now rewrite app_assoc.
Qed.

(** The records collected before a run of lines stay in front of those the
    run adds. *)
Lemma fold_parseLine_app (now : JsDate) (dateParse : string -> option JsDate)
    (lines : list string) :
  forall F G e,
    fold_left (parseLine now dateParse) lines (F ++ G, e)
    = (F ++ fst (fold_left (parseLine now dateParse) lines (G, e)),
       snd (fold_left (parseLine now dateParse) lines (G, e))).
Proof.
  induction lines as [|line rest IH]; intros F G e; cbn [fold_left].
  - reflexivity.
  - rewrite !parseLine_keyValue.
    destruct (Js.trim line =? EmptyString)%string.
    + rewrite flush_app. apply IH.
    + destruct (keyValueOf line) as [[key value]|]; apply IH.
Qed.

Section Blocks.
Variable now : JsDate.
Variable dateParse : string -> option JsDate.

Lemma parseSltOutput_nil : parseSltOutput now dateParse [] = [].
Proof. reflexivity. Qed.

(** A blank line separates what comes before it from what comes after. *)
Lemma parseSltOutput_blank (l1 l2 : list string) (blank : string) :
  isBlank blank = true ->
  parseSltOutput now dateParse (l1 ++ blank :: l2)
  = parseSltOutput now dateParse l1 ++ parseSltOutput now dateParse l2.
Proof.
  unfold isBlank. intros Hblank.
  unfold parseSltOutput. rewrite fold_left_app. cbn [fold_left].
  destruct (fold_left (parseLine now dateParse) l1 ([], emptyEntry)) as [fs e].
  rewrite parseLine_keyValue, Hblank.
  rewrite <- (app_nil_r (flush now dateParse fs e)) at 1.
  rewrite fold_parseLine_app.
  destruct (fold_left (parseLine now dateParse) l2 ([], emptyEntry)) as [fs2 e2].
  cbn [fst snd]. apply flush_app.
Qed.

Lemma parseSltOutput_after_blank (l1 l2 : list string) :
  endsBlank l1 = true ->
  parseSltOutput now dateParse (l1 ++ l2)
  = parseSltOutput now dateParse l1 ++ parseSltOutput now dateParse l2.
Proof.
  unfold endsBlank. destruct l1 as [|x l1'] using rev_ind; [reflexivity|].
  rewrite rev_app_distr. cbn [rev app startsBlank]. intros Hblank.
  rewrite <- app_assoc. cbn [app].
  rewrite !parseSltOutput_blank by exact Hblank.
  rewrite parseSltOutput_nil, app_nil_r. reflexivity.
Qed.

Lemma parseSltOutput_before_blank (l1 l2 : list string) :
  startsBlank l2 = true ->
  parseSltOutput now dateParse (l1 ++ l2)
  = parseSltOutput now dateParse l1 ++ parseSltOutput now dateParse l2.
Proof.
  destruct l2 as [|blank l2']; cbn [startsBlank]; intros Hblank.
  - rewrite parseSltOutput_nil, !app_nil_r. reflexivity.
  - rewrite parseSltOutput_blank by exact Hblank.
    change (parseSltOutput now dateParse (blank :: l2'))
      with (parseSltOutput now dateParse ([] ++ blank :: l2')).
    rewrite (parseSltOutput_blank [] l2' blank Hblank), parseSltOutput_nil.
    reflexivity.
Qed.

(** A run of lines between blank lines, or the ends of the text, is parsed
    on its own. *)
Lemma parseSltOutput_chunk (l1 chunk l2 : list string) :
  endsBlank l1 = true -> startsBlank l2 = true ->
  parseSltOutput now dateParse (l1 ++ chunk ++ l2)
  = parseSltOutput now dateParse l1 ++ parseSltOutput now dateParse chunk
    ++ parseSltOutput now dateParse l2.
Proof.
  intros H1 H2.
  rewrite parseSltOutput_after_blank by exact H1.
  rewrite parseSltOutput_before_blank by exact H2. reflexivity.
Qed.

End Blocks.

Lemma sizeValueOf_keyValue (line : string) :
  sizeValueOf line =
  match keyValueOf line with
  | Some (key, value) => if (key =? "Size")%string then Some value else None
  | None => None
  end.
Proof.
  unfold sizeValueOf, keyValueOf.
  destruct (Js.indexOf (Js.trim line) " = "); reflexivity.
Qed.

Lemma lacksKey_size (lines : list string) (line : string) :
  lacksKey "Size" lines = true -> In line lines -> sizeValueOf line = None.
Proof.
  unfold lacksKey. rewrite forallb_forall. intros Hall Hin.
  specialize (Hall line Hin). rewrite sizeValueOf_keyValue.
  destruct (keyValueOf line) as [[key value]|]; [|reflexivity].
  apply negb_true_iff in Hall. now rewrite Hall.
Qed.

(** C9 (as amended).  For every input text whose [Size] values begin with a
    decimal digit: every FileInfo produced by [parseSltString] has a size
    that is not negative, namely a non-negative integer or [Infinity], and
    that is 0 or the [parseInt] of the value of a [Size] line of the text;
    when moreover the [Size] values have at most 308 characters, every size
    is a non-negative integer; and the records of blocks that carry no
    [Size] key, the lines between two blank lines or ends of the text, have
    size 0. *)
Theorem parseSltString_sizes_nonnegative
    (now : JsDate) (dateParse : string -> option JsDate) (output : string) :
  sizesAreDecimal output = true ->
  (forall f, In f (parseSltString now dateParse output) ->
     JsNumber_nonneg (Types.size f) = true
     /\ (Types.size f = JInfinity false
         \/ exists n, Types.size f = JNum n /\ 0 <= n)
     /\ (Types.size f = JNum 0
         \/ exists line v, In line (splitLines output)
                           /\ sizeValueOf line = Some v
                           /\ Types.size f = parseInt v))
  /\ (sizesAreShort output = true ->
      forall f, In f (parseSltString now dateParse output) ->
                exists n, Types.size f = JNum n /\ 0 <= n)
  /\ (forall l1 chunk l2,
        splitLines output = l1 ++ chunk ++ l2 ->
        endsBlank l1 = true -> startsBlank l2 = true ->
        lacksKey "Size" chunk = true ->
        parseSltString now dateParse output
        = parseSltOutput now dateParse l1 ++ parseSltOutput now dateParse chunk
          ++ parseSltOutput now dateParse l2
        /\ forall f, In f (parseSltOutput now dateParse chunk) ->
                     Types.size f = JNum 0).
Proof.
  intros Hdec. unfold sizesAreDecimal in Hdec. rewrite forallb_forall in Hdec.
  split; [|split].
  - intros f Hin.
    set (P := fun x : JsNumber =>
                JsNumber_nonneg x = true
                /\ (x = JInfinity false \/ exists n, x = JNum n /\ 0 <= n)
                /\ (x = JNum 0
                    \/ exists line v, In line (splitLines output)
                                      /\ sizeValueOf line = Some v
                                      /\ x = parseInt v)).
    assert (Hall : Forall (fun g => P (Types.size g))
                          (parseSltString now dateParse output)).
    { apply parseSltString_ok.
      - split; [reflexivity|]. split; [|left; reflexivity].
        right. exists 0. split; [reflexivity | lia].
      - apply Forall_forall. intros line Hline v Hv.
        specialize (Hdec line Hline). rewrite Hv in Hdec.
        destruct (parseInt_decimal_nonneg v Hdec) as [Hpos Hint].
        split; [exact Hpos|]. split; [exact Hint|].
        right. exists line, v. auto. }
    rewrite Forall_forall in Hall. exact (Hall f Hin).
  - intros Hshort f Hin.
    unfold sizesAreShort in Hshort. rewrite forallb_forall in Hshort.
    set (P := fun x : JsNumber => exists n, x = JNum n /\ 0 <= n).
    assert (Hall : Forall (fun g => P (Types.size g))
                          (parseSltString now dateParse output)).
    { apply parseSltString_ok.
      - exists 0. split; [reflexivity | lia].
      - apply Forall_forall. intros line Hline v Hv.
        specialize (Hdec line Hline). specialize (Hshort line Hline).
        rewrite Hv in Hdec, Hshort.
        apply parseInt_decimal_short; [exact Hdec | now apply Nat.leb_le]. }
    rewrite Forall_forall in Hall. exact (Hall f Hin).
  - intros l1 chunk l2 Hsplit H1 H2 Hlacks. split.
    + change (parseSltString now dateParse output)
        with (parseSltOutput now dateParse (splitLines output)).
      rewrite Hsplit. now apply parseSltOutput_chunk.
    + assert (Hall : Forall (fun g => Types.size g = JNum 0)
                            (parseSltOutput now dateParse chunk)).
      { apply (parseSltOutput_ok now dateParse (fun x => x = JNum 0) eq_refl).
        apply Forall_forall. intros line Hline v Hv.
        rewrite (lacksKey_size chunk line Hlacks Hline) in Hv. discriminate. }
      rewrite Forall_forall in Hall. exact Hall.
Qed.

Lemma parseSltString_sizes_nonnegative_witness :
  let a := mkFileInfo 0 (JNum 12) None "a.txt" (Some false) None in
  let b := mkFileInfo 0 (JNum 0) None "b.txt" (Some false) None in
  sizesAreDecimal Fixtures.sizelessListing = true
  /\ parseSltString 0 (fun _ => None) Fixtures.sizelessListing = [a; b]
  /\ lacksKey "Size" ["Path = b.txt"; ""]%string = true
  /\ parseSltOutput 0 (fun _ => None) ["Path = b.txt"; ""]%string = [b]
  /\ (forall f, In f (parseSltString 0 (fun _ => None) Fixtures.sizelessListing) ->
                exists n, Types.size f = JNum n /\ 0 <= n)
  /\ (forall f, In f (parseSltOutput 0 (fun _ => None) ["Path = b.txt"; ""]%string) ->
                Types.size f = JNum 0).
Proof.
  intros a b.
  destruct (parseSltString_sizes_nonnegative 0 (fun _ => None)
              Fixtures.sizelessListing eq_refl)
    as (_ & Hshort & Hchunk).
  destruct (Hchunk ["Path = a.txt"; "Size = 12"; ""]%string
                   ["Path = b.txt"; ""]%string [] eq_refl eq_refl eq_refl eq_refl)
    as [_ Hzero].
  split; [reflexivity|]. split; [reflexivity|]. split; [reflexivity|].
  split; [reflexivity|]. split; [exact (Hshort eq_refl) | exact Hzero].
Defined.

(** C9 as stated fails: a block whose [Size] value carries a minus sign
    yields a FileInfo with a negative size. *)
Lemma parseSltString_negative_size :
  ~ (forall (now : JsDate) (dateParse : string -> option JsDate)
            (output : string) (f : FileInfo),
       In f (parseSltString now dateParse output) ->
       JsNumber_nonneg (Types.size f) = true).
Proof.
  intros H.
  specialize (H 0 (fun _ => None) Fixtures.negativeSizeListing
                (mkFileInfo 0 (JNum (-5)) None "a.txt" (Some false) None)).
  assert (Hin : In (mkFileInfo 0 (JNum (-5)) None "a.txt" (Some false) None)
                   (parseSltString 0 (fun _ => None) Fixtures.negativeSizeListing))
    by (left; reflexivity).
  specialize (H Hin). discriminate H.
Qed.

(** Nor is every size an integer: a [Size] value of 310 digits is read as
    [Infinity], and one above 2^53 is rounded to the nearest double. *)
Lemma parseSltString_huge_size :
  sizesAreDecimal Fixtures.hugeSizeListing = true
  /\ map Types.size (parseSltString 0 (fun _ => None) Fixtures.hugeSizeListing)
     = [JInfinity false]
  /\ parseInt "9007199254740993" = JNum 9007199254740992.
Proof. split; [|split]; vm_compute; reflexivity. Qed.

End SltParserSpec.

(* ================================================================== *)
(** ** Properties of the path validator *)
(* ================================================================== *)

Module PathValidationSpec.
Import Errors Types PathValidation Invariants.
Local Open Scope list_scope.

(** The three tests of [validateEntryPath], as one boolean. *)
Lemma validateEntryPath_throws (path : PathModule) (entryPath archivePath : string) :
  validateEntryPath path entryPath archivePath =
  if isAbsolute path (normalize path entryPath)
     || (Js.startsWith (normalize path entryPath) ".."
         || Js.includes (normalize path entryPath) (".." ++ sep path)%string
         || Js.includes (normalize path entryPath) "../"
         || Js.includes (normalize path entryPath) (".." ++ str1 backslash)%string)
     || Js.includes entryPath (str1 NUL)
  then Throw (PathTraversalError entryPath archivePath)
  else Return tt.
Proof.
  unfold validateEntryPath.
  destruct (isAbsolute path (normalize path entryPath)); [reflexivity|].
  cbn [orb].
  destruct (Js.startsWith (normalize path entryPath) ".."
            || Js.includes (normalize path entryPath) (".." ++ sep path)%string
            || Js.includes (normalize path entryPath) "../"
            || Js.includes (normalize path entryPath) (".." ++ str1 backslash)%string);
    [reflexivity|].
  cbn [orb].
  destruct (Js.includes entryPath (str1 NUL)); reflexivity.
Qed.

(** [validateAllEntries] throws as soon as one entry is refused. *)
Lemma validateAllEntries_throws (path : PathModule) (archivePath : string)
    (entries : list FileInfo) (entry : FileInfo) :
  In entry entries ->
  validateEntryPath path (filename entry) archivePath
    = Throw (PathTraversalError (filename entry) archivePath) ->
  exists p, validateAllEntries path entries archivePath
            = Throw (PathTraversalError p archivePath).
Proof.
  induction entries as [|first rest IH]; intros Hin Hthrow.
  - destruct Hin.
  - cbn [validateAllEntries].
    destruct (validateEntryPath path (filename first) archivePath) eqn:Hfirst.
    + destruct Hin as [-> | Hin].
      * rewrite Hthrow in Hfirst. discriminate.
      * exact (IH Hin Hthrow).
    + rewrite validateEntryPath_throws in Hfirst.
      destruct (_ || _ || _) in Hfirst; [|discriminate].
      injection Hfirst as <-. eexists. reflexivity.
Qed.

(** *** The POSIX instance *)

Lemma posix_normalize_keeps_absolute (p : string) :
  Posix.isAbsolute p = true -> Posix.isAbsolute (Posix.normalize p) = true.
Proof.
  intros Habs. unfold Posix.normalize.
  destruct (p =? EmptyString)%string eqn:Hp.
  - apply String.eqb_eq in Hp. subst. discriminate.
  - rewrite Habs. cbn [negb].
    destruct (Posix.normalizeString p false =? EmptyString)%string; reflexivity.
Qed.

Lemma repeat_dotdot_cons (k : nat) :
  ".." :: repeat ".." k = repeat ".." k ++ [".."].
Proof.
  induction k as [|k IH]; simpl; [reflexivity|]. now rewrite <- IH.
Qed.

Lemma rev_repeat_dotdot (k : nat) : rev (repeat ".." k) = repeat ".." k.
Proof.
  induction k as [|k IH]; simpl; [reflexivity|].
  rewrite IH. symmetry. apply repeat_dotdot_cons.
Qed.

(** Once a [..] has been kept at the bottom of the stack it stays there, and
    a path that climbs above its root puts one there. *)
Lemma fold_normalizeStep_climbs (segs : list string) :
  forall (normals : list string) (k : nat),
    dotdotFree normals ->
    (1 <= k)%nat \/ Posix.climbs (List.length normals) segs = true ->
    exists normals' k',
      fold_left (Posix.normalizeStep true) segs (normals ++ repeat ".." k)
      = normals' ++ repeat ".." (S k')
      /\ dotdotFree normals'.
Proof.
  induction segs as [|seg rest IH]; intros normals k Hfree Hk.
  - cbn [fold_left]. destruct Hk as [Hk | Hk]; [|discriminate].
    exists normals, (k - 1)%nat. split; [|exact Hfree].
    replace (S (k - 1)) with k by lia. reflexivity.
  - cbn [fold_left]. unfold Posix.normalizeStep at 2.
    cbn [Posix.climbs] in Hk.
    destruct (seg =? EmptyString)%string eqn:He.
    { apply IH; [exact Hfree|].
      apply String.eqb_eq in He. subst seg. exact Hk. }
    destruct (seg =? ".")%string eqn:Hd.
    { apply IH; [exact Hfree|].
      apply String.eqb_eq in Hd. subst seg. exact Hk. }
    destruct (seg =? "..")%string eqn:Hdd.
    + destruct normals as [|n ns].
      * cbn [app].
        assert (Hstack :
                  match repeat ".." k with
                  | [] => [".."]
                  | last :: rest0 =>
                      if (last =? "..")%string then ".." :: repeat ".." k else rest0
                  end = [] ++ repeat ".." (S k)).
        { destruct k; reflexivity. }
        rewrite Hstack. apply IH; [constructor | left; lia].
      * cbn [app]. inversion Hfree as [|? ? Hn Hns]; subst.
        apply String.eqb_neq in Hn. rewrite Hn.
        apply IH; [exact Hns|].
        destruct Hk as [Hk | Hk]; [left; exact Hk | right; exact Hk].
    + change (seg :: normals ++ repeat ".." k)
        with ((seg :: normals) ++ repeat ".." k).
      apply IH.
      * constructor; [|exact Hfree]. now apply String.eqb_neq.
      * destruct Hk as [Hk | Hk]; [left; exact Hk | right; exact Hk].
Qed.

Lemma join_starts_with_first (x : string) (r : list string) :
  String.prefix x (Posix.join "/" (x :: r)) = true.
Proof.
  assert (Hpre : forall a b, String.prefix a (a ++ b)%string = true).
  { induction a as [|c a IHa]; intros b; simpl.
    - destruct b; reflexivity.
    - destruct (Ascii.ascii_dec c c); [apply IHa | congruence]. }
  cbn [Posix.join]. destruct r.
  - pose proof (Hpre x EmptyString) as H.
    assert (Hx : (x ++ EmptyString)%string = x).
    { clear. induction x as [|c x IHx]; simpl; [reflexivity | now rewrite IHx]. }
    rewrite Hx in H. exact H.
  - apply Hpre.
Qed.

Lemma prefix_app (a s t : string) :
  String.prefix a s = true -> String.prefix a (s ++ t)%string = true.
Proof.
  revert s. induction a as [|c a IH]; intros s H.
  - destruct (s ++ t)%string; reflexivity.
  - destruct s as [|d s]; simpl in *; [discriminate|].
    destruct (Ascii.ascii_dec c d); [now apply IH | discriminate].
Qed.

(** A relative path that climbs above its root normalises to a path that
    begins with [..]. *)
Lemma posix_normalize_climbing (p : string) :
  Posix.isAbsolute p = false ->
  Posix.climbsAboveRoot p = true ->
  Js.startsWith (Posix.normalize p) ".." = true.
Proof.
  intros Hrel Hclimb. unfold Posix.normalize.
  destruct (p =? EmptyString)%string eqn:Hp.
  { apply String.eqb_eq in Hp. subst. discriminate. }
  rewrite Hrel. cbn [negb].
  unfold Posix.climbsAboveRoot in Hclimb.
  destruct (fold_normalizeStep_climbs (Posix.split slash p) [] 0)
    as [normals' [k' [Hfold _]]]; [constructor | right; exact Hclimb |].
  change ([] ++ repeat ".." 0) with (@nil string) in Hfold.
  assert (Hres : Js.startsWith (Posix.normalizeString p true) ".." = true).
  { unfold Posix.normalizeString, Js.startsWith. rewrite Hfold.
    rewrite rev_app_distr, rev_repeat_dotdot. cbn [repeat app].
    apply join_starts_with_first. }
  destruct (Posix.normalizeString p true =? EmptyString)%string eqn:Hempty.
  { apply String.eqb_eq in Hempty. rewrite Hempty in Hres. discriminate. }
  destruct (Posix.endsWithChar slash p); [|exact Hres].
  now apply prefix_app.
Qed.

(** Every path that the POSIX instance of the validator refuses by one of
    the four named reasons. *)
Lemma posix_validateEntryPath_rejects (entryPath archivePath : string) :
  Posix.isAbsolute entryPath = true
  \/ Posix.climbsAboveRoot entryPath = true
  \/ Js.includes (Posix.normalize entryPath) (".." ++ str1 backslash)%string = true
  \/ Js.includes entryPath (str1 NUL) = true ->
  validateEntryPath Posix.path entryPath archivePath
  = Throw (PathTraversalError entryPath archivePath).
Proof.
  intros H. rewrite validateEntryPath_throws.
  cbn [normalize isAbsolute sep Posix.path].
  destruct H as [H | [H | [H | H]]].
  - rewrite (posix_normalize_keeps_absolute _ H). reflexivity.
  - destruct (Posix.isAbsolute entryPath) eqn:Habs.
    + rewrite (posix_normalize_keeps_absolute _ Habs). reflexivity.
    + rewrite (posix_normalize_climbing _ Habs H).
      destruct (Posix.isAbsolute (Posix.normalize entryPath)); reflexivity.
  - rewrite H. rewrite !orb_true_r. reflexivity.
  - rewrite H. rewrite !orb_true_r. reflexivity.
Qed.

Lemma posix_keepsAbsolute : keepsAbsolute Posix.path.
Proof. intros p. apply posix_normalize_keeps_absolute. Qed.

(** The validator throws exactly for the refused paths. *)
Lemma refusedPath_throws (path : PathModule) (entryPath archivePath : string) :
  refusedPath path entryPath ->
  validateEntryPath path entryPath archivePath
  = Throw (PathTraversalError entryPath archivePath).
Proof.
  intros Hrefused. rewrite validateEntryPath_throws.
  destruct Hrefused as [H | [H | [[H Hlaw] | [H | [-> H]]]]].
  - rewrite H. now rewrite orb_true_r.
  - now rewrite H.
  - now rewrite (Hlaw entryPath H).
  - unfold parentSegmentLeft in H. rewrite H. now rewrite orb_true_r.
  - rewrite <- validateEntryPath_throws.
    apply posix_validateEntryPath_rejects. right. left. exact H.
Qed.

Lemma accepted_unless_refused (path : PathModule) (entryPath archivePath : string) :
  ~ refusedPath path entryPath ->
  validateEntryPath path entryPath archivePath = Return tt.
Proof.
  intros Hnot. rewrite validateEntryPath_throws.
  destruct (isAbsolute path (normalize path entryPath)) eqn:Habs.
  { destruct Hnot. right. left. exact Habs. }
  destruct (Js.includes entryPath (str1 NUL)) eqn:Hnul.
  { destruct Hnot. left. exact Hnul. }
  destruct (parentSegmentLeft path (normalize path entryPath)) eqn:Hparent.
  { destruct Hnot. right. right. right. left. exact Hparent. }
  unfold parentSegmentLeft in Hparent. rewrite Hparent. reflexivity.
Qed.

End PathValidationSpec.

(* ================================================================== *)
(** ** Properties of the worker *)
(* ================================================================== *)

Module ArchiveOpsSpec.
Import Errors Types ArchiveOps Invariants.
Local Open Scope list_scope.

(** Inversion of a sequenced computation that returned. *)
Lemma bind_returns {A B : Type} (c : M A) (k : A -> M B) (st st' : St) (b : B) :
  bind c k st = (st', Return b) ->
  exists a st1, c st = (st1, Return a) /\ k a st1 = (st', Return b).
Proof.
  unfold bind. destruct (c st) as [st1 [a | e]]; intros H.
  - exists a, st1. auto.
  - discriminate.
Qed.

Section Results.
Variable env : Env.

(** [cleanup] leaves the worker without an active operation. *)
Lemma cleanup_activeOp (st : St) :
  snd (cleanup st) = Return tt /\ activeOp (self (fst (cleanup st))) = UNDEFINED.
Proof.
  unfold cleanup, bind, modify, getSelf, emit, ret. cbn.
  destruct (process (self st)) as [p|]; cbn; [|auto].
  destruct (killed p); cbn; auto.
Qed.

(** The result built by [createSuccessResult] always carries the operation
    kind the worker holds after [cleanup]. *)
Lemma createSuccessResult_type (message : string) (files : list FileInfo)
    (basePath : string) (exitCode : Z) (st : St) :
  exists r, snd (createSuccessResult env message files basePath exitCode st) = Return r
            /\ type r = UNDEFINED.
Proof.
  unfold createSuccessResult, cleanup, bind, getClock, getSelf, modify, emit, ret.
  cbn.
  destruct (process (self st)) as [p|]; [destruct (killed p)|]; cbn;
    eexists; split; reflexivity.
Qed.

Lemma ru_bind {A : Type} (c : M A) (k : A -> M ArchiveOpResult) :
  (forall a, returnsUndefined (k a)) -> returnsUndefined (bind c k).
Proof.
  intros Hk st st' r H.
  apply bind_returns in H as [a [st1 [_ H]]].
  exact (Hk a st1 st' r H).
Qed.

Lemma ru_throw (e : ArchiveError) : returnsUndefined (throw e).
Proof. intros st st' r H. discriminate H. Qed.

Lemma ru_create (message : string) (files : list FileInfo)
    (basePath : string) (exitCode : Z) :
  returnsUndefined (createSuccessResult env message files basePath exitCode).
Proof.
  intros st st' r H.
  destruct (createSuccessResult_type message files basePath exitCode st)
    as [r' [Hr Ht]].
  rewrite H in Hr. cbn in Hr. injection Hr as ->. exact Ht.
Qed.

Ltac ru_step :=
  first
    [ apply ru_create
    | apply ru_throw
    | apply ru_bind; intro
    | match goal with
      | |- returnsUndefined (if ?b then _ else _) => destruct b
      | |- returnsUndefined (match ?x with _ => _ end) => destruct x
      | |- returnsUndefined (let _ := _ in _) => cbv zeta
      end ].

Lemma ru_listEntries (archivePath : string) :
  returnsUndefined (listEntries env archivePath).
Proof. unfold listEntries. repeat ru_step. Qed.

Lemma ru_decompress (archivePath targetPath : string)
    (fileList : option (list string)) :
  returnsUndefined (decompress env archivePath targetPath fileList).
Proof. unfold decompress. repeat ru_step. Qed.

Lemma ru_compress (sourceFiles : list string) (archivePath : string)
    (level : CompressionLevel) :
  returnsUndefined (compress env sourceFiles archivePath level).
Proof. unfold compress. repeat ru_step. Qed.

Lemma ru_update (archivePath : string) (sourceFiles : list string) :
  returnsUndefined (update env archivePath sourceFiles).
Proof. unfold update. repeat ru_step. Qed.

End Results.

(** C6 (the code departs from it).  Whatever the operation, the platform and
    the state of the worker, a result that is returned carries the operation
    kind UNDEFINED, which is not the kind of the operation executed. *)
Theorem successful_result_has_undefined_type
    (env : Env) (call : Call) (st st' : St) (r : ArchiveOpResult) :
  perform env call st = (st', Return r) ->
  type r = UNDEFINED /\ type r <> kindOf call.
Proof.
  intros H.
  assert (Ht : type r = UNDEFINED).
  { destruct call; cbn [perform] in H.
    - exact (ru_listEntries env _ _ _ _ H).
    - exact (ru_decompress env _ _ _ _ _ _ H).
    - exact (ru_compress env _ _ _ _ _ _ H).
    - exact (ru_decompress env _ _ _ _ _ _ H).
    - exact (ru_update env _ _ _ _ _ H). }
  split; [exact Ht|]. rewrite Ht. destruct call; discriminate.
Qed.

Lemma successful_result_has_undefined_type_witness :
  exists r,
    snd (perform (Fixtures.envListing Fixtures.plainListing) Fixtures.listA
                 Fixtures.freshWorker) = Return r
    /\ kindOf Fixtures.listA = LIST
    /\ type r = UNDEFINED /\ type r <> kindOf Fixtures.listA.
Proof.
  eexists. split; [cbv; reflexivity|]. split; [reflexivity|].
  apply (successful_result_has_undefined_type
           (Fixtures.envListing Fixtures.plainListing) Fixtures.listA
           Fixtures.freshWorker
           (fst (perform (Fixtures.envListing Fixtures.plainListing)
                         Fixtures.listA Fixtures.freshWorker))).
  vm_compute. reflexivity.
Defined.

Ltac unfold_m :=
  unfold bind, modify, requireIdle, getSelf, verifyArchive, ensureDirectoryExists,
    begin, spawnProcess, parseListing, elapse, cleanup, emit, throw, ret, getClock.

(** C4.  When the listing process exits with code 0 and the parsed listing
    has an entry marked encrypted, [listEntries] and [decompress] both reject
    with EncryptedArchiveError, and neither spawns an extraction process.
    The hypotheses say that the call reaches the listing: the worker is idle,
    the archive exists with the [.zip] extension, and the target directory
    exists or can be created. *)
Theorem encrypted_listing_is_rejected
    (env : Env) (st : St) (archivePath targetPath : string)
    (fileList : option (list string)) (code : option Z)
    (stdout stderr : string) (elapsedMs : Z) :
  activeOp (self st) = UNDEFINED ->
  fs_access env (path_resolve env archivePath) = true ->
  toLowerCase (path_extname env (path_resolve env archivePath)) = ".zip"%string ->
  fs_access env (path_resolve env targetPath) = true
  \/ fs_mkdir env (path_resolve env targetPath) = None ->
  child env ["l"; "-slt"; path_resolve env archivePath]%string
    = RunClose code stdout stderr elapsedMs ->
  exitCodeOf code = 0 ->
  SltParser.hasEncryptedFiles
    (SltParser.parseSltString (clock st + elapsedMs) (dateParse env) stdout) = true ->
  (snd (listEntries env archivePath st)
     = Throw (Reject (EncryptedArchiveError (path_resolve env archivePath)))
   /\ exists new,
        effects (fst (listEntries env archivePath st)) = effects st ++ new
        /\ existsb isExtraction new = false)
  /\ (snd (decompress env archivePath targetPath fileList st)
        = Throw (Reject (EncryptedArchiveError (path_resolve env archivePath)))
      /\ exists new,
           effects (fst (decompress env archivePath targetPath fileList st))
             = effects st ++ new
           /\ existsb isExtraction new = false).
Proof.
  intros Hidle Hacc Hext Hdir Hchild Hcode Henc. split.
  - unfold listEntries. unfold_m. cbn.
    rewrite Hidle. cbn. rewrite Hacc. cbn. rewrite Hext. cbn.
    rewrite Hchild. cbn. rewrite Hcode. cbn. rewrite Henc. cbn.
    split; [reflexivity|].
    rewrite <- app_assoc. eexists. split; reflexivity.
  - unfold decompress, listEntriesInternal. unfold_m. cbn.
    rewrite Hidle. cbn. rewrite Hacc. cbn. rewrite Hext. cbn.
    destruct (fs_access env (path_resolve env targetPath)) eqn:Hacc2.
    + cbn. rewrite Hchild. cbn. rewrite Hcode. cbn. rewrite Henc. cbn.
      split; [reflexivity|]. eexists. split; reflexivity.
    + destruct Hdir as [Hdir | Hdir]; [discriminate|].
      rewrite Hdir. cbn. rewrite Hchild. cbn. rewrite Hcode. cbn.
      rewrite Henc. cbn.
      split; [reflexivity|].
      rewrite <- app_assoc. eexists. split; reflexivity.
Qed.

Lemma encrypted_listing_is_rejected_witness :
  let env := Fixtures.envListing Fixtures.encryptedListing in
  snd (listEntries env "/data/a.zip" Fixtures.freshWorker)
    = Throw (Reject (EncryptedArchiveError "/data/a.zip"))
  /\ snd (decompress env "/data/a.zip" "/out" None Fixtures.freshWorker)
       = Throw (Reject (EncryptedArchiveError "/data/a.zip"))
  /\ existsb isExtraction
       (effects (fst (decompress env "/data/a.zip" "/out" None Fixtures.freshWorker)))
     = false.
Proof.
  intros env.
  destruct (encrypted_listing_is_rejected env Fixtures.freshWorker
              "/data/a.zip" "/out" None (Some 0) Fixtures.encryptedListing
              EmptyString 5)
    as [[Hlist _] [Hdec _]];
    try reflexivity.
  - left. reflexivity.
  - split; [exact Hlist|]. split; [exact Hdec | reflexivity].
Defined.

(** C1 (as amended), on every platform.  [validateEntryPath] throws
    PathTraversalError for every refused entry path: one that contains a
    NUL, one whose normalised form is absolute (so every absolute path, where
    [path.normalize] keeps it absolute), and one whose normalised form still
    shows a parent-directory segment, at its start or before a separator of
    either style (so, on POSIX, every path whose segments climb above the
    directory it starts from); it accepts every other path.  A [decompress]
    whose listing (exit code 0, no encrypted entry) contains a refused entry
    rejects with PathTraversalError without spawning an extraction
    process. *)
Theorem traversal_entry_is_rejected
    (env : Env) (st : St) (archivePath targetPath : string)
    (fileList : option (list string)) (code : option Z)
    (stdout stderr : string) (elapsedMs : Z) (entry : FileInfo) :
  refusedPath (pathModule env) (filename entry) ->
  activeOp (self st) = UNDEFINED ->
  fs_access env (path_resolve env archivePath) = true ->
  toLowerCase (path_extname env (path_resolve env archivePath)) = ".zip"%string ->
  fs_access env (path_resolve env targetPath) = true
  \/ fs_mkdir env (path_resolve env targetPath) = None ->
  child env ["l"; "-slt"; path_resolve env archivePath]%string
    = RunClose code stdout stderr elapsedMs ->
  exitCodeOf code = 0 ->
  SltParser.hasEncryptedFiles
    (SltParser.parseSltString (clock st + elapsedMs) (dateParse env) stdout) = false ->
  In entry (SltParser.parseSltString (clock st + elapsedMs) (dateParse env) stdout) ->
  PathValidation.validateEntryPath (pathModule env) (filename entry)
      (path_resolve env archivePath)
    = Throw (PathTraversalError (filename entry) (path_resolve env archivePath))
  /\ (forall entryPath,
        ~ refusedPath (pathModule env) entryPath ->
        PathValidation.validateEntryPath (pathModule env) entryPath
          (path_resolve env archivePath) = Return tt)
  /\ exists p new,
       snd (decompress env archivePath targetPath fileList st)
         = Throw (Reject (PathTraversalError p (path_resolve env archivePath)))
       /\ effects (fst (decompress env archivePath targetPath fileList st))
            = effects st ++ new
       /\ existsb isExtraction new = false.
Proof.
  intros Hbad Hidle Hacc Hext Hdir Hchild Hcode Henc Hin.
  pose proof (PathValidationSpec.refusedPath_throws (pathModule env)
                (filename entry) (path_resolve env archivePath) Hbad) as Hthrow.
  split; [exact Hthrow|].
  split; [intros entryPath; apply PathValidationSpec.accepted_unless_refused|].
  destruct (PathValidationSpec.validateAllEntries_throws (pathModule env)
              (path_resolve env archivePath) _ entry Hin Hthrow) as [p Hall].
  exists p.
  remember (SltParser.parseSltString (clock st + elapsedMs) (dateParse env) stdout)
    as listed eqn:Hlisted.
  assert (Hlen : (List.length listed =? 0)%nat = false).
  { destruct listed; [destruct Hin | reflexivity]. }
  unfold decompress, listEntriesInternal. unfold_m. cbn.
  rewrite Hidle. cbn. rewrite Hacc. cbn. rewrite Hext. cbn.
  destruct (fs_access env (path_resolve env targetPath)) eqn:Hacc2.
  - cbn. rewrite Hchild. cbn. rewrite Hcode. cbn.
    rewrite <- Hlisted, Henc. cbn. rewrite Hlen, Hall. cbn.
    eexists. split; [reflexivity|]. split; reflexivity.
  - destruct Hdir as [Hdir | Hdir]; [discriminate|].
    rewrite Hdir. cbn. rewrite Hchild. cbn. rewrite Hcode. cbn.
    rewrite <- Hlisted, Henc. cbn. rewrite Hlen, Hall. cbn.
    rewrite <- app_assoc.
    eexists. split; [reflexivity|]. split; reflexivity.
Qed.

Lemma traversal_entry_is_rejected_witness :
  let env := Fixtures.envListing Fixtures.traversalListing in
  let entry := mkFileInfo 1005 (JNum 2) None "../../etc/passwd" (Some false) None in
  Posix.climbsAboveRoot (filename entry) = true
  /\ PathValidation.validateEntryPath Posix.path (filename entry) "/data/a.zip"
     = Throw (PathTraversalError (filename entry) "/data/a.zip")
  /\ exists p new,
       snd (decompress env "/data/a.zip" "/out" None Fixtures.freshWorker)
         = Throw (Reject (PathTraversalError p "/data/a.zip"))
       /\ effects (fst (decompress env "/data/a.zip" "/out" None Fixtures.freshWorker))
            = effects Fixtures.freshWorker ++ new
       /\ existsb isExtraction new = false.
Proof.
  intros env entry. split; [reflexivity|].
  destruct (traversal_entry_is_rejected env Fixtures.freshWorker
              "/data/a.zip" "/out" None (Some 0) Fixtures.traversalListing
              EmptyString 5 entry)
    as (Hthrow & _ & Hdecompress);
    try reflexivity.
  - right. right. right. right. split; reflexivity.
  - left. reflexivity.
  - right. left. reflexivity.
  - split; [exact Hthrow | exact Hdecompress].
Defined.

(** C1 as stated fails: a path with a parent-directory segment in its
    middle normalises to a path without one, and the validator returns
    normally. *)
Lemma interior_parent_segment_is_accepted :
  In ".."%string (Posix.split slash "foo/../bar")
  /\ PathValidation.validateEntryPath Posix.path "foo/../bar" "/data/a.zip"
     = Return tt.
Proof.
  split; [right; left; reflexivity | reflexivity].
Qed.

End ArchiveOpsSpec.

(* ================================================================== *)
(** ** Properties of the scheduler *)
(* ================================================================== *)

Module ArchiveServiceSpec.
Import Types ArchiveService Invariants.
Local Open Scope list_scope.
Local Open Scope nat_scope.

(** *** Lists of job ids *)

Lemma sorted_app (l1 l2 : list nat) :
  StronglySorted lt l1 -> StronglySorted lt l2 ->
  (forall a b, In a l1 -> In b l2 -> a < b) ->
  StronglySorted lt (l1 ++ l2).
Proof.
  induction l1 as [|x l1 IH]; intros H1 H2 H12; cbn [app].
  - exact H2.
  - inversion H1 as [|? ? Hs Hx]; subst. constructor.
    + apply IH; [exact Hs | exact H2 |].
      intros a b Ha Hb. apply H12; [right; exact Ha | exact Hb].
    + apply Forall_app. split; [exact Hx|].
      apply Forall_forall. intros b Hb. apply H12; [left; reflexivity | exact Hb].
Qed.

Lemma sorted_filter (f : nat * QueuedJob -> bool) (q : list (nat * QueuedJob)) :
  StronglySorted lt (map fst q) -> StronglySorted lt (map fst (filter f q)).
Proof.
  induction q as [|kj q IH]; intros H; cbn [filter map]; [constructor|].
  cbn [map] in H. inversion H as [|? ? Hs Hx]; subst.
  destruct (f kj); [|exact (IH Hs)].
  cbn [map]. constructor; [exact (IH Hs)|].
  rewrite Forall_forall in *. intros b Hb. apply Hx.
  apply in_map_iff in Hb as [kj' [<- Hin]].
  apply filter_In in Hin as [Hin _]. now apply in_map.
Qed.

Lemma sorted_tail_above (k : nat) (job : QueuedJob) (rest : list (nat * QueuedJob)) :
  StronglySorted lt (map fst ((k, job) :: rest)) ->
  forall k' job', In (k', job') rest -> k < k'.
Proof.
  cbn [map fst]. intros H k' job' Hin.
  inversion H as [|? ? _ Hx]; subst.
  rewrite Forall_forall in Hx. apply Hx.
  apply (in_map fst) in Hin. exact Hin.
Qed.

(** *** The dispatch loop *)

Lemma setStatus_not_queued (job : QueuedJob) :
  ProcessStatus.eqb (status (setStatus ProcessStatus.RUNNING job))
                    ProcessStatus.QUEUED = false.
Proof. reflexivity. Qed.

(** What one pass of the dispatch loop does to a queue in submission order:
    it keeps the ids, it starts jobs that were QUEUED, in increasing order,
    and every job it leaves QUEUED comes after all the jobs it started. *)
Lemma started_job_not_queued (k k' : nat) (job job' : QueuedJob) :
  (k, setStatus ProcessStatus.RUNNING job) = (k', job') ->
  isQueued (k', job') = true -> False.
Proof.
  intros Heq Hq. injection Heq as <- <-.
  unfold isQueued in Hq. cbn [snd] in Hq.
  rewrite setStatus_not_queued in Hq. discriminate.
Qed.

Lemma processLoop_fifo (maxC : Z) (q : list (nat * QueuedJob)) :
  forall (active : Z),
    StronglySorted lt (map fst q) ->
    let '(_, q', started) := processLoop maxC active q in
    map fst q' = map fst q
    /\ StronglySorted lt started
    /\ (forall i, In i started -> exists job, In (i, job) q /\ isQueued (i, job) = true)
    /\ (forall k job, In (k, job) q' -> isQueued (k, job) = true ->
                      In (k, job) q /\ forall i, In i started -> i < k).
Proof.
  induction q as [|[k job] rest IH]; intros active Hsorted.
  - cbn. split; [reflexivity|]. split; [constructor|].
    split; [intros i [] | intros k job []].
  - cbn [processLoop].
    assert (Hrest : StronglySorted lt (map fst rest)).
    { cbn [map] in Hsorted. now inversion Hsorted. }
    pose proof (sorted_tail_above k job rest Hsorted) as Habove.
    destruct (ProcessStatus.eqb (status job) ProcessStatus.QUEUED) eqn:Hq; cbn [negb].
    + (* the job is started *)
      destruct (active + 1 >=? maxC)%Z.
      * (* the ceiling is reached: the loop returns *)
        split; [reflexivity|]. split; [repeat constructor|]. split.
        -- intros i [<- | []]. exists job. split; [left; reflexivity | exact Hq].
        -- intros k' job' [Heq | Hin] Hq'.
           ++ destruct (started_job_not_queued _ _ _ _ Heq Hq').
           ++ split; [right; exact Hin|].
              intros i [<- | []]. exact (Habove _ _ Hin).
      * specialize (IH (active + 1)%Z Hrest).
        destruct (processLoop maxC (active + 1) rest) as [[a rest'] started].
        destruct IH as [Hids [Hst [Hwas Hleft]]].
        split; [cbn [map fst]; now rewrite Hids|]. split; [|split].
        -- constructor; [exact Hst|].
           apply Forall_forall. intros i Hi.
           destruct (Hwas i Hi) as [j [Hin _]]. exact (Habove _ _ Hin).
        -- intros i [<- | Hi].
           ++ exists job. split; [left; reflexivity | exact Hq].
           ++ destruct (Hwas i Hi) as [j [Hin Hj]]. exists j.
              split; [right; exact Hin | exact Hj].
        -- intros k' job' [Heq | Hin] Hq'.
           ++ destruct (started_job_not_queued _ _ _ _ Heq Hq').
           ++ destruct (Hleft _ _ Hin Hq') as [Hold Hlate].
              split; [right; exact Hold|].
              intros i [<- | Hi]; [exact (Habove _ _ Hold) | exact (Hlate i Hi)].
    + (* the job is passed over *)
      specialize (IH active Hrest).
      destruct (processLoop maxC active rest) as [[a rest'] started].
      destruct IH as [Hids [Hst [Hwas Hleft]]].
      split; [cbn [map fst]; now rewrite Hids|]. split; [exact Hst|]. split.
      * intros i Hi. destruct (Hwas i Hi) as [j [Hin Hj]]. exists j.
        split; [right; exact Hin | exact Hj].
      * intros k' job' [Heq | Hin] Hq'.
        -- injection Heq as <- <-. unfold isQueued in Hq'. cbn [snd] in Hq'.
           rewrite Hq in Hq'. discriminate.
        -- destruct (Hleft _ _ Hin Hq') as [Hold Hlate].
           split; [right; exact Hold | exact Hlate].
Qed.

(** *** The invariant behind the admission order *)

Lemma fifoInv_create (config : ArchiveServiceConfig) :
  fifoInv (queue (create config)) (invoked (create config)) (nextId (create config)).
Proof.
  cbn. repeat split; try constructor. intros k job [].
Qed.

Lemma fifoInv_processQueue (s : t) :
  fifoInv (queue s) (invoked s) (nextId s) ->
  fifoInv (queue (processQueue s)) (invoked (processQueue s)) (nextId (processQueue s)).
Proof.
  intros (Hq & Hqn & Hlog & Hlogn & Hlate). unfold processQueue.
  destruct (activeJobs s >=? maxConcurrent (config s))%Z.
  { repeat split; assumption. }
  pose proof (processLoop_fifo (maxConcurrent (config s)) (queue s) (activeJobs s) Hq)
    as Hloop.
  destruct (processLoop (maxConcurrent (config s)) (activeJobs s) (queue s))
    as [[a q'] started].
  destruct Hloop as (Hids & Hst & Hwas & Hleft). cbn.
  repeat split.
  - now rewrite Hids.
  - now rewrite Hids.
  - apply sorted_app; [exact Hlog | exact Hst |].
    intros i j Hi Hj. destruct (Hwas j Hj) as [job [Hin Hjob]].
    exact (Hlate j job Hin Hjob i Hi).
  - apply Forall_app. split; [exact Hlogn|].
    apply Forall_forall. intros j Hj. destruct (Hwas j Hj) as [job [Hin _]].
    rewrite Forall_forall in Hqn. apply Hqn.
    apply (in_map fst) in Hin. exact Hin.
  - intros k job Hin Hjob i Hi.
    destruct (Hleft k job Hin Hjob) as [Hold Habove].
    apply in_app_or in Hi as [Hi | Hi].
    + exact (Hlate k job Hold Hjob i Hi).
    + exact (Habove i Hi).
Qed.

Lemma Map_set_fresh (q : list (nat * QueuedJob)) (n : nat) (job : QueuedJob) :
  Forall (fun k => k < n) (map fst q) -> Map_set q n job = q ++ [(n, job)].
Proof.
  induction q as [|[k j] q IH]; intros H; cbn [Map_set app]; [reflexivity|].
  cbn [map fst] in H. inversion H as [|? ? Hk Hq]; subst.
  destruct (Nat.eqb_spec k n) as [-> | _]; [lia|].
  now rewrite IH.
Qed.

Lemma fifoInv_submit (q : list (nat * QueuedJob)) (log : list nat) (next : nat)
    (operation : ArchiveOps.Call) :
  fifoInv q log next ->
  fifoInv (Map_set q next (mkJob next ProcessStatus.QUEUED operation None))
          log (S next).
Proof.
  intros (Hq & Hqn & Hlog & Hlogn & Hlate).
  unfold fifoInv. rewrite (Map_set_fresh _ _ _ Hqn). rewrite map_app. cbn [map fst].
  repeat split.
  - apply sorted_app; [exact Hq | repeat constructor |].
    intros a b Ha [<- | []]. rewrite Forall_forall in Hqn. exact (Hqn a Ha).
  - apply Forall_app. split.
    + eapply Forall_impl; [|exact Hqn]. cbn. intros; lia.
    + repeat constructor.
  - exact Hlog.
  - eapply Forall_impl; [|exact Hlogn]. cbn. intros; lia.
  - intros k job Hin Hjob i Hi.
    apply in_app_or in Hin as [Hin | [Heq | []]].
    + exact (Hlate k job Hin Hjob i Hi).
    + injection Heq as <- _. rewrite Forall_forall in Hlogn. exact (Hlogn i Hi).
Qed.

Lemma fifoInv_delete (q : list (nat * QueuedJob)) (log : list nat) (next jobId : nat) :
  fifoInv q log next -> fifoInv (Map_delete q jobId) log next.
Proof.
  intros (Hq & Hqn & Hlog & Hlogn & Hlate). unfold Map_delete.
  repeat split; try assumption.
  - now apply sorted_filter.
  - rewrite Forall_forall in *. intros k Hk. apply Hqn.
    apply in_map_iff in Hk as [kj [<- Hin]].
    apply filter_In in Hin as [Hin _]. now apply in_map.
  - intros k job Hin. apply filter_In in Hin as [Hin _]. exact (Hlate k job Hin).
Qed.

Lemma setStatusOf_ids (jobId : nat) (st : ProcessStatus.t) (q : list (nat * QueuedJob)) :
  map fst (setStatusOf jobId st q) = map fst q.
Proof.
  unfold setStatusOf. rewrite map_map. apply map_ext.
  intros [k j]. cbn. destruct (k =? jobId); reflexivity.
Qed.

Lemma setStatusOf_queued (jobId : nat) (st : ProcessStatus.t)
    (q : list (nat * QueuedJob)) (k : nat) (job : QueuedJob) :
  ProcessStatus.eqb st ProcessStatus.QUEUED = false ->
  In (k, job) (setStatusOf jobId st q) -> isQueued (k, job) = true ->
  In (k, job) q.
Proof.
  intros Hst Hin Hjob. unfold setStatusOf in Hin.
  apply in_map_iff in Hin as [[k' j'] [Heq Hin]]. cbn [fst snd] in Heq.
  destruct (k' =? jobId).
  - injection Heq as <- <-. unfold isQueued in Hjob. cbn in Hjob.
    cbn in Hst. rewrite Hst in Hjob. discriminate.
  - injection Heq as <- <-. exact Hin.
Qed.

Lemma fifoInv_setStatusOf (q : list (nat * QueuedJob)) (log : list nat)
    (next jobId : nat) (st : ProcessStatus.t) :
  ProcessStatus.eqb st ProcessStatus.QUEUED = false ->
  fifoInv q log next -> fifoInv (setStatusOf jobId st q) log next.
Proof.
  intros Hst (Hq & Hqn & Hlog & Hlogn & Hlate).
  repeat split; try assumption.
  - now rewrite setStatusOf_ids.
  - now rewrite setStatusOf_ids.
  - intros k job Hin Hjob.
    exact (Hlate k job (setStatusOf_queued _ _ _ _ _ Hst Hin Hjob) Hjob).
Qed.

Lemma fifoInv_step (s s' : t) (e : Event) :
  fifoInv (queue s) (invoked s) (nextId s) -> step s e = Some s' ->
  fifoInv (queue s') (invoked s') (nextId s').
Proof.
  intros Hinv Hstep. destruct e as [operation | jobId | | jobId outcome];
    cbn [step] in Hstep.
  - injection Hstep as <-. unfold submitJob. cbn [fst].
    apply fifoInv_processQueue. cbn. now apply fifoInv_submit.
  - injection Hstep as <-. unfold cancelJob.
    destruct (Map_get (queue s) jobId) as [job|]; cbn [fst]; [|exact Hinv].
    destruct (hasRunningWorker job); cbn [fst];
      apply fifoInv_processQueue; cbn;
      apply fifoInv_delete; now apply fifoInv_setStatusOf.
  - injection Hstep as <-. unfold cancelAll.
    destruct (cancelEach (queue s) (promises s) (workerCancels s)) as [ps cancels].
    cbn. destruct Hinv as (_ & _ & Hlog & Hlogn & _).
    repeat split; try assumption; try constructor. intros k job [].
  - destruct (existsb (Nat.eqb jobId) (inflight s)); [|discriminate].
    injection Hstep as <-. unfold onSettled, cleanupJob.
    destruct outcome; apply fifoInv_processQueue; cbn;
      apply fifoInv_delete; now apply fifoInv_setStatusOf.
Qed.

Lemma run_reachable (config : ArchiveServiceConfig) (events : list Event) :
  forall s s', reachable config s -> run s events = Some s' -> reachable config s'.
Proof.
  induction events as [|e rest IH]; intros s s' Hs Hrun; cbn [run] in Hrun.
  - injection Hrun as <-. exact Hs.
  - destruct (step s e) as [s1|] eqn:Hstep; [|discriminate].
    exact (IH s1 s' (reachable_step config s s1 e Hs Hstep) Hrun).
Qed.

Lemma fifoInv_reachable (config : ArchiveServiceConfig) (s : t) :
  reachable config s -> fifoInv (queue s) (invoked s) (nextId s).
Proof.
  induction 1 as [|s s' e _ IH Hstep].
  - apply fifoInv_create.
  - exact (fifoInv_step s s' e IH Hstep).
Qed.

(** C5.  After every sequence of submissions, cancellations and completions,
    the jobs whose operation was invoked were invoked in strict submission
    order, and every job that is still QUEUED was submitted after every job
    that was started: no job starts before an earlier one that is still
    QUEUED. *)
Theorem jobs_start_in_submission_order
    (config : ArchiveServiceConfig) (events : list Event) (s : t) :
  run (create config) events = Some s ->
  StronglySorted lt (invoked s)
  /\ forall k job i,
       In (k, job) (queue s) -> status job = ProcessStatus.QUEUED ->
       In i (invoked s) -> i < k.
Proof.
  intros Hrun.
  pose proof (fifoInv_reachable config s
                (run_reachable config events _ _ (reachable_create config) Hrun))
    as (_ & _ & Hlog & _ & Hlate).
  split; [exact Hlog|].
  intros k job i Hin Hq Hi.
  apply (Hlate k job Hin); [|exact Hi].
  unfold isQueued. cbn [snd]. rewrite Hq. reflexivity.
Qed.

Lemma jobs_start_in_submission_order_witness :
  exists s,
    run (create Fixtures.oneSlot)
        [Submit Fixtures.listA; Submit Fixtures.listA; Submit Fixtures.listA;
         Settle 0 (Return Fixtures.someResult); CancelJob 1] = Some s
    /\ invoked s = [0; 1]
    /\ map fst (filter isQueued (queue s)) = [2]
    /\ StronglySorted lt (invoked s)
    /\ forall k job i,
         In (k, job) (queue s) -> status job = ProcessStatus.QUEUED ->
         In i (invoked s) -> i < k.
Proof.
  eexists. split; [vm_compute; reflexivity|].
  split; [reflexivity|]. split; [reflexivity|].
  apply (jobs_start_in_submission_order Fixtures.oneSlot
           [Submit Fixtures.listA; Submit Fixtures.listA; Submit Fixtures.listA;
            Settle 0 (Return Fixtures.someResult); CancelJob 1]).
  vm_compute. reflexivity.
Defined.

(** *** The worker reference of a job *)

Lemma noWorker_processLoop (maxC : Z) (q : list (nat * QueuedJob)) :
  forall active, noWorker q -> noWorker (snd (fst (processLoop maxC active q))).
Proof.
  induction q as [|[k job] rest IH]; intros active Hq; cbn [processLoop].
  - constructor.
  - inversion Hq as [|? ? Hjob Hrest]; subst.
    destruct (negb (ProcessStatus.eqb (status job) ProcessStatus.QUEUED)).
    + specialize (IH active Hrest).
      destruct (processLoop maxC active rest) as [[a rest'] started].
      cbn in *. constructor; assumption.
    + destruct (active + 1 >=? maxC)%Z.
      * cbn. constructor; [exact Hjob | exact Hrest].
      * specialize (IH (active + 1)%Z Hrest).
        destruct (processLoop maxC (active + 1) rest) as [[a rest'] started].
        cbn in *. constructor; assumption.
Qed.

Lemma noWorker_processQueue (s : t) :
  noWorker (queue s) -> noWorker (queue (processQueue s)).
Proof.
  intros Hq. unfold processQueue.
  destruct (activeJobs s >=? maxConcurrent (config s))%Z; [exact Hq|].
  pose proof (noWorker_processLoop (maxConcurrent (config s)) (queue s)
                (activeJobs s) Hq) as Hloop.
  destruct (processLoop (maxConcurrent (config s)) (activeJobs s) (queue s))
    as [[a q'] started].
  exact Hloop.
Qed.

Lemma noWorker_Map_set (q : list (nat * QueuedJob)) (n : nat) (job : QueuedJob) :
  noWorker q -> worker job = None -> noWorker (Map_set q n job).
Proof.
  induction q as [|[k j] q IH]; intros Hq Hjob; cbn [Map_set].
  - repeat constructor. exact Hjob.
  - inversion Hq as [|? ? Hj Hrest]; subst.
    destruct (k =? n); constructor.
    + exact Hjob.
    + exact Hrest.
    + exact Hj.
    + exact (IH Hrest Hjob).
Qed.

Lemma noWorker_delete (q : list (nat * QueuedJob)) (jobId : nat) :
  noWorker q -> noWorker (Map_delete q jobId).
Proof.
  unfold noWorker, Map_delete. rewrite !Forall_forall.
  intros Hq kj Hin. apply filter_In in Hin as [Hin _]. exact (Hq kj Hin).
Qed.

Lemma noWorker_setStatusOf (q : list (nat * QueuedJob)) (jobId : nat)
    (st : ProcessStatus.t) :
  noWorker q -> noWorker (setStatusOf jobId st q).
Proof.
  unfold noWorker, setStatusOf. rewrite !Forall_forall.
  intros Hq kj Hin. apply in_map_iff in Hin as [[k j] [<- Hin]].
  specialize (Hq (k, j) Hin). cbn in *. destruct (k =? jobId); exact Hq.
Qed.

Lemma noWorker_get (q : list (nat * QueuedJob)) (jobId : nat) (job : QueuedJob) :
  noWorker q -> Map_get q jobId = Some job -> worker job = None.
Proof.
  induction q as [|[k j] q IH]; intros Hq Hget; cbn [Map_get] in Hget.
  - discriminate.
  - inversion Hq as [|? ? Hj Hrest]; subst.
    destruct (k =? jobId); [injection Hget as <-; exact Hj | exact (IH Hrest Hget)].
Qed.

Lemma hasRunningWorker_none (job : QueuedJob) :
  worker job = None -> hasRunningWorker job = None.
Proof. unfold hasRunningWorker. now intros ->. Qed.

Lemma cancelEach_noWorker (q : list (nat * QueuedJob)) :
  forall ps cancels, noWorker q -> snd (cancelEach q ps cancels) = cancels.
Proof.
  induction q as [|[k job] rest IH]; intros ps cancels Hq; cbn [cancelEach].
  - reflexivity.
  - inversion Hq as [|? ? Hjob Hrest]; subst. cbn [snd] in Hjob.
    rewrite (hasRunningWorker_none job Hjob). now apply IH.
Qed.

(** One event keeps the tracked jobs without a worker and the log of
    forwarded cancellations empty. *)
Lemma noWorker_step (s s' : t) (e : Event) :
  noWorker (queue s) /\ workerCancels s = [] ->
  step s e = Some s' ->
  noWorker (queue s') /\ workerCancels s' = [].
Proof.
  intros [Hq Hc] Hstep.
  destruct e as [operation | jobId | | jobId outcome]; cbn [step] in Hstep.
  - injection Hstep as <-. unfold submitJob. cbn [fst]. split.
    + apply noWorker_processQueue. cbn.
      apply noWorker_Map_set; [exact Hq | reflexivity].
    + unfold processQueue. cbn.
      destruct (activeJobs s >=? maxConcurrent (config s))%Z; [exact Hc|].
      destruct (processLoop _ _ _) as [[n q'] started]. exact Hc.
  - injection Hstep as <-. unfold cancelJob.
    destruct (Map_get (queue s) jobId) as [job|] eqn:Hget; cbn [fst];
      [|split; assumption].
    rewrite (hasRunningWorker_none job (noWorker_get _ _ _ Hq Hget)).
    cbn [fst]. split.
    + apply noWorker_processQueue. cbn.
      apply noWorker_delete. now apply noWorker_setStatusOf.
    + unfold processQueue. cbn.
      destruct (activeJobs s >=? maxConcurrent (config s))%Z; [exact Hc|].
      destruct (processLoop _ _ _) as [[n q'] started]. exact Hc.
  - injection Hstep as <-. unfold cancelAll.
    pose proof (cancelEach_noWorker (queue s) (promises s) (workerCancels s) Hq)
      as Hcancel.
    destruct (cancelEach (queue s) (promises s) (workerCancels s)) as [ps cancels].
    cbn in *. split; [constructor | congruence].
  - destruct (existsb (Nat.eqb jobId) (inflight s)); [|discriminate].
    injection Hstep as <-. unfold onSettled, cleanupJob.
    destruct outcome as [result | error]; split;
      try (apply noWorker_processQueue; cbn;
           apply noWorker_delete; now apply noWorker_setStatusOf);
      unfold processQueue; cbn;
      match goal with
      | |- context [(?x >=? ?y)%Z] => destruct (x >=? y)%Z; [exact Hc|]
      end;
      destruct (processLoop _ _ _) as [[n q'] started]; exact Hc.
Qed.

(** In every reachable state no tracked job refers to a worker, and no
    cancellation was ever forwarded to a worker. *)
Lemma noWorker_reachable (config0 : ArchiveServiceConfig) (s : t) :
  reachable config0 s -> noWorker (queue s) /\ workerCancels s = [].
Proof.
  induction 1 as [|s s' e _ IH Hstep].
  - split; [constructor | reflexivity].
  - exact (noWorker_step s s' e IH Hstep).
Qed.

(** C7 (the code departs from it).  After every sequence of events, every
    tracked job has a null worker reference, the jobs in Running status
    included: the reference is never set. *)
Theorem tracked_job_never_has_worker
    (config : ArchiveServiceConfig) (events : list Event) (s : t)
    (k : nat) (job : QueuedJob) :
  run (create config) events = Some s ->
  In (k, job) (queue s) ->
  worker job = None.
Proof.
  intros Hrun Hin.
  destruct (noWorker_reachable config s
              (run_reachable config events _ _ (reachable_create config) Hrun))
    as [Hq _].
  unfold noWorker in Hq. rewrite Forall_forall in Hq. exact (Hq (k, job) Hin).
Qed.

Lemma tracked_job_never_has_worker_witness :
  let job := mkJob 0 ProcessStatus.RUNNING Fixtures.listA None in
  run (create Fixtures.oneSlot) [Submit Fixtures.listA]
    = Some (mkService Fixtures.oneSlot [(0, job)] 1 [(0, Pending)] [0] [0] [] 1)
  /\ status job = ProcessStatus.RUNNING
  /\ worker job = None.
Proof.
  intros job. split; [reflexivity|]. split; [reflexivity|].
  apply (tracked_job_never_has_worker Fixtures.oneSlot [Submit Fixtures.listA]
           (mkService Fixtures.oneSlot [(0, job)] 1 [(0, Pending)] [0] [0] [] 1)
           0 job).
  - reflexivity.
  - left. reflexivity.
Defined.

(** *** Cancelling a running job *)

Lemma processLoop_active (maxC : Z) (q : list (nat * QueuedJob)) :
  forall active, (active <= fst (fst (processLoop maxC active q)))%Z.
Proof.
  induction q as [|[k job] rest IH]; intros active; cbn [processLoop].
  - cbn. lia.
  - destruct (negb (ProcessStatus.eqb (status job) ProcessStatus.QUEUED)).
    + specialize (IH active).
      destruct (processLoop maxC active rest) as [[a rest'] started]. exact IH.
    + destruct (active + 1 >=? maxC)%Z.
      * cbn. lia.
      * specialize (IH (active + 1)%Z).
        destruct (processLoop maxC (active + 1) rest) as [[a rest'] started].
        cbn in *. lia.
Qed.

Lemma processQueue_active (s : t) : (activeJobs s <= activeJobs (processQueue s))%Z.
Proof.
  unfold processQueue.
  destruct (activeJobs s >=? maxConcurrent (config s))%Z; [lia|].
  pose proof (processLoop_active (maxConcurrent (config s)) (queue s) (activeJobs s)).
  destruct (processLoop _ _ _) as [[a q'] started]. exact H.
Qed.

(** C3 (the code departs from it).  In every reachable state, [cancelJob] on
    a job in Running status returns true but forwards no cancellation to any
    worker and does not decrement the running count; when the scheduler is
    at its ceiling, no queued job is started. *)
Theorem cancel_running_job_keeps_slot
    (config0 : ArchiveServiceConfig) (events : list Event) (s : t)
    (jobId : nat) (job : QueuedJob) :
  run (create config0) events = Some s ->
  Map_get (queue s) jobId = Some job ->
  status job = ProcessStatus.RUNNING ->
  snd (cancelJob s jobId) = true
  /\ workerCancels (fst (cancelJob s jobId)) = []
  /\ (activeJobs s <= activeJobs (fst (cancelJob s jobId)))%Z
  /\ ((maxConcurrent (config s) <= activeJobs s)%Z ->
      activeJobs (fst (cancelJob s jobId)) = activeJobs s
      /\ invoked (fst (cancelJob s jobId)) = invoked s).
Proof.
  intros Hrun Hget Hstatus.
  destruct (noWorker_reachable config0 s
              (run_reachable config0 events _ _ (reachable_create config0) Hrun))
    as [Hq Hc].
  unfold cancelJob. rewrite Hget.
  rewrite (hasRunningWorker_none job (noWorker_get _ _ _ Hq Hget)).
  cbn [fst snd]. split; [reflexivity|].
  match goal with
  | |- context [processQueue ?x] => set (s1 := x)
  end.
  split; [|split].
  - unfold processQueue.
    destruct (activeJobs s1 >=? maxConcurrent (config s1))%Z; [exact Hc|].
    destruct (processLoop _ _ _) as [[a q'] started]. exact Hc.
  - exact (processQueue_active s1).
  - intros Hfull. unfold processQueue.
    assert (Hge : (activeJobs s1 >=? maxConcurrent (config s1))%Z = true).
    { subst s1. cbn. apply Z.geb_le. exact Hfull. }
    rewrite Hge. split; reflexivity.
Qed.

Lemma cancel_running_job_keeps_slot_witness :
  exists s,
    run (create Fixtures.oneSlot) [Submit Fixtures.listA; Submit Fixtures.listA]
      = Some s
    /\ activeJobs s = 1%Z
    /\ snd (cancelJob s 0) = true
    /\ workerCancels (fst (cancelJob s 0)) = []
    /\ activeJobs (fst (cancelJob s 0)) = 1%Z
    /\ map (fun kj => (fst kj, status (snd kj))) (queue (fst (cancelJob s 0)))
       = [(1, ProcessStatus.QUEUED)].
Proof.
  eexists. split; [vm_compute; reflexivity|].
  split; [reflexivity|].
  destruct (cancel_running_job_keeps_slot Fixtures.oneSlot
              [Submit Fixtures.listA; Submit Fixtures.listA]
              (mkService Fixtures.oneSlot
                 [(0, mkJob 0 ProcessStatus.RUNNING Fixtures.listA None);
                  (1, mkJob 1 ProcessStatus.QUEUED Fixtures.listA None)]
                 1 [(0, Pending); (1, Pending)] [0] [0] [] 2)
              0 (mkJob 0 ProcessStatus.RUNNING Fixtures.listA None))
    as (Hfound & Hcancels & _ & _); try reflexivity.
  split; [exact Hfound|]. split; [exact Hcancels|].
  split; reflexivity.
Defined.

(** *** The ceiling *)

Lemma processLoop_count (maxC : Z) (q : list (nat * QueuedJob)) :
  forall active,
    let '(a, _, started) := processLoop maxC active q in
    a = (active + Z.of_nat (List.length started))%Z.
Proof.
  induction q as [|[k job] rest IH]; intros active; cbn [processLoop].
  - cbn. lia.
  - destruct (negb (ProcessStatus.eqb (status job) ProcessStatus.QUEUED)).
    + specialize (IH active).
      destruct (processLoop maxC active rest) as [[a rest'] started]. exact IH.
    + destruct (active + 1 >=? maxC)%Z.
      * cbn. lia.
      * specialize (IH (active + 1)%Z).
        destruct (processLoop maxC (active + 1) rest) as [[a rest'] started].
        cbn [List.length]. lia.
Qed.

Lemma processLoop_bound (maxC : Z) (q : list (nat * QueuedJob)) :
  forall active,
    (active < maxC)%Z -> (fst (fst (processLoop maxC active q)) <= maxC)%Z.
Proof.
  induction q as [|[k job] rest IH]; intros active Hlt; cbn [processLoop].
  - cbn. lia.
  - destruct (negb (ProcessStatus.eqb (status job) ProcessStatus.QUEUED)).
    + specialize (IH active Hlt).
      destruct (processLoop maxC active rest) as [[a rest'] started]. exact IH.
    + destruct (Z.geb_spec (active + 1) maxC) as [Hge | Hlt'].
      * cbn. lia.
      * specialize (IH (active + 1)%Z Hlt').
        destruct (processLoop maxC (active + 1) rest) as [[a rest'] started].
        exact IH.
Qed.

Lemma processLoop_running (maxC : Z) (q : list (nat * QueuedJob)) :
  forall active k job,
    let '(_, q', started) := processLoop maxC active q in
    In (k, job) q' -> isRunning (k, job) = true ->
    (In (k, job) q) \/ In k started.
Proof.
  induction q as [|[k0 job0] rest IH]; intros active k job; cbn [processLoop].
  - intros [].
  - destruct (negb (ProcessStatus.eqb (status job0) ProcessStatus.QUEUED)).
    + specialize (IH active k job).
      destruct (processLoop maxC active rest) as [[a rest'] started].
      intros [Heq | Hin] Hrun; [left; left; exact Heq|].
      destruct (IH Hin Hrun) as [H | H]; [left; right; exact H | right; exact H].
    + destruct (active + 1 >=? maxC)%Z.
      * intros [Heq | Hin] Hrun.
        -- right. left. now injection Heq.
        -- left. right. exact Hin.
      * specialize (IH (active + 1)%Z k job).
        destruct (processLoop maxC (active + 1) rest) as [[a rest'] started].
        intros [Heq | Hin] Hrun.
        -- right. left. now injection Heq.
        -- destruct (IH Hin Hrun) as [H | H];
             [left; right; exact H | right; right; exact H].
Qed.

Lemma sorted_NoDup (l : list nat) : StronglySorted lt l -> NoDup l.
Proof.
  induction 1 as [|x l _ IH Hx]; constructor; [|exact IH].
  intros Hin. rewrite Forall_forall in Hx. specialize (Hx x Hin). lia.
Qed.

Lemma NoDup_app_disjoint (l1 l2 : list nat) :
  NoDup l1 -> NoDup l2 -> (forall a, In a l1 -> In a l2 -> False) -> NoDup (l1 ++ l2).
Proof.
  induction l1 as [|x l1 IH]; intros H1 H2 Hd; cbn [app]; [exact H2|].
  inversion H1 as [|? ? Hx Hl1]; subst. constructor.
  - intros Hin. apply in_app_or in Hin as [Hin | Hin]; [exact (Hx Hin)|].
    exact (Hd x (or_introl eq_refl) Hin).
  - apply IH; [exact Hl1 | exact H2 |].
    intros a Ha. exact (Hd a (or_intror Ha)).
Qed.

Lemma countInv_processQueue (s : t) :
  fifoInv (queue s) (invoked s) (nextId s) ->
  countInv s -> countInv (processQueue s).
Proof.
  intros (Hq & Hqn & Hlog & Hlogn & Hlate) (Hcount & Hnodup & Hlogged & Hrun & Hceil).
  unfold processQueue.
  destruct (Z.geb_spec (activeJobs s) (maxConcurrent (config s))) as [Hge | Hlt].
  { repeat split; assumption. }
  pose proof (processLoop_fifo (maxConcurrent (config s)) (queue s) (activeJobs s) Hq)
    as Hfifo.
  pose proof (processLoop_count (maxConcurrent (config s)) (queue s) (activeJobs s))
    as Hcnt.
  pose proof (processLoop_bound (maxConcurrent (config s)) (queue s) (activeJobs s) Hlt)
    as Hbound.
  pose proof (processLoop_running (maxConcurrent (config s)) (queue s) (activeJobs s))
    as Hrunning.
  destruct (processLoop (maxConcurrent (config s)) (activeJobs s) (queue s))
    as [[a q'] started].
  destruct Hfifo as (Hids & Hst & Hwas & Hleft).
  cbn [fst] in Hbound. unfold countInv. cbn.
  split; [|split; [|split; [|split]]].
  - rewrite length_app. lia.
  - apply NoDup_app_disjoint; [exact Hnodup | exact (sorted_NoDup _ Hst) |].
    intros i Hi Hj. destruct (Hwas i Hj) as [job [Hin Hjob]].
    pose proof (Hlate i job Hin Hjob i (Hlogged i Hi)). lia.
  - intros i Hi. apply in_or_app.
    apply in_app_or in Hi as [Hi | Hi]; [left; exact (Hlogged i Hi) | right; exact Hi].
  - intros k job Hin Hjob. apply in_or_app.
    destruct (Hrunning k job Hin Hjob) as [Hold | Hnew];
      [left; exact (Hrun k job Hold Hjob) | right; exact Hnew].
  - lia.
Qed.

Lemma setStatusOf_running (jobId : nat) (st : ProcessStatus.t)
    (q : list (nat * QueuedJob)) (k : nat) (job : QueuedJob) :
  ProcessStatus.eqb st ProcessStatus.RUNNING = false ->
  In (k, job) (setStatusOf jobId st q) -> isRunning (k, job) = true ->
  In (k, job) q.
Proof.
  intros Hst Hin Hjob. unfold setStatusOf in Hin.
  apply in_map_iff in Hin as [[k' j'] [Heq Hin]]. cbn [fst snd] in Heq.
  destruct (k' =? jobId).
  - injection Heq as <- <-. unfold isRunning in Hjob. cbn in Hjob.
    cbn in Hst. rewrite Hst in Hjob. discriminate.
  - injection Heq as <- <-. exact Hin.
Qed.

Lemma length_filter_remove (jobId : nat) (l : list nat) :
  NoDup l -> In jobId l ->
  S (List.length (filter (fun k => negb (k =? jobId)) l)) = List.length l.
Proof.
  induction l as [|x l IH]; intros Hnd Hin; [destruct Hin|].
  inversion Hnd as [|? ? Hx Hl]; subst. cbn [filter List.length].
  destruct (Nat.eqb_spec x jobId) as [-> | Hne]; cbn [negb].
  - f_equal. clear IH Hin Hnd Hl.
    induction l as [|y l IH]; [reflexivity|]. cbn [filter].
    destruct (Nat.eqb_spec y jobId) as [-> | _]; cbn [negb].
    + exfalso. apply Hx. left. reflexivity.
    + cbn [List.length]. f_equal. apply IH. intros H. apply Hx. right. exact H.
  - cbn [List.length]. f_equal. apply IH; [exact Hl|].
    destruct Hin as [-> | Hin]; [contradiction | exact Hin].
Qed.

Lemma countInv_step (s s' : t) (e : Event) :
  fifoInv (queue s) (invoked s) (nextId s) ->
  noWorker (queue s) ->
  countInv s ->
  withoutCancelAll [e] = true ->
  step s e = Some s' ->
  countInv s'.
Proof.
  intros Hfifo Hnw Hcount Hev Hstep.
  destruct e as [operation | jobId | | jobId outcome]; cbn [step] in Hstep.
  - (* submit *)
    injection Hstep as <-. unfold submitJob. cbn [fst].
    apply countInv_processQueue; cbn.
    + now apply fifoInv_submit.
    + destruct Hcount as (Hc & Hnodup & Hlogged & Hrun & Hceil).
      destruct Hfifo as (_ & Hqn & _).
      unfold countInv. cbn. repeat split; try assumption.
      intros k job Hin Hjob. rewrite (Map_set_fresh _ _ _ Hqn) in Hin.
      apply in_app_or in Hin as [Hin | [Heq | []]]; [exact (Hrun k job Hin Hjob)|].
      injection Heq as <- <-. discriminate Hjob.
  - (* cancelJob *)
    injection Hstep as <-. unfold cancelJob.
    destruct (Map_get (queue s) jobId) as [job|] eqn:Hget; cbn [fst]; [|exact Hcount].
    rewrite (hasRunningWorker_none job (noWorker_get _ _ _ Hnw Hget)). cbn [fst].
    apply countInv_processQueue; cbn.
    + apply fifoInv_delete. now apply fifoInv_setStatusOf.
    + destruct Hcount as (Hc & Hnodup & Hlogged & Hrun & Hceil).
      unfold countInv. cbn. repeat split; try assumption.
      intros k j Hin Hj. unfold Map_delete in Hin.
      apply filter_In in Hin as [Hin _].
      apply (Hrun k j); [|exact Hj].
      now apply (setStatusOf_running jobId ProcessStatus.ERROR).
  - discriminate Hev.
  - (* the operation settles *)
    destruct (existsb (Nat.eqb jobId) (inflight s)) eqn:Hin; [|discriminate].
    injection Hstep as <-. unfold onSettled, cleanupJob.
    apply existsb_exists in Hin as [x [Hx Heq]].
    apply Nat.eqb_eq in Heq. subst x.
    destruct Hcount as (Hc & Hnodup & Hlogged & Hrun & Hceil).
    assert (Hst : forall st ps,
               ProcessStatus.eqb st ProcessStatus.RUNNING = false ->
               countInv
                 (mkService (config s)
                    (Map_delete (setStatusOf jobId st (queue s)) jobId)
                    (activeJobs s - 1) ps
                    (filter (fun k => negb (k =? jobId)) (inflight s))
                    (invoked s) (workerCancels s) (nextId s))).
    { intros st ps Hst. unfold countInv. cbn.
      pose proof (length_filter_remove jobId (inflight s) Hnodup Hx) as Hlen.
      split; [lia|]. split; [now apply NoDup_filter|]. split; [|split; [|lia]].
      - intros i Hi. apply filter_In in Hi as [Hi _]. exact (Hlogged i Hi).
      - intros k j Hin Hj. unfold Map_delete in Hin.
        apply filter_In in Hin as [Hin Hk]. cbn [fst] in Hk.
        apply filter_In. split; [|exact Hk].
        apply (Hrun k j); [|exact Hj].
        now apply (setStatusOf_running jobId st). }
    destruct outcome as [result | error];
      apply countInv_processQueue; cbn;
      try (apply fifoInv_delete; now apply fifoInv_setStatusOf);
      apply Hst; reflexivity.
Qed.

Lemma config_processQueue (s : t) : config (processQueue s) = config s.
Proof.
  unfold processQueue.
  destruct (activeJobs s >=? maxConcurrent (config s))%Z; [reflexivity|].
  destruct (processLoop _ _ _) as [[a q'] started]. reflexivity.
Qed.

Lemma config_step (s s' : t) (e : Event) : step s e = Some s' -> config s' = config s.
Proof.
  intros Hstep. destruct e as [operation | jobId | | jobId outcome];
    cbn [step] in Hstep.
  - injection Hstep as <-. unfold submitJob. cbn [fst].
    now rewrite config_processQueue.
  - injection Hstep as <-. unfold cancelJob.
    destruct (Map_get (queue s) jobId) as [job|]; cbn [fst]; [|reflexivity].
    destruct (hasRunningWorker job); cbn [fst]; now rewrite config_processQueue.
  - injection Hstep as <-. unfold cancelAll.
    destruct (cancelEach _ _ _) as [ps cancels]. reflexivity.
  - destruct (existsb (Nat.eqb jobId) (inflight s)); [|discriminate].
    injection Hstep as <-. unfold onSettled, cleanupJob.
    destruct outcome; now rewrite config_processQueue.
Qed.

Lemma run_without_cancelAll (events : list Event) :
  forall s s',
    fifoInv (queue s) (invoked s) (nextId s) ->
    noWorker (queue s) /\ workerCancels s = [] ->
    countInv s ->
    withoutCancelAll events = true ->
    run s events = Some s' ->
    fifoInv (queue s') (invoked s') (nextId s')
    /\ countInv s' /\ config s' = config s.
Proof.
  induction events as [|e rest IH]; intros s s' Hfifo Hnw Hcount Hev Hrun;
    cbn [run] in Hrun.
  - injection Hrun as <-. split; [exact Hfifo|]. split; [exact Hcount | reflexivity].
  - destruct (step s e) as [s1|] eqn:Hstep; [|discriminate].
    cbn [withoutCancelAll forallb] in Hev. apply andb_true_iff in Hev as [He Hrest].
    destruct (IH s1 s') as (H1 & H2 & H3).
    + exact (fifoInv_step s s1 e Hfifo Hstep).
    + exact (noWorker_step s s1 e Hnw Hstep).
    + apply (countInv_step s s1 e Hfifo (proj1 Hnw) Hcount); [|exact Hstep].
      cbn. now rewrite He.
    + exact Hrest.
    + exact Hrun.
    + split; [exact H1|]. split; [exact H2|].
      rewrite H3. exact (config_step s s1 e Hstep).
Qed.

(** X23.  Without [cancelAll] the ceiling holds: for a non-negative ceiling
    and every sequence of submissions, single cancellations and completions,
    the number of tracked jobs in Running status never exceeds the ceiling. *)
Theorem ceiling_holds_without_cancelAll
    (config0 : ArchiveServiceConfig) (events : list Event) (s : t) :
  (0 <= maxConcurrent config0)%Z ->
  withoutCancelAll events = true ->
  run (create config0) events = Some s ->
  (Z.of_nat (runningCount s) <= maxConcurrent config0)%Z.
Proof.
  intros Hmax Hev Hrun.
  destruct (run_without_cancelAll events (create config0) s) as (Hfifo & Hcount & Hcfg);
    try assumption.
  - apply fifoInv_create.
  - split; [constructor | reflexivity].
  - unfold countInv. cbn. repeat split; try constructor; try contradiction; lia.
  - destruct Hcount as (Hc & Hnodup & _ & Hrunning & Hceil).
    destruct Hfifo as (Hq & _).
    rewrite Hcfg in Hceil. cbn in Hceil.
    assert (Hle : runningCount s <= List.length (inflight s)).
    { unfold runningCount. rewrite <- (length_map fst).
      apply NoDup_incl_length.
      - apply sorted_NoDup. now apply sorted_filter.
      - intros k Hk. apply in_map_iff in Hk as [[k' job] [<- Hin]].
        apply filter_In in Hin as [Hin Hjob]. exact (Hrunning k' job Hin Hjob). }
    lia.
Qed.


(** C2 (the code departs from it).  With a ceiling of one: a job is
    submitted and starts, [cancelAll] resets the running count while the
    operation of that job is still in flight, the operation settles and the
    count drops below zero, and the next two submissions both start: two
    jobs are in Running status. *)
Theorem ceiling_exceeded_after_cancelAll :
  exists s,
    run (create Fixtures.oneSlot)
        [Submit Fixtures.listA; CancelAll; Settle 0 (Return Fixtures.someResult);
         Submit Fixtures.listA; Submit Fixtures.listA] = Some s
    /\ maxConcurrent (config s) = 1%Z
    /\ runningCount s = 2
    /\ (Z.of_nat (runningCount s) > maxConcurrent (config s))%Z.
Proof.
  eexists. split; [vm_compute; reflexivity|].
  split; [reflexivity|]. split; [reflexivity|].
  cbn. lia.
Qed.

End ArchiveServiceSpec.

(* ================================================================== *)
(** ** Further properties of the path validator *)
(* ================================================================== *)

Module PathValidationMore.
Import Errors Types PathValidation PathValidationExtract Invariants.
Local Open Scope list_scope.

(** The validator accepts or refuses a path whatever the archive named in
    the error. *)
Lemma isSafePath_validate (path : PathModule) (entryPath archivePath : string) :
  validateEntryPath path entryPath archivePath =
  if isSafePath path entryPath then Return tt
  else Throw (PathTraversalError entryPath archivePath).
Proof.
  unfold isSafePath.
  rewrite !PathValidationSpec.validateEntryPath_throws.
  destruct (_ || _ || _); reflexivity.
Qed.

(** X1.  [validateAllEntries] returns normally exactly when every entry is a
    safe path, and otherwise throws PathTraversalError for the first entry,
    in listing order, that is not. *)
Theorem validateAllEntries_first_unsafe
    (path : PathModule) (entries : list FileInfo) (archivePath : string) :
  validateAllEntries path entries archivePath =
  match find (fun e => negb (isSafePath path (filename e))) entries with
  | None => Return tt
  | Some e => Throw (PathTraversalError (filename e) archivePath)
  end.
Proof.
  induction entries as [|entry rest IH]; cbn [validateAllEntries find].
  - reflexivity.
  - rewrite isSafePath_validate.
    destruct (isSafePath path (filename entry)); cbn [negb]; [exact IH | reflexivity].
Qed.

(** X2.  Whatever the platform, the path returned by [normalizePath] holds
    no backslash, and has the length of the normalised path. *)
Theorem normalizePath_has_no_backslash (path : PathModule) (inputPath : string) :
  Js.includes (normalizePath path inputPath) (str1 backslash) = false
  /\ String.length (normalizePath path inputPath)
     = String.length (normalize path inputPath).
Proof.
  unfold normalizePath. generalize (normalize path inputPath) as s.
  induction s as [|c t [IHclean IHlen]]; cbn [backslashesToSlashes Js.includes].
  - split; reflexivity.
  - split; [|cbn [String.length]; now rewrite IHlen].
    rewrite IHclean, orb_false_r. unfold str1. cbn [String.prefix].
    destruct (Ascii.eqb c backslash) eqn:Hc.
    + destruct (ascii_dec backslash slash) as [H|_]; [discriminate H | reflexivity].
    + destruct (ascii_dec backslash c) as [H|_]; [|reflexivity].
      subst c. rewrite Ascii.eqb_refl in Hc. discriminate.
Qed.

(** *** [resolveExtractPath] on a POSIX platform *)

Lemma append_assoc (a b c : string) : ((a ++ b) ++ c = a ++ (b ++ c))%string.
Proof. induction a as [|x a IH]; cbn; [reflexivity | now rewrite IH]. Qed.

Lemma prefix_refl (a : string) : String.prefix a a = true.
Proof.
  induction a as [|c a IH]; cbn; [reflexivity|].
  destruct (ascii_dec c c); [exact IH | congruence].
Qed.

Lemma prefix_append_same (a s t : string) :
  String.prefix (a ++ s) (a ++ t) = String.prefix s t.
Proof.
  induction a as [|c a IH]; cbn; [reflexivity|].
  destruct (ascii_dec c c); [exact IH | congruence].
Qed.

Lemma split_nonempty (c : ascii) (s : string) : Posix.split c s <> [].
Proof.
  destruct s as [|d t]; cbn; [discriminate|].
  destruct (Ascii.eqb d c); [discriminate|].
  destruct (Posix.split c t); discriminate.
Qed.

Lemma split_append (c : ascii) (a b : string) :
  Posix.split c (a ++ String c b) = Posix.split c a ++ Posix.split c b.
Proof.
  induction a as [|d t IH]; cbn [append Posix.split].
  - rewrite Ascii.eqb_refl. reflexivity.
  - destruct (Ascii.eqb d c); [now rewrite IH|].
    rewrite IH. pose proof (split_nonempty c t) as Hne.
    destruct (Posix.split c t); [contradiction | reflexivity].
Qed.

Lemma fold_normalizeStep_empty (b : bool) (segs stack : list string) :
  fold_left (Posix.normalizeStep b) (segs ++ [EmptyString]) stack
  = fold_left (Posix.normalizeStep b) segs stack.
Proof. rewrite fold_left_app. reflexivity. Qed.

(** The segments of a path that does not climb above its root only add to
    the segments kept before them. *)
Lemma fold_normalizeStep_inside (b : bool) (segs : list string) :
  forall (normals base : list string),
    dotdotFree normals ->
    Posix.climbs (List.length normals) segs = false ->
    exists normals',
      fold_left (Posix.normalizeStep b) segs (normals ++ base) = normals' ++ base.
Proof.
  induction segs as [|seg rest IH]; intros normals base Hfree Hclimb.
  - exists normals. reflexivity.
  - cbn [fold_left]. unfold Posix.normalizeStep at 2.
    cbn [Posix.climbs] in Hclimb.
    destruct (seg =? EmptyString)%string eqn:He.
    { apply IH; [exact Hfree|].
      apply String.eqb_eq in He. subst seg. exact Hclimb. }
    destruct (seg =? ".")%string eqn:Hd.
    { apply IH; [exact Hfree|].
      apply String.eqb_eq in Hd. subst seg. exact Hclimb. }
    destruct (seg =? "..")%string eqn:Hdd.
    + destruct normals as [|n ns]; [discriminate Hclimb|].
      cbn [app]. inversion Hfree as [|? ? Hn Hns]; subst.
      apply String.eqb_neq in Hn. rewrite Hn.
      apply IH; [exact Hns | exact Hclimb].
    + change (seg :: normals ++ base) with ((seg :: normals) ++ base).
      apply IH; [|exact Hclimb].
      constructor; [|exact Hfree]. now apply String.eqb_neq.
Qed.

Lemma join_app_prefix (A B : list string) :
  String.prefix (Posix.join "/" A) (Posix.join "/" (A ++ B)) = true.
Proof.
  induction A as [|x A IH].
  - cbn. destruct (Posix.join "/" B); reflexivity.
  - destruct A as [|y A'].
    + cbn [app]. apply PathValidationSpec.join_starts_with_first.
    + change (Posix.join "/" (x :: y :: A'))
        with (x ++ "/" ++ Posix.join "/" (y :: A'))%string.
      change (Posix.join "/" ((x :: y :: A') ++ B))
        with (x ++ "/" ++ Posix.join "/" ((y :: A') ++ B))%string.
      rewrite !prefix_append_same. exact IH.
Qed.

Lemma resolveLoop_acc (cwd : string) (l : list string) :
  forall x,
    PosixResolve.resolveLoop l cwd x
    = ((fst (PosixResolve.resolveLoop l cwd EmptyString) ++ x)%string,
       snd (PosixResolve.resolveLoop l cwd EmptyString)).
Proof.
  induction l as [|p rest IH]; intros x; cbn [PosixResolve.resolveLoop].
  - destruct (cwd =? EmptyString)%string; cbn [fst snd]; [reflexivity|].
    now rewrite !append_assoc.
  - destruct (p =? EmptyString)%string; [apply IH|].
    destruct (Posix.isAbsolute p); cbn [fst snd].
    + now rewrite !append_assoc.
    + rewrite (IH (p ++ "/" ++ x)%string), (IH (p ++ "/" ++ EmptyString)%string).
      cbn [fst snd]. now rewrite !append_assoc.
Qed.

Lemma resolveLoop_absolute (cwd : string) (l : list string) :
  Posix.isAbsolute cwd = true ->
  snd (PosixResolve.resolveLoop l cwd EmptyString) = true
  /\ exists P0, fst (PosixResolve.resolveLoop l cwd EmptyString) = (P0 ++ "/")%string.
Proof.
  intros Hcwd.
  assert (Hne : (cwd =? EmptyString)%string = false).
  { destruct cwd; [discriminate Hcwd | reflexivity]. }
  induction l as [|p rest [IHabs [Q0 IHp]]]; cbn [PosixResolve.resolveLoop].
  - rewrite Hne. cbn [fst snd]. split; [exact Hcwd|]. exists cwd. reflexivity.
  - destruct (p =? EmptyString)%string; [split; [exact IHabs | exists Q0; exact IHp]|].
    destruct (Posix.isAbsolute p); cbn [fst snd].
    + split; [reflexivity|]. exists p. reflexivity.
    + rewrite resolveLoop_acc. cbn [fst snd]. split; [exact IHabs|].
      rewrite IHp. exists (Q0 ++ "/" ++ p)%string.
      now rewrite !append_assoc.
Qed.

(** In an absolute working directory, resolving a base with a relative path
    that stays inside gives a path that begins with the resolved base. *)
Lemma resolve_inside (cwd basePath relativePath : string) :
  Posix.isAbsolute cwd = true ->
  Posix.isAbsolute relativePath = false ->
  Posix.climbsAboveRoot relativePath = false ->
  Js.startsWith (PosixResolve.resolve cwd [basePath; relativePath])
                (PosixResolve.resolve cwd [basePath]) = true.
Proof.
  intros Hcwd Hrel Hclimb. unfold Js.startsWith, PosixResolve.resolve.
  change (rev [basePath; relativePath]) with [relativePath; basePath].
  change (rev [basePath]) with [basePath].
  assert (Hstep : PosixResolve.resolveLoop [relativePath; basePath] cwd EmptyString
                  = if (relativePath =? EmptyString)%string
                    then PosixResolve.resolveLoop [basePath] cwd EmptyString
                    else PosixResolve.resolveLoop [basePath] cwd
                           (relativePath ++ "/" ++ EmptyString)%string).
  { change (PosixResolve.resolveLoop [relativePath; basePath] cwd EmptyString)
      with (if (relativePath =? EmptyString)%string
            then PosixResolve.resolveLoop [basePath] cwd EmptyString
            else if Posix.isAbsolute relativePath
                 then ((relativePath ++ "/" ++ EmptyString)%string, true)
                 else PosixResolve.resolveLoop [basePath] cwd
                        (relativePath ++ "/" ++ EmptyString)%string).
    rewrite Hrel. reflexivity. }
  rewrite Hstep. clear Hstep.
  destruct (relativePath =? EmptyString)%string eqn:Hempty.
  { destruct (PosixResolve.resolveLoop [basePath] cwd EmptyString) as [P a].
    apply prefix_refl. }
  destruct (resolveLoop_absolute cwd [basePath] Hcwd) as [Habs [P0 HP]].
  rewrite (resolveLoop_acc cwd [basePath] (relativePath ++ "/" ++ EmptyString)%string).
  destruct (PosixResolve.resolveLoop [basePath] cwd EmptyString) as [P a].
  cbn [fst snd] in *. subst a P. cbn [negb].
  assert (Hbase : Posix.normalizeString (P0 ++ "/") false
                  = Posix.join "/"
                      (rev (fold_left (Posix.normalizeStep false)
                                      (Posix.split slash P0) []))).
  { unfold Posix.normalizeString.
    change (P0 ++ "/")%string with (P0 ++ String slash EmptyString)%string.
    rewrite split_append. cbn [Posix.split].
    now rewrite fold_normalizeStep_empty. }
  destruct (fold_normalizeStep_inside false (Posix.split slash relativePath) []
              (fold_left (Posix.normalizeStep false) (Posix.split slash P0) []))
    as [new Hnew]; [constructor | exact Hclimb |].
  cbn [app] in Hnew.
  assert (Hfull : Posix.normalizeString
                    ((P0 ++ "/") ++ relativePath ++ "/" ++ EmptyString) false
                  = Posix.join "/"
                      (rev (fold_left (Posix.normalizeStep false)
                                      (Posix.split slash P0) [])
                       ++ rev new)).
  { unfold Posix.normalizeString.
    replace ((P0 ++ "/") ++ relativePath ++ "/" ++ EmptyString)%string
      with (P0 ++ String slash (relativePath ++ String slash EmptyString))%string
      by (now rewrite append_assoc).
    rewrite !split_append. cbn [Posix.split].
    rewrite app_assoc, fold_normalizeStep_empty, fold_left_app.
    rewrite Hnew. now rewrite rev_app_distr. }
  rewrite Hbase, Hfull.
  rewrite (prefix_append_same "/"). apply join_app_prefix.
Qed.

Lemma isSafePath_posix_inside (relativePath : string) :
  isSafePath Posix.path relativePath = true ->
  Posix.isAbsolute relativePath = false
  /\ Posix.climbsAboveRoot relativePath = false.
Proof.
  unfold isSafePath. rewrite PathValidationSpec.validateEntryPath_throws.
  cbn [normalize isAbsolute sep Posix.path].
  destruct (Posix.isAbsolute (Posix.normalize relativePath)) eqn:Habs;
    [discriminate|].
  destruct (Js.startsWith (Posix.normalize relativePath) "..") eqn:Hdots;
    [discriminate|].
  intros _.
  assert (Hrel : Posix.isAbsolute relativePath = false).
  { destruct (Posix.isAbsolute relativePath) eqn:H; [|reflexivity].
    rewrite (PathValidationSpec.posix_normalize_keeps_absolute _ H) in Habs.
    discriminate. }
  split; [exact Hrel|].
  destruct (Posix.climbsAboveRoot relativePath) eqn:H; [|reflexivity].
  rewrite (PathValidationSpec.posix_normalize_climbing _ Hrel H) in Hdots.
  discriminate.
Qed.

(** X3.  On a POSIX platform with an absolute working directory,
    [resolveExtractPath] returns the resolved path exactly for the paths that
    [validateEntryPath] accepts: its second check, that the resolved path
    begins with the resolved base, never refuses an accepted path. *)
Theorem resolveExtractPath_accepts_validated
    (cwd basePath relativePath archivePath : string) :
  Posix.isAbsolute cwd = true ->
  resolveExtractPath Posix.path (PosixResolve.resolve cwd)
                     basePath relativePath archivePath
  = if isSafePath Posix.path relativePath
    then Return (PosixResolve.resolve cwd [basePath; relativePath])
    else Throw (PathTraversalError relativePath archivePath).
Proof.
  intros Hcwd. unfold resolveExtractPath.
  rewrite isSafePath_validate.
  destruct (isSafePath Posix.path relativePath) eqn:Hsafe; [|reflexivity].
  destruct (isSafePath_posix_inside relativePath Hsafe) as [Hrel Hclimb].
  rewrite (resolve_inside cwd basePath relativePath Hcwd Hrel Hclimb).
  reflexivity.
Qed.

Lemma resolveExtractPath_accepts_validated_witness :
  Posix.isAbsolute "/work" = true
  /\ resolveExtractPath Posix.path (PosixResolve.resolve "/work")
       "out" "sub/../b.txt" "/data/a.zip"
     = Return "/work/out/b.txt".
Proof.
  split; [reflexivity|].
  rewrite (resolveExtractPath_accepts_validated "/work" "out" "sub/../b.txt"
             "/data/a.zip" eq_refl).
  reflexivity.
Defined.

End PathValidationMore.

(* ================================================================== *)
(** ** Further properties of the error classifier *)
(* ================================================================== *)

Module ErrorsMore.
Import Errors.

Lemma prefix_trans (a b s : string) :
  String.prefix a b = true -> String.prefix b s = true -> String.prefix a s = true.
Proof.
  revert a s. induction b as [|c b IH]; intros a s Hab Hbs.
  - destruct a; [destruct s; reflexivity | discriminate Hab].
  - destruct s as [|d s]; [discriminate Hbs|].
    cbn [String.prefix] in Hbs.
    destruct (ascii_dec c d) as [<-|]; [|discriminate].
    destruct a as [|x a]; [reflexivity|].
    cbn [String.prefix] in Hab |- *.
    destruct (ascii_dec x c); [|discriminate].
    exact (IH a s Hab Hbs).
Qed.

Lemma includes_of_prefix (b s a : string) :
  String.prefix b s = true -> Js.includes b a = true -> Js.includes s a = true.
Proof.
  revert s. induction b as [|c b IH]; intros s Hbs Hba.
  - cbn [Js.includes] in Hba. rewrite orb_false_r in Hba.
    destruct a; [|discriminate Hba].
    destruct s; reflexivity.
  - destruct s as [|d s]; [discriminate Hbs|].
    cbn [Js.includes] in Hba |- *.
    apply orb_true_iff in Hba as [Hpre | Hin].
    + rewrite (prefix_trans _ _ _ Hpre Hbs). reflexivity.
    + cbn [String.prefix] in Hbs.
      destruct (ascii_dec c d); [|discriminate].
      rewrite (IH s Hbs Hin). apply orb_true_r.
Qed.

(** Containment of strings is transitive. *)
Lemma includes_trans (s b a : string) :
  Js.includes s b = true -> Js.includes b a = true -> Js.includes s a = true.
Proof.
  induction s as [|d s IH]; intros Hsb Hba; cbn [Js.includes] in Hsb.
  - rewrite orb_false_r in Hsb. exact (includes_of_prefix b _ a Hsb Hba).
  - apply orb_true_iff in Hsb as [Hpre | Hin].
    + exact (includes_of_prefix b _ a Hpre Hba).
    + cbn [Js.includes]. rewrite (IH Hin Hba). apply orb_true_r.
Qed.

(** X4.  The row of the stderr table for "The system cannot find the file"
    is never selected: whenever its pattern matches, the pattern "Cannot find
    the file" of the row before it matches too.  No stderr is classified with
    the message of that row. *)
Theorem system_cannot_find_row_is_shadowed (stderr : string) (c : ArchiveErrorCode) :
  parseStderrForError stderr <> Some (c, "System cannot find the file").
Proof.
  assert (Hshadow :
            Js.testIgnoreCase "The system cannot find the file" stderr = true ->
            Js.testIgnoreCase "Cannot find the file" stderr = true).
  { unfold Js.testIgnoreCase. intros H.
    apply (includes_trans _ _ _ H). reflexivity. }
  unfold parseStderrForError, STDERR_PATTERNS, patternTest.
  cbn [firstMatch code message pattern].
  repeat match goal with
         | |- (if ?t then _ else _) <> _ =>
             let E := fresh "E" in
             destruct t eqn:E;
             [ intros H; inversion H;
               unfold patternTest in *; cbn [pattern] in *;
               match goal with
               | E1 : Js.testIgnoreCase "Cannot find the file" stderr = false,
                 E2 : Js.testIgnoreCase "The system cannot find the file" stderr = true
                 |- _ => rewrite (Hshadow E2) in E1; discriminate E1
               end
             | ]
         end.
  discriminate.
Qed.

End ErrorsMore.

(* ================================================================== *)
(** ** Further properties of the listing parser *)
(* ================================================================== *)

Module SltParserMore.
Import Types SltParser SltStream SltParserSpec.
Local Open Scope list_scope.

Lemma path_setKey (e : SltFileEntry) (key value : string) :
  SltParser.path (setKey e key value)
  = if (key =? "Path")%string then Some value else SltParser.path e.
Proof.
  unfold setKey.
  repeat match goal with
         | |- context [(key =? ?k)%string] => destruct (key =? k)%string
         end; reflexivity.
Qed.

Lemma encrypted_setKey (e : SltFileEntry) (key value : string) :
  SltParser.encrypted (setKey e key value)
  = if (key =? "Encrypted")%string then Some value else SltParser.encrypted e.
Proof.
  unfold setKey.
  destruct (key =? "Encrypted")%string eqn:Hk.
  - apply String.eqb_eq in Hk. subst key. reflexivity.
  - repeat match goal with
           | |- context [(key =? ?k)%string] => destruct (key =? k)%string
           end; try reflexivity; discriminate.
Qed.

Section EntryInvariant.
Variable now : JsDate.
Variable dateParse : string -> option JsDate.
(** [Q] holds of the entry under construction, [R] of the records it
    converts to, and [L] of the lines read. *)
Variable Q : SltFileEntry -> Prop.
Variable R : FileInfo -> Prop.
Variable L : string -> Prop.
Hypothesis Q_empty : Q emptyEntry.
Hypothesis Q_convert :
  forall e f, Q e -> convertToFileInfo now dateParse e = Some f -> R f.
Hypothesis Q_set :
  forall line key value e,
    L line -> keyValueOf line = Some (key, value) -> Q e -> Q (setKey e key value).

Lemma flush_inv (fs : list FileInfo) (e : SltFileEntry) :
  Forall R fs -> Q e -> Forall R (flush now dateParse fs e).
Proof.
  intros Hfs He. unfold flush.
  destruct (convertToFileInfo now dateParse e) as [f|] eqn:Hf; [|exact Hfs].
  apply Forall_app. split; [exact Hfs|].
  constructor; [exact (Q_convert e f He Hf) | constructor].
Qed.

Lemma fold_inv (lines : list string) :
  forall fs e,
    Forall L lines -> Forall R fs -> Q e ->
    Forall R (fst (fold_left (parseLine now dateParse) lines (fs, e)))
    /\ Q (snd (fold_left (parseLine now dateParse) lines (fs, e))).
Proof.
  induction lines as [|line rest IH]; intros fs e Hlines Hfs He; cbn [fold_left].
  - split; assumption.
  - inversion Hlines as [|? ? Hline Hrest]; subst.
    rewrite parseLine_keyValue.
    destruct (Js.trim line =? EmptyString)%string.
    + apply IH; [exact Hrest | now apply flush_inv | exact Q_empty].
    + destruct (keyValueOf line) as [[key value]|] eqn:Hkv.
      * apply IH; [exact Hrest | exact Hfs |].
        exact (Q_set line key value e Hline Hkv He).
      * now apply IH.
Qed.

Lemma parseSltOutput_inv (lines : list string) :
  Forall L lines -> Forall R (parseSltOutput now dateParse lines).
Proof.
  intros Hlines. unfold parseSltOutput.
  destruct (fold_inv lines [] emptyEntry Hlines) as [Hfs He];
    [constructor | exact Q_empty |].
  destruct (fold_left (parseLine now dateParse) lines ([], emptyEntry)) as [fs e].
  now apply flush_inv.
Qed.

End EntryInvariant.

(** Lines that carry no [Path] key give no record. *)
Lemma pathless_lines_give_no_record
    (now : JsDate) (dateParse : string -> option JsDate) (lines : list string) :
  lacksKey "Path" lines = true -> parseSltOutput now dateParse lines = [].
Proof.
  unfold lacksKey. rewrite forallb_forall. intros Hlacks.
  assert (Hall : Forall (fun _ : FileInfo => False)
                        (parseSltOutput now dateParse lines)).
  { apply (parseSltOutput_inv now dateParse
             (fun e => SltParser.path e = None) (fun _ => False)
             (fun line => In line lines)).
    - reflexivity.
    - intros e f He Hconv. unfold convertToFileInfo in Hconv.
      rewrite He in Hconv. discriminate.
    - intros line key value e Hline Hkv He.
      specialize (Hlacks line Hline). rewrite Hkv in Hlacks.
      apply negb_true_iff in Hlacks. now rewrite path_setKey, Hlacks.
    - apply Forall_forall. auto. }
  destruct (parseSltOutput now dateParse lines) as [|f rest]; [reflexivity|].
  inversion Hall as [|? ? Hf _]. destruct Hf.
Qed.

(** X5.  Every record produced by [parseSltString] has a non-empty filename
    that is the value of a [Path] line of the text, and an [encrypted] flag
    that is set; and a block without a path gives no record: lines between
    two blank lines, or ends of the text, that carry no [Path] key add
    nothing to the records of the lines before and after them. *)
Theorem parsed_filename_comes_from_a_path_line
    (now : JsDate) (dateParse : string -> option JsDate) (output : string) :
  (forall f, In f (parseSltString now dateParse output) ->
     filename f <> EmptyString
     /\ Types.encrypted f <> None
     /\ exists line, In line (splitLines output)
                     /\ keyValueOf line = Some ("Path"%string, filename f))
  /\ (forall l1 chunk l2,
        splitLines output = l1 ++ chunk ++ l2 ->
        endsBlank l1 = true -> startsBlank l2 = true ->
        lacksKey "Path" chunk = true ->
        parseSltOutput now dateParse chunk = []
        /\ parseSltString now dateParse output
           = parseSltOutput now dateParse l1 ++ parseSltOutput now dateParse l2).
Proof.
  split.
  - intros f Hin.
    set (lines := splitLines output).
    set (Q := fun e : SltFileEntry =>
                forall p, SltParser.path e = Some p ->
                          exists line, In line lines
                                       /\ keyValueOf line = Some ("Path"%string, p)).
    set (R := fun g : FileInfo =>
                filename g <> EmptyString
                /\ Types.encrypted g <> None
                /\ exists line, In line lines
                                /\ keyValueOf line = Some ("Path"%string, filename g)).
    assert (Hall : Forall R (parseSltOutput now dateParse lines)).
    { apply (parseSltOutput_inv now dateParse Q R (fun line => In line lines)).
      - intros p Hp. discriminate Hp.
      - intros e g He Hconv. unfold convertToFileInfo in Hconv.
        destruct (SltParser.path e) as [p|] eqn:Hp; [|discriminate].
        destruct (Js.truthy p) eqn:Htruthy; cbn [negb] in Hconv; [|discriminate].
        destruct (match attributes e with
                  | Some a => Js.includes a "D"
                  | None => false
                  end); [discriminate|].
        injection Hconv as <-. unfold R. cbn [filename Types.encrypted].
        split; [|split; [discriminate | exact (He p Hp)]].
        intros ->. discriminate Htruthy.
      - intros line key value e Hline Hkv He p Hp.
        rewrite path_setKey in Hp.
        destruct (key =? "Path")%string eqn:Hk; [|exact (He p Hp)].
        apply String.eqb_eq in Hk. subst key. injection Hp as <-.
        exists line. split; assumption.
      - apply Forall_forall. auto. }
    rewrite Forall_forall in Hall. exact (Hall f Hin).
  - intros l1 chunk l2 Hsplit H1 H2 Hlacks.
    pose proof (pathless_lines_give_no_record now dateParse chunk Hlacks) as Hnone.
    split; [exact Hnone|].
    change (parseSltString now dateParse output)
      with (parseSltOutput now dateParse (splitLines output)).
    rewrite Hsplit, (parseSltOutput_chunk now dateParse l1 chunk l2 H1 H2), Hnone.
    reflexivity.
Qed.

Lemma parsed_filename_comes_from_a_path_line_witness :
  let a := mkFileInfo 0 (JNum 0) None "a.txt" (Some false) None in
  splitLines Fixtures.pathlessListing = ["Path = a.txt"; ""; "Size = 3"]%string
  /\ parseSltString 0 (fun _ => None) Fixtures.pathlessListing = [a]
  /\ parseSltOutput 0 (fun _ => None) ["Size = 3"]%string = []
  /\ exists line, In line (splitLines Fixtures.pathlessListing)
                  /\ keyValueOf line = Some ("Path"%string, filename a).
Proof.
  intros a.
  destruct (parsed_filename_comes_from_a_path_line 0 (fun _ => None)
              Fixtures.pathlessListing) as [Hpath Hchunk].
  destruct (Hchunk ["Path = a.txt"; ""]%string ["Size = 3"]%string []
                   eq_refl eq_refl eq_refl eq_refl) as [Hnone Hall].
  split; [reflexivity|]. split; [exact Hall|]. split; [exact Hnone|].
  destruct (Hpath a) as (_ & _ & Hline); [left; reflexivity | exact Hline].
Defined.

(** X6.  A listing is reported as encrypted only when one of its lines reads
    [Encrypted = +]: without such a line [hasEncryptedFiles] is false on the
    parsed records. *)
Theorem encrypted_needs_a_marker_line
    (now : JsDate) (dateParse : string -> option JsDate) (output : string) :
  hasEncryptedFiles (parseSltString now dateParse output) = true ->
  exists line, In line (splitLines output)
               /\ keyValueOf line = Some ("Encrypted"%string, "+"%string).
Proof.
  intros Henc.
  set (lines := splitLines output).
  set (Q := fun e : SltFileEntry =>
              SltParser.encrypted e = Some "+"%string ->
              exists line, In line lines
                           /\ keyValueOf line = Some ("Encrypted"%string, "+"%string)).
  set (R := fun g : FileInfo =>
              Types.encrypted g = Some true ->
              exists line, In line lines
                           /\ keyValueOf line = Some ("Encrypted"%string, "+"%string)).
  assert (Hall : Forall R (parseSltOutput now dateParse lines)).
  { apply (parseSltOutput_inv now dateParse Q R (fun line => In line lines)).
    - intros H. discriminate H.
    - intros e g He Hconv. unfold convertToFileInfo in Hconv.
      destruct (SltParser.path e) as [p|]; [|discriminate].
      destruct (negb (Js.truthy p)); [discriminate|].
      destruct (match attributes e with
                | Some a => Js.includes a "D"
                | None => false
                end); [discriminate|].
      injection Hconv as <-. unfold R. intros Hg. cbn [Types.encrypted] in Hg.
      apply He. destruct (SltParser.encrypted e) as [v|]; [|discriminate].
      injection Hg as Hv. apply String.eqb_eq in Hv. now subst v.
    - intros line key value e Hline Hkv He Hv.
      rewrite encrypted_setKey in Hv.
      destruct (key =? "Encrypted")%string eqn:Hk; [|exact (He Hv)].
      apply String.eqb_eq in Hk. subst key. injection Hv as ->.
      exists line. split; assumption.
    - apply Forall_forall. auto. }
  unfold hasEncryptedFiles in Henc.
  apply existsb_exists in Henc as [g [Hg Hflag]].
  rewrite Forall_forall in Hall. apply (Hall g Hg).
  destruct (Types.encrypted g) as [[|]|]; try discriminate. reflexivity.
Qed.

Lemma encrypted_needs_a_marker_line_witness :
  hasEncryptedFiles (parseSltString 0 (fun _ => None) Fixtures.encryptedListing) = true
  /\ exists line, In line (splitLines Fixtures.encryptedListing)
                  /\ keyValueOf line = Some ("Encrypted"%string, "+"%string).
Proof.
  split; [reflexivity|].
  apply (encrypted_needs_a_marker_line 0 (fun _ => None) Fixtures.encryptedListing).
  reflexivity.
Defined.

(** *** Blocks *)

(** X7.  Blocks are parsed independently: for lines [l1], a blank line and
    lines [l2], the records of the whole are the records of [l1] followed by
    those of [l2], in the streaming parser and in the one-shot parser
    alike. *)
Theorem blocks_are_parsed_independently
    (now : JsDate) (dateParse : string -> option JsDate)
    (l1 l2 : list string) (blank : string) :
  Js.trim blank = EmptyString ->
  parseSltOutput now dateParse (l1 ++ blank :: l2)
  = parseSltOutput now dateParse l1 ++ parseSltOutput now dateParse l2
  /\ forall output,
       splitLines output = l1 ++ blank :: l2 ->
       parseSltString now dateParse output
       = parseSltOutput now dateParse l1 ++ parseSltOutput now dateParse l2.
Proof.
  intros Hblank.
  assert (Hlines : parseSltOutput now dateParse (l1 ++ blank :: l2)
                   = parseSltOutput now dateParse l1
                     ++ parseSltOutput now dateParse l2).
  { unfold parseSltOutput. rewrite fold_left_app. cbn [fold_left].
    destruct (fold_left (parseLine now dateParse) l1 ([], emptyEntry)) as [fs e].
    rewrite parseLine_keyValue, Hblank. cbn [String.eqb].
    rewrite <- (app_nil_r (flush now dateParse fs e)) at 1.
    rewrite fold_parseLine_app.
    destruct (fold_left (parseLine now dateParse) l2 ([], emptyEntry)) as [fs2 e2].
    cbn [fst snd]. apply flush_app. }
  split; [exact Hlines|].
  intros output Hsplit. unfold parseSltString. rewrite Hsplit. exact Hlines.
Qed.

Lemma blocks_are_parsed_independently_witness :
  parseSltString 0 (fun _ => None) Fixtures.plainListing
  = parseSltOutput 0 (fun _ => None) ["Path = a.txt"; "Size = 12"]
    ++ parseSltOutput 0 (fun _ => None) ["Path = sub/b.txt"; "Size = 7"; ""].
Proof.
  apply (blocks_are_parsed_independently 0 (fun _ => None)
           ["Path = a.txt"; "Size = 12"] ["Path = sub/b.txt"; "Size = 7"; ""]
           EmptyString eq_refl).
  reflexivity.
Defined.

(** X8.  [hasEncryptedFiles] and [findEncryptedFile] agree: the first is
    true exactly when the second finds a record, and the record found is
    encrypted and is the first such record of the list. *)
Theorem hasEncryptedFiles_agrees_with_find (files : list FileInfo) :
  match findEncryptedFile files with
  | Some f =>
      hasEncryptedFiles files = true
      /\ Types.encrypted f = Some true
      /\ exists before after,
           files = before ++ f :: after /\ hasEncryptedFiles before = false
  | None => hasEncryptedFiles files = false
  end.
Proof.
  unfold findEncryptedFile, hasEncryptedFiles.
  induction files as [|g rest IH]; cbn [find existsb].
  - reflexivity.
  - destruct (Types.encrypted g) as [[|]|] eqn:Hg; cbn [orb].
    + split; [reflexivity|]. split; [exact Hg|].
      exists [], rest. split; reflexivity.
    + destruct (find _ rest) as [f|].
      * destruct IH as [Hany [Hf [before [after [Hsplit Hnone]]]]].
        split; [exact Hany|]. split; [exact Hf|].
        exists (g :: before), after. split; [now rewrite Hsplit|].
        cbn [existsb]. now rewrite Hg, Hnone.
      * exact IH.
    + destruct (find _ rest) as [f|].
      * destruct IH as [Hany [Hf [before [after [Hsplit Hnone]]]]].
        split; [exact Hany|]. split; [exact Hf|].
        exists (g :: before), after. split; [now rewrite Hsplit|].
        cbn [existsb]. now rewrite Hg, Hnone.
      * exact IH.
Qed.

End SltParserMore.

(* ================================================================== *)
(** ** Further properties of the worker *)
(* ================================================================== *)

Module ArchiveOpsMore.
Import Errors Types ArchiveOps Invariants.
Local Open Scope list_scope.

Ltac unfold_ops :=
  unfold bind, modify, requireIdle, getSelf, verifyArchive, ensureDirectoryExists,
    requireSources, begin, spawnProcess, parseListing, elapse, cleanup, emit,
    throw, ret, getClock.

(** X9.  A worker that holds an operation refuses every new call with
    OperationInProgressError naming the operation it holds; the call has no
    external effect and leaves the held operation and its process as they
    are. *)
Theorem busy_worker_refuses_every_call (env : Env) (call : Call) (st : St) :
  activeOp (self st) <> UNDEFINED ->
  snd (perform env call st)
    = Throw (Reject (OperationInProgressError
                       (ArchiveOpType_name (activeOp (self st)))))
  /\ effects (fst (perform env call st)) = effects st
  /\ activeOp (self (fst (perform env call st))) = activeOp (self st)
  /\ process (self (fst (perform env call st))) = process (self st).
Proof.
  intros Hbusy.
  assert (Heqb : ArchiveOpType_eqb (activeOp (self st)) UNDEFINED = false).
  { destruct (activeOp (self st)); [contradiction | reflexivity..]. }
  destruct call; cbn [perform];
    unfold listEntries, extractSingle, decompress, compress, update; unfold_ops;
    cbn; rewrite Heqb; cbn; repeat split; reflexivity.
Qed.

Lemma busy_worker_refuses_every_call_witness :
  let st := mkSt (setActiveOp COMPRESS (self Fixtures.freshWorker)) [] 1000 in
  snd (perform (Fixtures.envListing Fixtures.plainListing) Fixtures.listA st)
    = Throw (Reject (OperationInProgressError "COMPRESS"))
  /\ effects (fst (perform (Fixtures.envListing Fixtures.plainListing)
                           Fixtures.listA st)) = [].
Proof.
  intros st.
  destruct (busy_worker_refuses_every_call
              (Fixtures.envListing Fixtures.plainListing) Fixtures.listA st)
    as (Hout & Heff & _); [discriminate|].
  split; [exact Hout | exact Heff].
Defined.

(** X10.  [cancel] is idempotent: a second call changes nothing and sends no
    further signal.  One call leaves the worker without an active operation,
    and on a worker that holds no process it sends no signal and keeps the
    status. *)
Theorem cancel_is_idempotent (st : St) :
  fst (cancel (fst (cancel st))) = fst (cancel st)
  /\ activeOp (self (fst (cancel st))) = UNDEFINED
  /\ (process (self st) = None ->
      effects (fst (cancel st)) = effects st
      /\ status (self (fst (cancel st))) = status (self st)).
Proof.
  unfold cancel. unfold_ops. destruct st as [w es t]. cbn.
  destruct w as [cfg s m p op t0 a]. cbn.
  destruct p as [[args k]|]; cbn.
  - destruct k; cbn; repeat split; discriminate.
  - repeat split.
Qed.


(** *** Results that are returned *)

Lemma rw_bind_dep {A : Type} (P : St -> ArchiveOpResult -> Prop)
    (c : M A) (k : A -> M ArchiveOpResult) :
  (forall a, (exists st st1, c st = (st1, Return a)) -> returnsWith P (k a)) ->
  returnsWith P (bind c k).
Proof.
  intros Hk st st' r H.
  apply ArchiveOpsSpec.bind_returns in H as [a [st1 [Hc H]]].
  exact (Hk a (ex_intro _ st (ex_intro _ st1 Hc)) st1 st' r H).
Qed.

Lemma rw_throw (P : St -> ArchiveOpResult -> Prop) (e : ArchiveError) :
  returnsWith P (throw e).
Proof. intros st st' r H. discriminate H. Qed.

Section Outcomes.
Variable env : Env.

Lemma rw_create_settled (message : string) (files : list FileInfo)
    (basePath : string) (exitCode : Z) :
  exitCode = 0 ->
  returnsWith settledSuccess (createSuccessResult env message files basePath exitCode).
Proof.
  intros -> st st' r H.
  unfold createSuccessResult, cleanup, bind, getClock, getSelf, modify, emit, ret in H.
  cbn in H.
  destruct (process (self st)) as [p|]; [destruct (killed p)|]; cbn in H;
    injection H as <- <-; repeat split.
Qed.

Ltac settled_step :=
  first
    [ apply rw_create_settled; assumption
    | apply rw_throw
    | apply rw_bind_dep; intros ? _
    | match goal with
      | |- returnsWith _ (if (?x =? 0)%Z then _ else _) =>
          destruct (Z.eqb_spec x 0)
      | |- returnsWith _ (if ?b then _ else _) => destruct b
      | |- returnsWith _ (match ?x with _ => _ end) => destruct x
      | |- returnsWith _ (let _ := _ in _) => cbv zeta
      end ].

Lemma settled_listEntries (archivePath : string) :
  returnsWith settledSuccess (listEntries env archivePath).
Proof. unfold listEntries. repeat settled_step. Qed.

Lemma settled_decompress (archivePath targetPath : string)
    (fileList : option (list string)) :
  returnsWith settledSuccess (decompress env archivePath targetPath fileList).
Proof. unfold decompress. repeat settled_step. Qed.

Lemma settled_compress (sourceFiles : list string) (archivePath : string)
    (level : CompressionLevel) :
  returnsWith settledSuccess (compress env sourceFiles archivePath level).
Proof. unfold compress. repeat settled_step. Qed.

Lemma settled_update (archivePath : string) (sourceFiles : list string) :
  returnsWith settledSuccess (update env archivePath sourceFiles).
Proof. unfold update. repeat settled_step. Qed.

(** X11.  A result is returned only for a process that exited with code 0:
    every result any operation returns has [success] set and exit code 0,
    and the worker that returned it is idle again, with status SUCCESS and
    the message of the result as its last message. *)
Theorem returned_result_is_a_success
    (call : Call) (st st' : St) (r : ArchiveOpResult) :
  perform env call st = (st', Return r) ->
  success r = true /\ exitCode r = Some 0
  /\ activeOp (self st') = UNDEFINED
  /\ status (self st') = ProcessStatus.SUCCESS
  /\ lastMessage (self st') = message r.
Proof.
  intros H. destruct call; cbn [perform] in H.
  - exact (settled_listEntries _ _ _ _ H).
  - exact (settled_decompress _ _ _ _ _ _ H).
  - exact (settled_compress _ _ _ _ _ _ H).
  - exact (settled_decompress _ _ _ _ _ _ H).
  - exact (settled_update _ _ _ _ _ H).
Qed.

(** *** The listing behind an extraction *)

Lemma listEntriesInternal_unencrypted (fullArchivePath : string)
    (st st' : St) (r : ArchiveOpResult) :
  listEntriesInternal env fullArchivePath st = (st', Return r) ->
  SltParser.hasEncryptedFiles (files r) = false.
Proof.
  unfold listEntriesInternal. unfold_ops. cbn.
  destruct (child env _) as [msg | code out err ms]; cbn.
  - unfold createSpawnError. unfold_ops. cbn.
    destruct (Js.includes msg "ENOENT"); discriminate.
  - destruct (exitCodeOf code =? 0); cbn; [|discriminate].
    destruct (SltParser.hasEncryptedFiles _) eqn:Henc; cbn; [discriminate|].
    intros H. injection H as _ <-. exact Henc.
Qed.

Lemma validateAllEntries_safe (path : PathModule) (entries : list FileInfo)
    (archivePath : string) :
  PathValidation.validateAllEntries path entries archivePath = Return tt ->
  Forall (fun f => PathValidation.isSafePath path (filename f) = true) entries.
Proof.
  induction entries as [|entry rest IH]; cbn [PathValidation.validateAllEntries].
  - constructor.
  - rewrite PathValidationMore.isSafePath_validate.
    destruct (PathValidation.isSafePath path (filename entry)) eqn:Hsafe;
      [|discriminate].
    intros H. constructor; [exact Hsafe | exact (IH H)].
Qed.

Lemma rw_create_files (P : St -> ArchiveOpResult -> Prop) (message : string)
    (listed : list FileInfo) (basePath : string) (exitCode : Z) :
  (forall st' r, files r = listed -> P st' r) ->
  returnsWith P (createSuccessResult env message listed basePath exitCode).
Proof.
  intros HP st st' r H. apply HP.
  unfold createSuccessResult, cleanup, bind, getClock, getSelf, modify, emit, ret in H.
  cbn in H.
  destruct (process (self st)) as [p|]; [destruct (killed p)|]; cbn in H;
    injection H as _ <-; reflexivity.
Qed.

(** X12.  A [decompress] (or [extractSingle]) that returns a result has
    extracted a listing that passed every check: the files of the result are
    not empty, none is encrypted, and every entry path is a safe path. *)
Theorem decompress_returns_checked_listing
    (archivePath targetPath : string) (fileList : option (list string))
    (st st' : St) (r : ArchiveOpResult) :
  decompress env archivePath targetPath fileList st = (st', Return r) ->
  files r <> []
  /\ SltParser.hasEncryptedFiles (files r) = false
  /\ Forall (fun f => PathValidation.isSafePath (pathModule env) (filename f) = true)
            (files r).
Proof.
  revert st st' r.
  change (returnsWith (fun _ r => checkedListing (pathModule env) r)
            (decompress env archivePath targetPath fileList)).
  unfold decompress.
  do 5 (apply rw_bind_dep; intros ? _).
  apply rw_bind_dep. intros listResult [st0 [st1 Hlist]].
  apply listEntriesInternal_unencrypted in Hlist.
  destruct (List.length (files listResult) =? 0)%nat eqn:Hlen; [apply rw_throw|].
  apply rw_bind_dep. intros [] [sa [sb Hlift]].
  assert (Hall : PathValidation.validateAllEntries (pathModule env) (files listResult)
                   (path_resolve env archivePath) = Return tt).
  { destruct (PathValidation.validateAllEntries _ _ _) as [[]|e];
      [reflexivity | discriminate Hlift]. }
  apply validateAllEntries_safe in Hall.
  assert (Hchecked : forall (st' : St) r, files r = files listResult ->
                                   checkedListing (pathModule env) r).
  { intros _ r Hr. unfold checkedListing. rewrite Hr.
    split; [|split; assumption].
    destruct (files listResult); [discriminate Hlen | discriminate]. }
  cbv zeta.
  do 3 (apply rw_bind_dep; intros ? _).
  destruct (child env _) as [msg | code out err ms].
  - apply rw_bind_dep; intros ? _. apply rw_throw.
  - apply rw_bind_dep; intros ? _. cbv zeta.
    destruct (exitCodeOf code =? 0).
    + apply rw_create_files. exact Hchecked.
    + apply rw_bind_dep; intros ? _. apply rw_throw.
Qed.

(** X13.  An archive whose listing holds no entry is refused: [decompress]
    rejects with EMPTY_ARCHIVE, spawns no extraction process and leaves the
    worker idle. *)
Theorem empty_archive_is_not_extracted
    (st : St) (archivePath targetPath : string)
    (fileList : option (list string)) (code : option Z)
    (stdout stderr : string) (elapsedMs : Z) :
  activeOp (self st) = UNDEFINED ->
  fs_access env (path_resolve env archivePath) = true ->
  toLowerCase (path_extname env (path_resolve env archivePath)) = ".zip"%string ->
  fs_access env (path_resolve env targetPath) = true
  \/ fs_mkdir env (path_resolve env targetPath) = None ->
  child env ["l"; "-slt"; path_resolve env archivePath]%string
    = RunClose code stdout stderr elapsedMs ->
  exitCodeOf code = 0 ->
  SltParser.parseSltString (clock st + elapsedMs) (dateParse env) stdout = [] ->
  (exists e,
     snd (decompress env archivePath targetPath fileList st) = Throw (Reject e)
     /\ err_code e = EMPTY_ARCHIVE)
  /\ activeOp (self (fst (decompress env archivePath targetPath fileList st)))
     = UNDEFINED
  /\ exists new,
       effects (fst (decompress env archivePath targetPath fileList st))
         = effects st ++ new
       /\ existsb isExtraction new = false.
Proof.
  intros Hidle Hacc Hext Hdir Hchild Hcode Hempty.
  unfold decompress, listEntriesInternal. unfold_ops. cbn.
  rewrite Hidle. cbn. rewrite Hacc. cbn. rewrite Hext. cbn.
  destruct (fs_access env (path_resolve env targetPath)) eqn:Hacc2.
  - cbn. rewrite Hchild. cbn. rewrite Hcode. cbn. rewrite Hempty. cbn.
    split; [eexists; split; reflexivity|]. split; [exact Hidle|].
    eexists. split; reflexivity.
  - destruct Hdir as [Hdir | Hdir]; [discriminate|].
    rewrite Hdir. cbn. rewrite Hchild. cbn. rewrite Hcode. cbn.
    rewrite Hempty. cbn.
    split; [eexists; split; reflexivity|]. split; [exact Hidle|].
    rewrite <- app_assoc. eexists. split; reflexivity.
Qed.

End Outcomes.

Lemma returned_result_is_a_success_witness :
  exists r st',
    perform (Fixtures.envListing Fixtures.plainListing) Fixtures.listA
            Fixtures.freshWorker = (st', Return r)
    /\ success r = true /\ exitCode r = Some 0
    /\ activeOp (self st') = UNDEFINED.
Proof.
  eexists. eexists. split; [vm_compute; reflexivity|].
  destruct (returned_result_is_a_success
              (Fixtures.envListing Fixtures.plainListing) Fixtures.listA
              Fixtures.freshWorker
              (fst (perform (Fixtures.envListing Fixtures.plainListing)
                            Fixtures.listA Fixtures.freshWorker))
              (match snd (perform (Fixtures.envListing Fixtures.plainListing)
                            Fixtures.listA Fixtures.freshWorker) with
               | Return r => r
               | Throw _ => Fixtures.someResult
               end))
    as (Hs & He & Ha & _); [vm_compute; reflexivity|].
  split; [exact Hs|]. split; [exact He | exact Ha].
Defined.


Lemma decompress_returns_checked_listing_witness :
  exists r,
    snd (decompress (Fixtures.envListing Fixtures.plainListing)
                    "/data/a.zip" "/out" None Fixtures.freshWorker) = Return r
    /\ map filename (files r) = ["a.txt"; "sub/b.txt"]%string
    /\ files r <> []
    /\ SltParser.hasEncryptedFiles (files r) = false.
Proof.
  eexists. split; [vm_compute; reflexivity|]. split; [reflexivity|].
  destruct (decompress_returns_checked_listing
              (Fixtures.envListing Fixtures.plainListing)
              "/data/a.zip" "/out" None Fixtures.freshWorker
              (fst (decompress (Fixtures.envListing Fixtures.plainListing)
                      "/data/a.zip" "/out" None Fixtures.freshWorker))
              (match snd (decompress (Fixtures.envListing Fixtures.plainListing)
                            "/data/a.zip" "/out" None Fixtures.freshWorker) with
               | Return r => r
               | Throw _ => Fixtures.someResult
               end))
    as (Hne & Henc & _); [vm_compute; reflexivity|].
  split; [exact Hne | exact Henc].
Defined.

Lemma empty_archive_is_not_extracted_witness :
  let env := Fixtures.envListing EmptyString in
  (exists e,
     snd (decompress env "/data/a.zip" "/out" None Fixtures.freshWorker)
       = Throw (Reject e)
     /\ err_code e = EMPTY_ARCHIVE)
  /\ activeOp (self (fst (decompress env "/data/a.zip" "/out" None
                            Fixtures.freshWorker))) = UNDEFINED.
Proof.
  intros env.
  destruct (empty_archive_is_not_extracted env Fixtures.freshWorker
              "/data/a.zip" "/out" None (Some 0) EmptyString EmptyString 5)
    as (Hout & Hidle & _); try reflexivity.
  - left. reflexivity.
  - split; [exact Hout | exact Hidle].
Defined.

(** *** The worker after a settled call *)

Lemma idle_bind {A B : Type} (c : M A) (k : A -> M B) :
  keepsActiveOp c -> (forall a, settlesIdle idle (k a)) ->
  settlesIdle idle (bind c k).
Proof.
  intros Hc Hk st Hidle. unfold bind. specialize (Hc st).
  destruct (c st) as [st1 [a|e]] eqn:Hrun; cbn in *.
  - apply Hk. unfold idle. rewrite Hc. exact Hidle.
  - destruct e; [rewrite Hc; exact Hidle | exact I].
Qed.

Lemma any_bind {A B : Type} (c : M A) (k : A -> M B) :
  alwaysReturns c -> (forall a, settlesIdle (fun _ => True) (k a)) ->
  settlesIdle (fun _ => True) (bind c k).
Proof.
  intros Hc Hk st _. unfold bind. destruct (Hc st) as [a Ha].
  destruct (c st) as [st1 out]; cbn in Ha; subst out.
  apply Hk. exact I.
Qed.

Lemma idle_of_any {A : Type} (c : M A) :
  settlesIdle (fun _ => True) c -> settlesIdle idle c.
Proof. intros H st _. apply H. exact I. Qed.

Lemma idle_throw {A : Type} (e : ArchiveError) : settlesIdle idle (@throw A e).
Proof. intros st Hidle. exact Hidle. Qed.

Lemma any_cleanup_throw {A : Type} (e : ArchiveError) :
  settlesIdle (fun _ => True) (cleanup ;; @throw A e).
Proof.
  intros st _. unfold_ops. cbn.
  destruct (process (self st)) as [p|]; [destruct (killed p)|]; reflexivity.
Qed.

Section Idle.
Variable env : Env.
Hypothesis Hcloses : everyProcessCloses env.

Lemma any_create (message : string) (files : list FileInfo)
    (basePath : string) (exitCode : Z) :
  settlesIdle (fun _ => True) (createSuccessResult env message files basePath exitCode).
Proof.
  intros st _. unfold createSuccessResult. unfold_ops. cbn.
  destruct (process (self st)) as [p|]; [destruct (killed p)|]; reflexivity.
Qed.

Lemma any_sourceDesc (sourceFiles : list string) (k : string -> M ArchiveOpResult) :
  (forall a, settlesIdle (fun _ => True) (k a)) ->
  settlesIdle (fun _ => True) (bind (sourceDesc env sourceFiles) k).
Proof.
  intros Hk. unfold sourceDesc.
  destruct (1 <? List.length sourceFiles)%nat.
  - apply any_bind; [intros st; eexists; reflexivity | exact Hk].
  - destruct sourceFiles as [|first rest].
    + intros st _. exact I.
    + apply any_bind; [intros st; eexists; reflexivity | exact Hk].
Qed.

Lemma keeps_verifyArchive (archivePath : string) :
  keepsActiveOp (verifyArchive env archivePath).
Proof.
  intros st. unfold verifyArchive.
  destruct (negb (fs_access env archivePath)); [reflexivity|]. cbv zeta.
  destruct (negb _); reflexivity.
Qed.

Lemma keeps_ensureDirectoryExists (directoryPath : string) :
  keepsActiveOp (ensureDirectoryExists env directoryPath).
Proof.
  intros st. unfold ensureDirectoryExists.
  destruct (fs_access env directoryPath); [reflexivity|].
  destruct (fs_mkdir env directoryPath); reflexivity.
Qed.

Lemma keeps_requireSources (resolvedSourceFiles : list string) :
  keepsActiveOp (requireSources env resolvedSourceFiles).
Proof.
  intros st. unfold requireSources. cbv zeta.
  destruct (0 <? _)%nat; reflexivity.
Qed.

Lemma keeps_requireIdle : keepsActiveOp requireIdle.
Proof.
  intros st. unfold requireIdle. unfold_ops. cbn.
  destruct (negb _); reflexivity.
Qed.

Lemma keeps_modify (f : t -> t) :
  (forall w, activeOp (f w) = activeOp w) -> keepsActiveOp (modify f).
Proof. intros Hf st. cbn. apply Hf. Qed.

Lemma keeps_lift (c : Completion ArchiveError unit) : keepsActiveOp (lift c).
Proof. intros st. destruct c; reflexivity. Qed.

Lemma keeps_listEntriesInternal (fullArchivePath : string) :
  keepsActiveOp (listEntriesInternal env fullArchivePath).
Proof.
  intros st. unfold listEntriesInternal, createSpawnError. unfold_ops. cbn.
  destruct (child env _) as [msg | code out err ms]; cbn.
  - destruct (Js.includes msg "ENOENT"); reflexivity.
  - destruct (exitCodeOf code =? 0); cbn; [|reflexivity].
    destruct (SltParser.hasEncryptedFiles _); reflexivity.
Qed.

Lemma returns_spawnProcess (args : list string) : alwaysReturns (spawnProcess args).
Proof. intros st. eexists. reflexivity. Qed.

Lemma returns_modify (f : t -> t) : alwaysReturns (modify f).
Proof. intros st. eexists. reflexivity. Qed.

Lemma returns_elapse (ms : Z) : alwaysReturns (elapse ms).
Proof. intros st. eexists. reflexivity. Qed.

Lemma returns_parseListing (stdout : string) : alwaysReturns (parseListing env stdout).
Proof. intros st. eexists. reflexivity. Qed.

Lemma returns_begin (op : ArchiveOpType) (message : string) :
  alwaysReturns (begin op message).
Proof. intros st. eexists. reflexivity. Qed.

Ltac run_closes :=
  match goal with
  | |- settlesIdle _ (match child ?e ?args with _ => _ end) =>
      let H := fresh "Hrun" in
      destruct (Hcloses args) as (? & ? & ? & ? & H); rewrite H
  end.

Ltac idle_step :=
  first
    [ apply idle_throw
    | apply any_cleanup_throw
    | apply any_create
    | apply any_sourceDesc; intro
    | run_closes
    | apply idle_bind;
        [ first [ apply keeps_requireIdle | apply keeps_verifyArchive
                | apply keeps_ensureDirectoryExists | apply keeps_requireSources
                | apply keeps_listEntriesInternal | apply keeps_lift
                | apply keeps_modify; intro; reflexivity ]
        | intro ]
    | match goal with
      | |- settlesIdle idle (bind (begin _ _) _) => apply idle_of_any
      end
    | apply any_bind;
        [ first [ apply returns_begin | apply returns_spawnProcess
                | apply returns_modify | apply returns_elapse
                | apply returns_parseListing ]
        | intro ]
    | match goal with
      | |- settlesIdle _ (if ?b then _ else _) => destruct b
      | |- settlesIdle _ (let '(_, _) := ?x in _) => destruct x
      | |- settlesIdle _ (let _ := _ in _) => cbv zeta
      end ].

Lemma idle_listEntries (archivePath : string) :
  settlesIdle idle (listEntries env archivePath).
Proof. unfold listEntries. repeat idle_step. Qed.

Lemma idle_decompress (archivePath targetPath : string)
    (fileList : option (list string)) :
  settlesIdle idle (decompress env archivePath targetPath fileList).
Proof. unfold decompress. repeat idle_step. Qed.

Lemma idle_compress (sourceFiles : list string) (archivePath : string)
    (level : CompressionLevel) :
  settlesIdle idle (compress env sourceFiles archivePath level).
Proof. unfold compress. repeat idle_step. Qed.

Lemma idle_update (archivePath : string) (sourceFiles : list string) :
  settlesIdle idle (update env archivePath sourceFiles).
Proof. unfold update. repeat idle_step. Qed.

End Idle.

(** X14.  When every process the worker spawns reaches its close, a call on
    an idle worker that settles, with a result or with an error, leaves the
    worker idle, so that the next call is not refused as overlapping. *)
Theorem settled_call_leaves_worker_idle (env : Env) (call : Call) (st : St) :
  everyProcessCloses env ->
  activeOp (self st) = UNDEFINED ->
  (forall what, snd (perform env call st) <> Throw (Uncaught what)) ->
  activeOp (self (fst (perform env call st))) = UNDEFINED.
Proof.
  intros Hcloses Hidle Hsettles.
  assert (H : settlesIdle idle (perform env call)).
  { destruct call; cbn [perform].
    - apply idle_listEntries, Hcloses.
    - apply idle_decompress, Hcloses.
    - apply idle_compress, Hcloses.
    - apply idle_decompress, Hcloses.
    - apply idle_update, Hcloses. }
  specialize (H st Hidle).
  destruct (snd (perform env call st)) as [r | [e | what]];
    [exact H | exact H | destruct (Hsettles what eq_refl)].
Qed.

Lemma envClosing_closes (listing : string) :
  everyProcessCloses (Fixtures.envClosing listing).
Proof.
  intros args. unfold Fixtures.envClosing, Fixtures.envListing. cbn [child].
  destruct args as [|cmd rest]; [repeat eexists|].
  destruct (cmd =? "l")%string; repeat eexists.
Qed.

Lemma settled_call_leaves_worker_idle_witness :
  let env := Fixtures.envClosing Fixtures.encryptedListing in
  snd (perform env Fixtures.listA Fixtures.freshWorker)
    = Throw (Reject (EncryptedArchiveError "/data/a.zip"))
  /\ activeOp (self (fst (perform env Fixtures.listA Fixtures.freshWorker)))
     = UNDEFINED.
Proof.
  intros env. split; [vm_compute; reflexivity|].
  apply (settled_call_leaves_worker_idle env Fixtures.listA Fixtures.freshWorker).
  - apply envClosing_closes.
  - reflexivity.
  - intros what. vm_compute. discriminate.
Defined.

(** *** Archives that are not verified *)

(** X15.  Only [.zip] archives are processed: a call on an idle worker that
    names an archive whose extension, in lower case, is not [.zip] rejects
    with UNSUPPORTED_FORMAT, or with FILE_NOT_FOUND when the operation reads
    the archive and it cannot be accessed; nothing is spawned or created and
    the worker stays idle. *)
Theorem only_zip_archives_are_processed (env : Env) (call : Call) (st : St) :
  activeOp (self st) = UNDEFINED ->
  toLowerCase (path_extname env (path_resolve env (archivePathOf call)))
    <> ".zip"%string ->
  (exists e,
     snd (perform env call st) = Throw (Reject e)
     /\ err_code e
        = if fs_access env (path_resolve env (archivePathOf call))
             || ArchiveOpType_eqb (kindOf call) COMPRESS
          then UNSUPPORTED_FORMAT else FILE_NOT_FOUND)
  /\ effects (fst (perform env call st)) = effects st
  /\ activeOp (self (fst (perform env call st))) = UNDEFINED.
Proof.
  intros Hidle Hext. apply String.eqb_neq in Hext.
  destruct call; cbn [perform archivePathOf kindOf ArchiveOpType_eqb] in *;
    unfold listEntries, extractSingle, decompress, compress, update; unfold_ops;
    cbn; rewrite Hidle; cbn.
  - destruct (fs_access env (path_resolve env archivePath)); cbn;
      [rewrite Hext; cbn|]; (split; [eexists; split; reflexivity|]);
      split; [reflexivity | exact Hidle | reflexivity | exact Hidle].
  - destruct (fs_access env (path_resolve env archivePath)); cbn;
      [rewrite Hext; cbn|]; (split; [eexists; split; reflexivity|]);
      split; [reflexivity | exact Hidle | reflexivity | exact Hidle].
  - rewrite Hext. cbn. rewrite orb_true_r.
    split; [eexists; split; reflexivity|]. split; [reflexivity | exact Hidle].
  - destruct (fs_access env (path_resolve env archivePath)); cbn;
      [rewrite Hext; cbn|]; (split; [eexists; split; reflexivity|]);
      split; [reflexivity | exact Hidle | reflexivity | exact Hidle].
  - destruct (fs_access env (path_resolve env archivePath)); cbn;
      [rewrite Hext; cbn|]; (split; [eexists; split; reflexivity|]);
      split; [reflexivity | exact Hidle | reflexivity | exact Hidle].
Qed.

Lemma only_zip_archives_are_processed_witness :
  let env := Fixtures.envListing Fixtures.plainListing in
  (exists e,
     snd (perform env (CallList "/data/a.tar") Fixtures.freshWorker)
       = Throw (Reject e)
     /\ err_code e = UNSUPPORTED_FORMAT)
  /\ effects (fst (perform env (CallList "/data/a.tar") Fixtures.freshWorker)) = [].
Proof.
  intros env.
  destruct (only_zip_archives_are_processed env (CallList "/data/a.tar")
              Fixtures.freshWorker)
    as (Hout & Heff & _); [reflexivity | discriminate |].
  split; [exact Hout | exact Heff].
Defined.

(** *** Source files that are missing *)

(** X16.  [compress] checks its sources before it touches anything: when
    the archive path has the [.zip] extension and some source file cannot be
    accessed, the call rejects with FILE_NOT_FOUND; the error names, in its
    message and in its details, the base names of the resolved sources that
    cannot be accessed, all of them and in the order the sources were given;
    nothing is spawned or created, and the worker stays idle. *)
Theorem compress_reports_missing_sources
    (env : Env) (st : St) (sourceFiles : list string) (archivePath : string)
    (level : CompressionLevel) (file : string) :
  activeOp (self st) = UNDEFINED ->
  toLowerCase (path_extname env (path_resolve env archivePath)) = ".zip"%string ->
  In file sourceFiles ->
  fs_access env (path_resolve env file) = false ->
  let missing :=
    map (path_basename env)
        (filter (fun resolved => negb (fs_access env resolved))
                (map (path_resolve env) sourceFiles)) in
  snd (compress env sourceFiles archivePath level st)
    = Throw (Reject (newArchiveError
                       ("Source files not found: " ++ Posix.join ", " missing)
                       FILE_NOT_FOUND [("missingFiles", DStrs missing)]))
  /\ In (path_basename env (path_resolve env file)) missing
  /\ effects (fst (compress env sourceFiles archivePath level st)) = effects st
  /\ activeOp (self (fst (compress env sourceFiles archivePath level st)))
     = UNDEFINED.
Proof.
  intros Hidle Hext Hin Hacc missing.
  assert (Hmissing : In (path_basename env (path_resolve env file)) missing).
  { unfold missing. apply in_map, filter_In. split.
    - apply in_map. exact Hin.
    - now rewrite Hacc. }
  assert (Hlen : (0 <? List.length missing)%nat = true).
  { destruct missing; [destruct Hmissing | reflexivity]. }
  unfold compress.
  remember (requireSources env (map (path_resolve env) sourceFiles)) as check
    eqn:Hcheck.
  unfold bind, modify, requireIdle, getSelf, throw, ret. cbn.
  rewrite Hidle. cbn. rewrite Hext. cbn.
  subst check. unfold requireSources, missingFilesOf. cbv zeta.
  fold missing. rewrite Hlen.
  unfold throw. cbn.
  repeat split; [exact Hmissing | exact Hidle].
Qed.

Lemma compress_reports_missing_sources_witness :
  let env := Fixtures.envWithout ["/work/sub/gone.txt"; "/data/lost.txt"]%string
                                 EmptyString in
  let sources := ["x.txt"; "sub/gone.txt"; "/data/lost.txt"]%string in
  snd (compress env sources "out/a.zip" FAST Fixtures.freshWorker)
    = Throw (Reject (newArchiveError
                       "Source files not found: gone.txt, lost.txt"
                       FILE_NOT_FOUND
                       [("missingFiles"%string,
                         DStrs ["gone.txt"; "lost.txt"]%string)]))
  /\ effects (fst (compress env sources "out/a.zip" FAST Fixtures.freshWorker)) = [].
Proof.
  intros env sources.
  destruct (compress_reports_missing_sources env Fixtures.freshWorker sources
              "out/a.zip" FAST "sub/gone.txt")
    as (Hout & _ & Heff & _); try reflexivity.
  - right. left. reflexivity.
  - split; [exact Hout | exact Heff].
Defined.

End ArchiveOpsMore.

(* ================================================================== *)
(** ** Further properties of the scheduler *)
(* ================================================================== *)

Module ArchiveServiceMore.
Import Types ArchiveService Invariants.
Local Open Scope list_scope.
Local Open Scope nat_scope.

(** *** The promise store *)

Lemma promiseOf_settle_other (jobId k : nat) (v : PromiseState)
    (ps : list (nat * PromiseState)) :
  k <> jobId -> promiseOf (settle jobId v ps) k = promiseOf ps k.
Proof.
  intros Hne. induction ps as [|[k0 p] rest IH]; [reflexivity|].
  cbn [settle map promiseOf fst snd].
  destruct (k0 =? jobId) eqn:Hk0.
  - apply Nat.eqb_eq in Hk0. subst k0.
    destruct p; cbn [promiseOf fst];
      (destruct (jobId =? k) eqn:Hjk;
       [apply Nat.eqb_eq in Hjk; congruence | exact IH]).
  - cbn [promiseOf]. destruct (k0 =? k); [reflexivity | exact IH].
Qed.

Lemma promiseOf_settle_same (jobId : nat) (v : PromiseState)
    (ps : list (nat * PromiseState)) :
  promiseOf (settle jobId v ps) jobId =
  match promiseOf ps jobId with
  | Some Pending => Some v
  | other => other
  end.
Proof.
  induction ps as [|[k0 p] rest IH]; [reflexivity|].
  cbn [settle map promiseOf fst snd].
  destruct (k0 =? jobId) eqn:Hk0.
  - destruct p; cbn [promiseOf]; rewrite Hk0; reflexivity.
  - cbn [promiseOf]. rewrite Hk0. exact IH.
Qed.

Lemma settle_ids (jobId : nat) (v : PromiseState) (ps : list (nat * PromiseState)) :
  map fst (settle jobId v ps) = map fst ps.
Proof.
  induction ps as [|[k0 p] rest IH]; [reflexivity|].
  cbn [settle map fst snd]. fold (settle jobId v rest). rewrite IH.
  destruct (k0 =? jobId); [destruct p|]; reflexivity.
Qed.

(** Settling leaves a settled future as it is. *)
Lemma promiseOf_settle_stable (jobId k : nat) (v p : PromiseState)
    (ps : list (nat * PromiseState)) :
  promiseOf ps k = Some p -> p <> Pending ->
  promiseOf (settle jobId v ps) k = Some p.
Proof.
  intros Hp Hne. destruct (Nat.eq_dec k jobId) as [->|Hk].
  - rewrite promiseOf_settle_same, Hp. destruct p; [contradiction | reflexivity..].
  - rewrite promiseOf_settle_other; assumption.
Qed.

(** Settling never makes a future pending. *)
Lemma promiseOf_settle_pending (jobId k : nat) (v : PromiseState)
    (ps : list (nat * PromiseState)) :
  v <> Pending ->
  promiseOf (settle jobId v ps) k = Some Pending ->
  promiseOf ps k = Some Pending /\ k <> jobId.
Proof.
  intros Hv H. destruct (Nat.eq_dec k jobId) as [->|Hk].
  - rewrite promiseOf_settle_same in H.
    destruct (promiseOf ps jobId) as [[| |]|]; try discriminate.
    injection H as H. contradiction.
  - rewrite promiseOf_settle_other in H; auto.
Qed.

Lemma promiseOf_app (ps : list (nat * PromiseState)) (n k : nat) (p : PromiseState) :
  promiseOf (ps ++ [(n, p)]) k =
  match promiseOf ps k with
  | Some p' => Some p'
  | None => if n =? k then Some p else None
  end.
Proof.
  induction ps as [|[k0 p0] rest IH]; cbn [app promiseOf]; [reflexivity|].
  destruct (k0 =? k); [reflexivity | exact IH].
Qed.

Lemma promiseOf_None (ps : list (nat * PromiseState)) (k : nat) :
  ~ In k (map fst ps) -> promiseOf ps k = None.
Proof.
  induction ps as [|[k0 p0] rest IH]; cbn [map fst In promiseOf]; [reflexivity|].
  intros Hnot. destruct (k0 =? k) eqn:Hk.
  - apply Nat.eqb_eq in Hk. tauto.
  - apply IH. tauto.
Qed.

(** *** The tracked jobs *)

Lemma Map_get_In (q : list (nat * QueuedJob)) (k : nat) (job : QueuedJob) :
  Map_get q k = Some job -> In (k, job) q.
Proof.
  induction q as [|[k0 j0] rest IH]; cbn [Map_get In]; [discriminate|].
  destruct (k0 =? k) eqn:Hk.
  - apply Nat.eqb_eq in Hk. intros H. injection H as <-. subst. auto.
  - auto.
Qed.

Lemma Map_get_None (q : list (nat * QueuedJob)) (k : nat) :
  ~ In k (map fst q) -> Map_get q k = None.
Proof.
  induction q as [|[k0 j0] rest IH]; cbn [map fst In Map_get]; [reflexivity|].
  intros Hnot. destruct (k0 =? k) eqn:Hk.
  - apply Nat.eqb_eq in Hk. tauto.
  - apply IH. tauto.
Qed.

Lemma Map_delete_In (q : list (nat * QueuedJob)) (jobId k : nat) (job : QueuedJob) :
  In (k, job) (Map_delete q jobId) <-> In (k, job) q /\ k <> jobId.
Proof.
  unfold Map_delete. rewrite filter_In. cbn [fst].
  rewrite negb_true_iff, Nat.eqb_neq. reflexivity.
Qed.

Lemma Map_delete_ids (q : list (nat * QueuedJob)) (jobId k : nat) :
  In k (map fst (Map_delete q jobId)) <-> In k (map fst q) /\ k <> jobId.
Proof.
  rewrite !in_map_iff. split.
  - intros [[k' job] [<- Hin]]. apply Map_delete_In in Hin as [Hin Hne].
    split; [exists (k', job); auto | exact Hne].
  - intros [[[k' job] [<- Hin]] Hne]. exists (k', job).
    split; [reflexivity | apply Map_delete_In; auto].
Qed.

Lemma setStatusOf_In (jobId : nat) (st : ProcessStatus.t)
    (q : list (nat * QueuedJob)) (k : nat) (job : QueuedJob) :
  In (k, job) (setStatusOf jobId st q) -> k <> jobId -> In (k, job) q.
Proof.
  unfold setStatusOf. rewrite in_map_iff. intros [[k' j'] [Heq Hin]] Hne.
  cbn [fst snd] in Heq. destruct (k' =? jobId) eqn:Hk.
  - apply Nat.eqb_eq in Hk. injection Heq as <- _. contradiction.
  - injection Heq as <- <-. exact Hin.
Qed.

(** What [processQueue] does to a service: it keeps the tracked ids, turns
    some QUEUED jobs into RUNNING ones, logs them as started, and stops with
    the counter at the ceiling or with no job left QUEUED. *)
Lemma processLoop_shape (maxC : Z) (q : list (nat * QueuedJob)) :
  forall active : Z,
    let '(a, q', started) := processLoop maxC active q in
    map fst q' = map fst q
    /\ (forall k job', In (k, job') q' ->
          exists job, In (k, job) q
                      /\ (job' = job
                          \/ (status job = ProcessStatus.QUEUED
                              /\ job' = setStatus ProcessStatus.RUNNING job)))
    /\ (forall i, In i started -> In i (map fst q))
    /\ ((a >= maxC)%Z \/ forall kj, In kj q' -> isQueued kj = false).
Proof.
  induction q as [|[k0 job0] rest IH]; intros active; cbn [processLoop].
  - repeat split; try contradiction. right. intros kj [].
  - destruct (ProcessStatus.eqb (status job0) ProcessStatus.QUEUED) eqn:Hq;
      cbn [negb].
    + assert (Hstatus : status job0 = ProcessStatus.QUEUED).
      { destruct (status job0); try discriminate Hq; reflexivity. }
      destruct (active + 1 >=? maxC)%Z eqn:Hceil.
      * split; [reflexivity|]. split; [|split].
        -- intros k job' [Heq | Hin].
           ++ injection Heq as <- <-. exists job0. split; [left; reflexivity|].
              right. split; [exact Hstatus | reflexivity].
           ++ exists job'. split; [right; exact Hin | left; reflexivity].
        -- intros i [<- | []]. left. reflexivity.
        -- left. apply Z.geb_le in Hceil. lia.
      * specialize (IH (active + 1)%Z).
        destruct (processLoop maxC (active + 1) rest) as [[a q'] started].
        destruct IH as (Hids & Hjobs & Hstarted & Hsat).
        split; [cbn [map fst]; now rewrite Hids|]. split; [|split].
        -- intros k job' [Heq | Hin].
           ++ injection Heq as <- <-. exists job0. split; [left; reflexivity|].
              right. split; [exact Hstatus | reflexivity].
           ++ destruct (Hjobs k job' Hin) as [job [Hjob Hrel]].
              exists job. split; [right; exact Hjob | exact Hrel].
        -- intros i [<- | Hin]; [left; reflexivity | right; auto].
        -- destruct Hsat as [Hsat | Hsat]; [left; exact Hsat | right].
           intros kj [<- | Hin]; [|auto].
           unfold isQueued. cbn [snd]. apply ArchiveServiceSpec.setStatus_not_queued.
    + specialize (IH active).
      destruct (processLoop maxC active rest) as [[a q'] started].
      destruct IH as (Hids & Hjobs & Hstarted & Hsat).
      split; [cbn [map fst]; now rewrite Hids|]. split; [|split].
      * intros k job' [Heq | Hin].
        -- injection Heq as <- <-. exists job0. split; [left; reflexivity|].
           left. reflexivity.
        -- destruct (Hjobs k job' Hin) as [job [Hjob Hrel]].
           exists job. split; [right; exact Hjob | exact Hrel].
      * intros i Hin. right. auto.
      * destruct Hsat as [Hsat | Hsat]; [left; exact Hsat | right].
        intros kj [<- | Hin]; [exact Hq | auto].
Qed.

Lemma processQueue_shape (s : t) :
  exists a q' started,
    processQueue s
    = mkService (config s) q' a (promises s) (inflight s ++ started)
                (invoked s ++ started) (workerCancels s) (nextId s)
    /\ map fst q' = map fst (queue s)
    /\ (forall k job', In (k, job') q' ->
          exists job, In (k, job) (queue s)
                      /\ (job' = job
                          \/ (status job = ProcessStatus.QUEUED
                              /\ job' = setStatus ProcessStatus.RUNNING job)))
    /\ (forall i, In i started -> In i (map fst (queue s)))
    /\ ((a >= maxConcurrent (config s))%Z
        \/ forall kj, In kj q' -> isQueued kj = false).
Proof.
  unfold processQueue.
  destruct (activeJobs s >=? maxConcurrent (config s))%Z eqn:Hceil.
  - exists (activeJobs s), (queue s), []. rewrite !app_nil_r.
    split; [destruct s; reflexivity|]. split; [reflexivity|]. split; [|split].
    + intros k job' Hin. exists job'. auto.
    + intros i [].
    + left. apply Z.geb_le in Hceil. lia.
  - pose proof (processLoop_shape (maxConcurrent (config s)) (queue s) (activeJobs s))
      as Hshape.
    destruct (processLoop _ _ _) as [[a q'] started].
    exists a, q', started. split; [reflexivity | exact Hshape].
Qed.


(** *** Tracked jobs and pending futures *)

Lemma trackInv_processQueue (s : t) : trackInv s -> trackInv (processQueue s).
Proof.
  intros (Hjobs & Hpending & Hids).
  destruct (processQueue_shape s) as (a & q' & started & -> & Hkeys & Hq' & _).
  unfold trackInv. cbn [queue promises nextId]. split; [|split].
  - intros k job' Hin. destruct (Hq' k job' Hin) as [job [Hjob Hrel]].
    destruct (Hjobs k job Hjob) as [Hstatus Hp]. split; [|exact Hp].
    destruct Hrel as [-> | [_ ->]]; [exact Hstatus | right; reflexivity].
  - intros k Hp. rewrite Hkeys. auto.
  - exact Hids.
Qed.

(** Removing a job whose future was settled keeps the correspondence. *)
Lemma trackInv_remove (s s1 : t) (jobId : nat) (st : ProcessStatus.t)
    (v : PromiseState) :
  v <> Pending ->
  queue s1 = Map_delete (setStatusOf jobId st (queue s)) jobId ->
  promises s1 = settle jobId v (promises s) ->
  nextId s1 = nextId s ->
  trackInv s -> trackInv s1.
Proof.
  intros Hv Hq Hp Hn (Hjobs & Hpending & Hids).
  unfold trackInv. rewrite Hq, Hp, Hn. split; [|split].
  - intros k job Hin. apply Map_delete_In in Hin as [Hin Hne].
    apply setStatusOf_In in Hin; [|exact Hne].
    destruct (Hjobs k job Hin) as [Hstatus Hpend]. split; [exact Hstatus|].
    rewrite promiseOf_settle_other; assumption.
  - intros k Hpend. apply promiseOf_settle_pending in Hpend as [Hpend Hne];
      [|exact Hv].
    apply Map_delete_ids. split; [|exact Hne].
    rewrite ArchiveServiceSpec.setStatusOf_ids. auto.
  - intros k Hin. rewrite settle_ids in Hin. auto.
Qed.

Lemma cancelEach_promise (q : list (nat * QueuedJob)) :
  forall (ps : list (nat * PromiseState)) (cancels : list nat) (k : nat),
    promiseOf (fst (cancelEach q ps cancels)) k =
    if existsb (Nat.eqb k) (map fst q) then
      match promiseOf ps k with
      | Some Pending => Some (Rejected (PlainError "All jobs cancelled"))
      | other => other
      end
    else promiseOf ps k.
Proof.
  induction q as [|[j job] rest IH]; intros ps cancels k; [reflexivity|].
  cbn [cancelEach map fst existsb]. rewrite IH.
  destruct (Nat.eqb k j) eqn:Hkj; cbn [orb].
  - apply Nat.eqb_eq in Hkj. subst k. rewrite promiseOf_settle_same.
    destruct (existsb (Nat.eqb j) (map fst rest));
      destruct (promiseOf ps j) as [[| |]|]; reflexivity.
  - apply Nat.eqb_neq in Hkj. rewrite promiseOf_settle_other; [|exact Hkj].
    reflexivity.
Qed.

Lemma cancelEach_ids (q : list (nat * QueuedJob)) :
  forall (ps : list (nat * PromiseState)) (cancels : list nat),
    map fst (fst (cancelEach q ps cancels)) = map fst ps.
Proof.
  induction q as [|[j job] rest IH]; intros ps cancels; [reflexivity|].
  cbn [cancelEach]. rewrite IH. apply settle_ids.
Qed.

Lemma existsb_eqb_In (k : nat) (l : list nat) :
  existsb (Nat.eqb k) l = true <-> In k l.
Proof.
  rewrite existsb_exists. split.
  - intros [x [Hin Heq]]. apply Nat.eqb_eq in Heq. now subst.
  - intros Hin. exists k. split; [exact Hin | apply Nat.eqb_refl].
Qed.

Lemma trackInv_cancelAll (s : t) : trackInv s -> trackInv (cancelAll s).
Proof.
  intros (Hjobs & Hpending & Hids). unfold cancelAll.
  pose proof (cancelEach_promise (queue s) (promises s) (workerCancels s)) as Hp.
  pose proof (cancelEach_ids (queue s) (promises s) (workerCancels s)) as Hk.
  destruct (cancelEach _ _ _) as [ps cancels]. cbn [fst] in Hp, Hk.
  unfold trackInv. cbn [queue promises nextId]. split; [|split].
  - intros k job [].
  - intros k Hpend. rewrite Hp in Hpend.
    destruct (existsb (Nat.eqb k) (map fst (queue s))) eqn:Hex.
    + destruct (promiseOf (promises s) k) as [[| |]|]; discriminate.
    + apply Hpending, existsb_eqb_In in Hpend. congruence.
  - intros k Hin. rewrite Hk in Hin. auto.
Qed.

Lemma trackInv_submit (s : t) (operation : ArchiveOps.Call) :
  fifoInv (queue s) (invoked s) (nextId s) ->
  trackInv s ->
  trackInv
    (mkService (config s)
       (Map_set (queue s) (nextId s)
          (mkJob (nextId s) ProcessStatus.QUEUED operation None))
       (activeJobs s) (promises s ++ [(nextId s, Pending)]) (inflight s)
       (invoked s) (workerCancels s) (S (nextId s))).
Proof.
  intros (_ & Hbelow & _) (Hjobs & Hpending & Hids).
  rewrite ArchiveServiceSpec.Map_set_fresh; [|exact Hbelow].
  unfold trackInv. cbn [queue promises nextId]. split; [|split].
  - intros k job Hin. rewrite promiseOf_app. apply in_app_iff in Hin as [Hin | Hin].
    + destruct (Hjobs k job Hin) as [Hstatus Hpend]. rewrite Hpend. auto.
    + destruct Hin as [Heq | []]. injection Heq as <- <-.
      split; [left; reflexivity|].
      rewrite promiseOf_None.
      * now rewrite Nat.eqb_refl.
      * intros Hin. apply Hids in Hin. lia.
  - intros k Hpend. rewrite promiseOf_app in Hpend.
    rewrite map_app, in_app_iff.
    destruct (promiseOf (promises s) k) as [p|] eqn:Hp.
    + left. apply Hpending. congruence.
    + right. destruct (nextId s =? k) eqn:Hk; [|discriminate].
      apply Nat.eqb_eq in Hk. left. exact Hk.
  - intros k Hin. rewrite map_app, in_app_iff in Hin. destruct Hin as [Hin | Hin].
    + apply Hids in Hin. lia.
    + destruct Hin as [<- | []]. cbn. lia.
Qed.

Lemma trackInv_step (s s' : t) (e : Event) :
  fifoInv (queue s) (invoked s) (nextId s) ->
  trackInv s -> step s e = Some s' -> trackInv s'.
Proof.
  intros Hfifo Htrack Hstep. destruct e as [operation | jobId | | jobId outcome];
    cbn [step] in Hstep.
  - injection Hstep as <-. unfold submitJob. cbn [fst].
    apply trackInv_processQueue, trackInv_submit; assumption.
  - injection Hstep as <-. unfold cancelJob.
    destruct (Map_get (queue s) jobId) as [job|]; [|exact Htrack].
    destruct (match hasRunningWorker job with
              | Some w => (w :: workerCancels s, (activeJobs s - 1)%Z)
              | None => (workerCancels s, activeJobs s)
              end) as [cancels active].
    cbn [fst]. apply trackInv_processQueue.
    eapply trackInv_remove;
      [ | reflexivity | reflexivity | reflexivity | exact Htrack]; discriminate.
  - injection Hstep as <-. apply trackInv_cancelAll, Htrack.
  - destruct (existsb (Nat.eqb jobId) (inflight s)); [|discriminate].
    injection Hstep as <-. unfold onSettled, cleanupJob.
    destruct outcome as [result | error]; cbn [queue config activeJobs promises
      inflight invoked workerCancels nextId];
      apply trackInv_processQueue;
      (eapply trackInv_remove;
       [ | reflexivity | reflexivity | reflexivity | exact Htrack]; discriminate).
Qed.

Lemma trackInv_reachable (config0 : ArchiveServiceConfig) (s : t) :
  reachable config0 s -> trackInv s.
Proof.
  induction 1 as [|s s' e Hreach IH Hstep].
  - unfold trackInv. cbn. repeat split; try contradiction; discriminate.
  - exact (trackInv_step s s' e
             (ArchiveServiceSpec.fifoInv_reachable config0 s Hreach) IH Hstep).
Qed.

Lemma reachable_run (config0 : ArchiveServiceConfig) (events : list Event) (s : t) :
  run (create config0) events = Some s -> reachable config0 s.
Proof.
  apply ArchiveServiceSpec.run_reachable. constructor.
Qed.

Lemma queued_or_running_count (q : list (nat * QueuedJob)) :
  (forall k job, In (k, job) q ->
     status job = ProcessStatus.QUEUED \/ status job = ProcessStatus.RUNNING) ->
  List.length q
  = List.length (filter isQueued q) + List.length (filter isRunning q).
Proof.
  induction q as [|[k job] rest IH]; intros Hq; [reflexivity|].
  cbn [filter]. unfold isQueued at 1, isRunning at 1. cbn [snd].
  assert (Hrest : List.length rest
                  = List.length (filter isQueued rest)
                    + List.length (filter isRunning rest)).
  { apply IH. intros k' job' Hin. apply (Hq k' job'). right. exact Hin. }
  destruct (Hq k job (or_introl eq_refl)) as [-> | ->]; cbn; lia.
Qed.

(** X17.  In every state the service can reach, the future of a job is
    pending exactly when the job is tracked, so no caller is left with a
    future that nothing will settle; every tracked job is QUEUED or RUNNING,
    and the total that [getStatus] reports is the number of queued jobs plus
    the number of running ones. *)
Theorem future_pending_iff_job_tracked
    (config0 : ArchiveServiceConfig) (events : list Event) (s : t) :
  run (create config0) events = Some s ->
  (forall k, promiseOf (promises s) k = Some Pending <-> In k (map fst (queue s)))
  /\ (forall k job, In (k, job) (queue s) ->
        status job = ProcessStatus.QUEUED \/ status job = ProcessStatus.RUNNING)
  /\ snd (getStatus s) = snd (fst (getStatus s)) + runningCount s.
Proof.
  intros Hrun.
  destruct (trackInv_reachable config0 s (reachable_run config0 events s Hrun))
    as (Hjobs & Hpending & _).
  split; [|split].
  - intros k. split; [apply Hpending|].
    intros Hin. apply in_map_iff in Hin as [[k' job] [<- Hin]].
    exact (proj2 (Hjobs k' job Hin)).
  - intros k job Hin. exact (proj1 (Hjobs k job Hin)).
  - cbn [getStatus fst snd]. apply queued_or_running_count.
    intros k job Hin. exact (proj1 (Hjobs k job Hin)).
Qed.

Lemma future_pending_iff_job_tracked_witness :
  exists s,
    run (create Fixtures.oneSlot)
        [Submit Fixtures.listA; Submit Fixtures.listA; CancelJob 0] = Some s
    /\ map fst (queue s) = [1]
    /\ promiseOf (promises s) 0 = Some (Rejected (PlainError "Job cancelled"))
    /\ (forall k, promiseOf (promises s) k = Some Pending <-> In k (map fst (queue s)))
    /\ snd (getStatus s) = snd (fst (getStatus s)) + runningCount s.
Proof.
  eexists. split; [vm_compute; reflexivity|].
  split; [reflexivity|]. split; [reflexivity|].
  destruct (future_pending_iff_job_tracked Fixtures.oneSlot
              [Submit Fixtures.listA; Submit Fixtures.listA; CancelJob 0]
              (fst (cancelJob (fst (submitJob (fst (submitJob (create Fixtures.oneSlot)
                                                     Fixtures.listA))
                                     Fixtures.listA)) 0)))
    as (Hiff & _ & Htotal); [vm_compute; reflexivity|].
  split; [exact Hiff | exact Htotal].
Defined.


(** X18.  When the operation of a tracked job settles, its outcome reaches
    the caller: the future of the job is fulfilled with the result, or
    rejected with the error, and the job is no longer tracked. *)
Theorem settled_operation_reaches_future
    (config0 : ArchiveServiceConfig) (events : list Event) (s : t)
    (k : nat) (outcome : Completion JsError ArchiveOpResult) :
  run (create config0) events = Some s ->
  In k (map fst (queue s)) ->
  In k (inflight s) ->
  exists s',
    step s (Settle k outcome) = Some s'
    /\ promiseOf (promises s') k = Some (forwarded outcome)
    /\ Map_get (queue s') k = None.
Proof.
  intros Hrun Htracked Hflight.
  destruct (trackInv_reachable config0 s (reachable_run config0 events s Hrun))
    as (Hjobs & _ & _).
  assert (Hpend : promiseOf (promises s) k = Some Pending).
  { apply in_map_iff in Htracked as [[k' job] [<- Hin]].
    exact (proj2 (Hjobs k' job Hin)). }
  cbn [step]. rewrite (proj2 (existsb_eqb_In k (inflight s)) Hflight).
  eexists. split; [reflexivity|].
  unfold onSettled, cleanupJob.
  destruct outcome as [result | error];
    cbn [queue config activeJobs promises inflight invoked workerCancels nextId
         forwarded];
    match goal with
    | |- context [processQueue ?s1] =>
        destruct (processQueue_shape s1) as (a & q' & started & -> & Hkeys & _)
    end;
    cbn [queue promises] in *;
    (split;
     [ rewrite promiseOf_settle_same, Hpend; reflexivity
     | apply Map_get_None; rewrite Hkeys; intros Hin;
       apply Map_delete_ids in Hin as [_ Hne]; congruence ]).
Qed.

Lemma settled_operation_reaches_future_witness :
  exists s s',
    run (create Fixtures.oneSlot) [Submit Fixtures.listA] = Some s
    /\ step s (Settle 0 (Return Fixtures.someResult)) = Some s'
    /\ promiseOf (promises s') 0 = Some (Fulfilled Fixtures.someResult)
    /\ Map_get (queue s') 0 = None.
Proof.
  destruct (settled_operation_reaches_future Fixtures.oneSlot
              [Submit Fixtures.listA]
              (fst (submitJob (create Fixtures.oneSlot) Fixtures.listA))
              0 (Return Fixtures.someResult))
    as (s' & Hstep & Hp & Hq).
  - vm_compute. reflexivity.
  - left. reflexivity.
  - left. reflexivity.
  - eexists. exists s'. split; [vm_compute; reflexivity|].
    split; [exact Hstep|]. split; [exact Hp | exact Hq].
Defined.

(** *** A job cancelled before it started *)

Lemma Map_set_ids_In (q : list (nat * QueuedJob)) (n k : nat) (job : QueuedJob) :
  In k (map fst (Map_set q n job)) -> In k (map fst q) \/ k = n.
Proof.
  induction q as [|[k0 j0] rest IH]; cbn [Map_set map fst In].
  - intros [<- | []]. right. reflexivity.
  - destruct (k0 =? n); cbn [map fst In]; [tauto|].
    intros [Hk | Hin]; [tauto|]. destruct (IH Hin); tauto.
Qed.

Lemma retired_processQueue (k : nat) (s : t) :
  retired k s -> retired k (processQueue s).
Proof.
  intros (Hq & Hlog & Hid).
  destruct (processQueue_shape s) as (a & q' & started & -> & Hkeys & _ & Hstarted & _).
  unfold retired. cbn [queue invoked nextId]. rewrite Hkeys.
  split; [exact Hq|]. split; [|exact Hid].
  rewrite in_app_iff. intros [Hin | Hin]; [auto | apply Hq, Hstarted, Hin].
Qed.

Lemma retired_remove (k jobId : nat) (st : ProcessStatus.t) (s s1 : t) :
  queue s1 = Map_delete (setStatusOf jobId st (queue s)) jobId ->
  invoked s1 = invoked s ->
  nextId s1 = nextId s ->
  retired k s -> retired k s1.
Proof.
  intros Hq Hlog Hn (Hnot & Hinv & Hid). unfold retired. rewrite Hq, Hlog, Hn.
  split; [|split; assumption].
  intros Hin. apply Map_delete_ids in Hin as [Hin _].
  rewrite ArchiveServiceSpec.setStatusOf_ids in Hin. auto.
Qed.

Lemma retired_step (k : nat) (s s' : t) (e : Event) :
  retired k s -> step s e = Some s' -> retired k s'.
Proof.
  intros Hret Hstep. destruct e as [operation | jobId | | jobId outcome];
    cbn [step] in Hstep.
  - injection Hstep as <-. unfold submitJob. cbn [fst].
    apply retired_processQueue. destruct Hret as (Hq & Hlog & Hid).
    unfold retired. cbn [queue invoked nextId].
    split; [|split; [exact Hlog | lia]].
    intros Hin. apply Map_set_ids_In in Hin as [Hin | Hin]; [auto | lia].
  - injection Hstep as <-. unfold cancelJob.
    destruct (Map_get (queue s) jobId) as [job|]; [|exact Hret].
    destruct (match hasRunningWorker job with
              | Some w => (w :: workerCancels s, (activeJobs s - 1)%Z)
              | None => (workerCancels s, activeJobs s)
              end) as [cancels active].
    cbn [fst]. apply retired_processQueue.
    eapply retired_remove; [reflexivity | reflexivity | reflexivity | exact Hret].
  - injection Hstep as <-. destruct Hret as (Hq & Hlog & Hid).
    unfold cancelAll. destruct (cancelEach _ _ _) as [ps cancels].
    unfold retired. cbn [queue invoked nextId]. auto.
  - destruct (existsb (Nat.eqb jobId) (inflight s)); [|discriminate].
    injection Hstep as <-. unfold onSettled, cleanupJob.
    destruct outcome as [result | error];
      cbn [queue config activeJobs promises inflight invoked workerCancels nextId];
      apply retired_processQueue;
      (eapply retired_remove; [reflexivity | reflexivity | reflexivity | exact Hret]).
Qed.

(** A future that was settled keeps its value through every event. *)
Lemma settled_future_step (k : nat) (p : PromiseState) (s s' : t) (e : Event) :
  promiseOf (promises s) k = Some p -> p <> Pending ->
  step s e = Some s' ->
  promiseOf (promises s') k = Some p.
Proof.
  intros Hp Hne Hstep. destruct e as [operation | jobId | | jobId outcome];
    cbn [step] in Hstep.
  - injection Hstep as <-. unfold submitJob. cbn [fst].
    match goal with
    | |- context [processQueue ?s1] =>
        destruct (processQueue_shape s1) as (a & q' & started & -> & _)
    end.
    cbn [promises]. rewrite promiseOf_app, Hp. reflexivity.
  - injection Hstep as <-. unfold cancelJob.
    destruct (Map_get (queue s) jobId) as [job|]; [|exact Hp].
    destruct (match hasRunningWorker job with
              | Some w => (w :: workerCancels s, (activeJobs s - 1)%Z)
              | None => (workerCancels s, activeJobs s)
              end) as [cancels active].
    cbn [fst].
    match goal with
    | |- context [processQueue ?s1] =>
        destruct (processQueue_shape s1) as (a & q' & started & -> & _)
    end.
    cbn [promises]. apply promiseOf_settle_stable; assumption.
  - injection Hstep as <-. unfold cancelAll.
    pose proof (cancelEach_promise (queue s) (promises s) (workerCancels s) k) as Hk.
    destruct (cancelEach _ _ _) as [ps cancels]. cbn [fst promises] in *.
    rewrite Hk, Hp.
    destruct (existsb _ _); [destruct p; [contradiction | reflexivity..] | reflexivity].
  - destruct (existsb (Nat.eqb jobId) (inflight s)); [|discriminate].
    injection Hstep as <-. unfold onSettled, cleanupJob.
    destruct outcome as [result | error];
      cbn [queue config activeJobs promises inflight invoked workerCancels nextId];
      match goal with
      | |- context [processQueue ?s1] =>
          destruct (processQueue_shape s1) as (a & q' & started & -> & _)
      end;
      cbn [promises]; apply promiseOf_settle_stable; assumption.
Qed.

Lemma retired_run (k : nat) (p : PromiseState) (events : list Event) :
  forall s s',
    retired k s -> promiseOf (promises s) k = Some p -> p <> Pending ->
    run s events = Some s' ->
    retired k s' /\ promiseOf (promises s') k = Some p.
Proof.
  induction events as [|e rest IH]; intros s s' Hret Hp Hne Hrun; cbn [run] in Hrun.
  - injection Hrun as <-. auto.
  - destruct (step s e) as [s1|] eqn:Hstep; [|discriminate].
    apply (IH s1 s'); [| |exact Hne|exact Hrun].
    + exact (retired_step k s s1 e Hret Hstep).
    + exact (settled_future_step k p s s1 e Hp Hne Hstep).
Qed.

(** X19.  A job cancelled while it is QUEUED never runs: [cancelJob] returns
    true, and whatever happens afterwards the operation of the job is never
    invoked, the job is not tracked again, and its future stays rejected
    with the cancellation error. *)
Theorem cancelled_queued_job_never_runs
    (config0 : ArchiveServiceConfig) (events later : list Event) (s s' : t)
    (k : nat) (job : QueuedJob) :
  run (create config0) events = Some s ->
  Map_get (queue s) k = Some job ->
  status job = ProcessStatus.QUEUED ->
  run (fst (cancelJob s k)) later = Some s' ->
  snd (cancelJob s k) = true
  /\ ~ In k (invoked s')
  /\ Map_get (queue s') k = None
  /\ promiseOf (promises s') k = Some (Rejected (PlainError "Job cancelled")).
Proof.
  intros Hrun Hget Hstatus Hlater.
  pose proof (reachable_run config0 events s Hrun) as Hreach.
  destruct (ArchiveServiceSpec.fifoInv_reachable config0 s Hreach)
    as (_ & Hbelow & _ & _ & Hafter).
  destruct (trackInv_reachable config0 s Hreach) as (Hjobs & _ & _).
  apply Map_get_In in Hget as Hin.
  assert (Hpend : promiseOf (promises s) k = Some Pending)
    by exact (proj2 (Hjobs k job Hin)).
  assert (Hlog : ~ In k (invoked s)).
  { intros Hlog. apply (Hafter k job Hin) in Hlog; [lia|].
    unfold isQueued. cbn [snd]. now rewrite Hstatus. }
  assert (Hid : k < nextId s).
  { rewrite Forall_forall in Hbelow. apply Hbelow.
    apply in_map_iff. exists (k, job). auto. }
  assert (Hcancel : snd (cancelJob s k) = true
                    /\ retired k (fst (cancelJob s k))
                    /\ promiseOf (promises (fst (cancelJob s k))) k
                       = Some (Rejected (PlainError "Job cancelled"))).
  { unfold cancelJob. rewrite Hget.
    destruct (match hasRunningWorker job with
              | Some w => (w :: workerCancels s, (activeJobs s - 1)%Z)
              | None => (workerCancels s, activeJobs s)
              end) as [cancels active].
    cbn [fst snd]. split; [reflexivity|]. split.
    - apply retired_processQueue. unfold retired. cbn [queue invoked nextId].
      split; [|split; assumption].
      intros Hk. apply Map_delete_ids in Hk as [_ Hne]. congruence.
    - match goal with
      | |- context [processQueue ?s1] =>
          destruct (processQueue_shape s1) as (a & q' & started & -> & _)
      end.
      cbn [promises]. rewrite promiseOf_settle_same, Hpend. reflexivity. }
  destruct Hcancel as (Htrue & Hretired & Hrejected).
  destruct (retired_run k _ later _ s' Hretired Hrejected) as ((Hq & Hinv & _) & Hp);
    [discriminate | exact Hlater |].
  split; [exact Htrue|]. split; [exact Hinv|].
  split; [apply Map_get_None; exact Hq | exact Hp].
Qed.

Lemma cancelled_queued_job_never_runs_witness :
  exists s s',
    run (create Fixtures.oneSlot) [Submit Fixtures.listA; Submit Fixtures.listA]
      = Some s
    /\ run (fst (cancelJob s 1))
           [Settle 0 (Return Fixtures.someResult); Submit Fixtures.listA] = Some s'
    /\ invoked s' = [0; 2]
    /\ ~ In 1 (invoked s')
    /\ promiseOf (promises s') 1 = Some (Rejected (PlainError "Job cancelled")).
Proof.
  eexists. eexists. split; [vm_compute; reflexivity|].
  split; [vm_compute; reflexivity|]. split; [reflexivity|].
  destruct (cancelled_queued_job_never_runs Fixtures.oneSlot
              [Submit Fixtures.listA; Submit Fixtures.listA]
              [Settle 0 (Return Fixtures.someResult); Submit Fixtures.listA]
              (fst (submitJob (fst (submitJob (create Fixtures.oneSlot) Fixtures.listA))
                              Fixtures.listA))
              (fst (submitJob
                      (onSettled
                         (fst (cancelJob
                                 (fst (submitJob
                                         (fst (submitJob (create Fixtures.oneSlot)
                                                         Fixtures.listA))
                                         Fixtures.listA)) 1))
                         0 (Return Fixtures.someResult))
                      Fixtures.listA))
              1 (mkJob 1 ProcessStatus.QUEUED Fixtures.listA None))
    as (_ & Hinv & _ & Hp); try (vm_compute; reflexivity).
  split; [exact Hinv | exact Hp].
Defined.

(** X20.  [cancelAll] settles every tracked job: the future of each is
    rejected with the error of [cancelAll], no future at all is left
    pending, and the service reports no active, queued or tracked job. *)
Theorem cancelAll_rejects_every_tracked_job
    (config0 : ArchiveServiceConfig) (events : list Event) (s : t) :
  run (create config0) events = Some s ->
  (forall k, In k (map fst (queue s)) ->
     promiseOf (promises (cancelAll s)) k
     = Some (Rejected (PlainError "All jobs cancelled")))
  /\ (forall k, promiseOf (promises (cancelAll s)) k <> Some Pending)
  /\ getStatus (cancelAll s) = (0%Z, 0, 0).
Proof.
  intros Hrun.
  destruct (trackInv_reachable config0 s (reachable_run config0 events s Hrun))
    as (Hjobs & Hpending & _).
  unfold cancelAll.
  pose proof (cancelEach_promise (queue s) (promises s) (workerCancels s)) as Hp.
  destruct (cancelEach _ _ _) as [ps cancels]. cbn [fst promises] in *.
  split; [|split; [|reflexivity]].
  - intros k Hin. rewrite Hp, (proj2 (existsb_eqb_In k _) Hin).
    apply in_map_iff in Hin as [[k' job] [<- Hin]]. cbn [fst].
    now rewrite (proj2 (Hjobs k' job Hin)).
  - intros k Hpend. rewrite Hp in Hpend.
    destruct (existsb (Nat.eqb k) (map fst (queue s))) eqn:Hex.
    + destruct (promiseOf (promises s) k) as [[| |]|]; discriminate.
    + apply Hpending, existsb_eqb_In in Hpend. congruence.
Qed.

Lemma cancelAll_rejects_every_tracked_job_witness :
  exists s,
    run (create Fixtures.oneSlot) [Submit Fixtures.listA; Submit Fixtures.listA]
      = Some s
    /\ map fst (queue s) = [0; 1]
    /\ (forall k, In k (map fst (queue s)) ->
          promiseOf (promises (cancelAll s)) k
          = Some (Rejected (PlainError "All jobs cancelled")))
    /\ getStatus (cancelAll s) = (0%Z, 0, 0).
Proof.
  eexists. split; [vm_compute; reflexivity|]. split; [reflexivity|].
  destruct (cancelAll_rejects_every_tracked_job Fixtures.oneSlot
              [Submit Fixtures.listA; Submit Fixtures.listA]
              (fst (submitJob (fst (submitJob (create Fixtures.oneSlot) Fixtures.listA))
                              Fixtures.listA)))
    as (Hall & _ & Hstatus); [vm_compute; reflexivity|].
  split; [exact Hall | exact Hstatus].
Defined.


(** *** Waiting jobs and free slots *)

Lemma saturated_processQueue (s : t) : saturated (processQueue s).
Proof.
  destruct (processQueue_shape s) as (a & q' & started & -> & _ & _ & _ & Hsat).
  unfold saturated. cbn [config activeJobs queue].
  destruct Hsat as [Hsat | Hsat]; [left; lia | right; exact Hsat].
Qed.

Lemma saturated_step (s s' : t) (e : Event) :
  saturated s -> step s e = Some s' -> saturated s'.
Proof.
  intros Hsat Hstep. destruct e as [operation | jobId | | jobId outcome];
    cbn [step] in Hstep.
  - injection Hstep as <-. apply saturated_processQueue.
  - injection Hstep as <-. unfold cancelJob.
    destruct (Map_get (queue s) jobId) as [job|]; [|exact Hsat].
    destruct (match hasRunningWorker job with
              | Some w => (w :: workerCancels s, (activeJobs s - 1)%Z)
              | None => (workerCancels s, activeJobs s)
              end) as [cancels active].
    apply saturated_processQueue.
  - injection Hstep as <-. unfold cancelAll.
    destruct (cancelEach _ _ _) as [ps cancels].
    right. intros kj [].
  - destruct (existsb (Nat.eqb jobId) (inflight s)); [|discriminate].
    injection Hstep as <-. unfold onSettled, cleanupJob.
    destruct outcome; apply saturated_processQueue.
Qed.

Lemma saturated_reachable (config0 : ArchiveServiceConfig) (s : t) :
  reachable config0 s -> saturated s /\ config s = config0.
Proof.
  induction 1 as [|s s' e Hreach [IHsat IHcfg] Hstep].
  - split; [right; intros kj [] | reflexivity].
  - split; [exact (saturated_step s s' e IHsat Hstep)|].
    rewrite (ArchiveServiceSpec.config_step s s' e Hstep). exact IHcfg.
Qed.

(** X21.  A job waits only while no slot is free: in every state the
    service can reach, if some tracked job is QUEUED then the counter of
    active jobs has reached the ceiling. *)
Theorem queued_job_means_no_free_slot
    (config0 : ArchiveServiceConfig) (events : list Event) (s : t)
    (k : nat) (job : QueuedJob) :
  run (create config0) events = Some s ->
  In (k, job) (queue s) ->
  status job = ProcessStatus.QUEUED ->
  (maxConcurrent config0 <= activeJobs s)%Z.
Proof.
  intros Hrun Hin Hstatus.
  destruct (saturated_reachable config0 s (reachable_run config0 events s Hrun))
    as [[Hsat | Hsat] Hcfg].
  - now rewrite <- Hcfg.
  - specialize (Hsat (k, job) Hin). unfold isQueued in Hsat. cbn [snd] in Hsat.
    rewrite Hstatus in Hsat. discriminate.
Qed.

Lemma queued_job_means_no_free_slot_witness :
  exists s,
    run (create Fixtures.oneSlot) [Submit Fixtures.listA; Submit Fixtures.listA]
      = Some s
    /\ In (1, mkJob 1 ProcessStatus.QUEUED Fixtures.listA None) (queue s)
    /\ (maxConcurrent Fixtures.oneSlot <= activeJobs s)%Z.
Proof.
  eexists. split; [vm_compute; reflexivity|].
  split; [right; left; reflexivity|].
  apply (queued_job_means_no_free_slot Fixtures.oneSlot
           [Submit Fixtures.listA; Submit Fixtures.listA]
           (fst (submitJob (fst (submitJob (create Fixtures.oneSlot) Fixtures.listA))
                           Fixtures.listA))
           1 (mkJob 1 ProcessStatus.QUEUED Fixtures.listA None)).
  - vm_compute. reflexivity.
  - right. left. reflexivity.
  - reflexivity.
Defined.

(** *** The handle of a submitted job *)

Lemma Map_get_app_fresh (q : list (nat * QueuedJob)) (n : nat) (job : QueuedJob) :
  ~ In n (map fst q) -> Map_get (q ++ [(n, job)]) n = Some job.
Proof.
  induction q as [|[k0 j0] rest IH]; cbn [app Map_get map fst In]; intros Hnot.
  - now rewrite Nat.eqb_refl.
  - destruct (k0 =? n) eqn:Hk.
    + apply Nat.eqb_eq in Hk. tauto.
    + apply IH. tauto.
Qed.

Lemma processLoop_skip (maxC : Z) (q r : list (nat * QueuedJob)) :
  forall active : Z,
    (forall kj, In kj q -> isQueued kj = false) ->
    processLoop maxC active (q ++ r)
    = let '(a, r', started) := processLoop maxC active r in (a, q ++ r', started).
Proof.
  induction q as [|[k0 j0] rest IH]; intros active Hq; cbn [app processLoop].
  - destruct (processLoop maxC active r) as [[a r'] started]. reflexivity.
  - pose proof (Hq (k0, j0) (or_introl eq_refl)) as Hk. unfold isQueued in Hk.
    cbn [snd] in Hk. rewrite Hk. cbn [negb].
    rewrite IH; [|intros kj Hin; apply Hq; right; exact Hin].
    destruct (processLoop maxC active r) as [[a r'] started]. reflexivity.
Qed.

(** X22.  A submitted job starts at once exactly when a slot is free: in
    every state the service can reach, the handle that a submit method
    returns carries the fresh job id, and its status is RUNNING when the
    counter of active jobs is below the ceiling and QUEUED otherwise; the job
    is tracked with that status and its future is pending. *)
Theorem submitted_job_starts_iff_slot_free
    (config0 : ArchiveServiceConfig) (events : list Event) (s : t)
    (operation : ArchiveOps.Call) :
  run (create config0) events = Some s ->
  let started :=
    if (activeJobs s <? maxConcurrent config0)%Z
    then ProcessStatus.RUNNING else ProcessStatus.QUEUED in
  jobId (snd (submitJob s operation)) = nextId s
  /\ handleStatus (snd (submitJob s operation)) = started
  /\ Map_get (queue (fst (submitJob s operation))) (nextId s)
     = Some (mkJob (nextId s) started operation None)
  /\ promiseOf (promises (fst (submitJob s operation))) (nextId s) = Some Pending.
Proof.
  intros Hrun started.
  pose proof (reachable_run config0 events s Hrun) as Hreach.
  destruct (saturated_reachable config0 s Hreach) as [Hsat Hcfg].
  pose proof (ArchiveServiceSpec.fifoInv_reachable config0 s Hreach) as Hfifo.
  pose proof (trackInv_reachable config0 s Hreach) as Htrack.
  assert (Hfresh : ~ In (nextId s) (map fst (queue s))).
  { destruct Hfifo as (_ & Hbelow & _). rewrite Forall_forall in Hbelow.
    intros Hin. apply Hbelow in Hin. lia. }
  assert (Hget : Map_get (queue (fst (submitJob s operation))) (nextId s)
                 = Some (mkJob (nextId s) started operation None)).
  { unfold submitJob. cbn [fst]. unfold processQueue.
    cbn [activeJobs config queue promises inflight invoked workerCancels nextId].
    rewrite ArchiveServiceSpec.Map_set_fresh by (apply Hfifo).
    subst started. rewrite Hcfg.
    destruct (activeJobs s <? maxConcurrent config0)%Z eqn:Hlt.
    - apply Z.ltb_lt in Hlt.
      assert (Hge : (activeJobs s >=? maxConcurrent config0)%Z = false).
      { destruct (activeJobs s >=? maxConcurrent config0)%Z eqn:Hge; [|reflexivity].
        apply Z.geb_le in Hge. lia. }
      rewrite Hge.
      destruct Hsat as [Hsat | Hsat]; [rewrite Hcfg in Hsat; lia|].
      rewrite processLoop_skip by exact Hsat.
      cbn [processLoop status ProcessStatus.eqb negb].
      destruct (activeJobs s + 1 >=? maxConcurrent config0)%Z; cbn [queue];
        apply Map_get_app_fresh; exact Hfresh.
    - apply Z.ltb_ge in Hlt.
      assert (Hge : (activeJobs s >=? maxConcurrent config0)%Z = true).
      { apply Z.geb_le. lia. }
      rewrite Hge. cbn [queue]. apply Map_get_app_fresh. exact Hfresh. }
  split; [reflexivity|]. split; [|split; [exact Hget|]].
  - unfold submitJob in *. cbn [snd fst handleStatus] in *. rewrite Hget. reflexivity.
  - assert (Hstep : step s (Submit operation) = Some (fst (submitJob s operation)))
      by reflexivity.
    destruct (trackInv_step s _ _ Hfifo Htrack Hstep) as (Hjobs & _ & _).
    apply Map_get_In in Hget. exact (proj2 (Hjobs _ _ Hget)).
Qed.

Lemma submitted_job_starts_iff_slot_free_witness :
  exists s,
    run (create Fixtures.oneSlot) [Submit Fixtures.listA] = Some s
    /\ activeJobs s = 1%Z
    /\ jobId (snd (submitJob s Fixtures.listA)) = 1
    /\ handleStatus (snd (submitJob s Fixtures.listA)) = ProcessStatus.QUEUED
    /\ handleStatus (snd (submitJob (create Fixtures.oneSlot) Fixtures.listA))
       = ProcessStatus.RUNNING.
Proof.
  eexists. split; [vm_compute; reflexivity|]. split; [reflexivity|].
  destruct (submitted_job_starts_iff_slot_free Fixtures.oneSlot
              [Submit Fixtures.listA]
              (fst (submitJob (create Fixtures.oneSlot) Fixtures.listA))
              Fixtures.listA)
    as (Hid & Hstatus & _); [vm_compute; reflexivity|].
  split; [exact Hid|]. split; [exact Hstatus | reflexivity].
Defined.

(** *** The ceiling *)

Lemma ceiling_holds_without_cancelAll_witness :
  exists s,
    run (create Fixtures.oneSlot)
        [Submit Fixtures.listA; Submit Fixtures.listA; Submit Fixtures.listA;
         CancelJob 2; Settle 0 (Return Fixtures.someResult)] = Some s
    /\ runningCount s = 1
    /\ (Z.of_nat (runningCount s) <= maxConcurrent Fixtures.oneSlot)%Z.
Proof.
  eexists. split; [vm_compute; reflexivity|]. split; [reflexivity|].
  apply (ArchiveServiceSpec.ceiling_holds_without_cancelAll Fixtures.oneSlot
           [Submit Fixtures.listA; Submit Fixtures.listA; Submit Fixtures.listA;
            CancelJob 2; Settle 0 (Return Fixtures.someResult)]).
  - cbn. lia.
  - reflexivity.
  - vm_compute. reflexivity.
Defined.

End ArchiveServiceMore.
